(** * Obsidian-Google-Drive: the synchronisation engine, embedded and verified

    The development follows the two TypeScript sources of the plugin:

    - [main.ts] (the plugin object: settings, the vault event handlers
      [handleCreate] / [handleDelete] / [handleModify], the filter
      [shouldSyncFile], and the local-apply helpers [createFolder],
      [createFile], [modifyFile], [upsertFile]);
    - [helpers/pull.ts] and [helpers/push.ts] (the two reconcilers).

    JavaScript objects used as dictionaries are finite maps of their own
    keys; where the program tests what it reads from an object keyed by
    paths, the read goes on to [Object.prototype] as it does in JavaScript.
    Asynchronous code is sequenced in program order, one task after the
    other; the call of [endSync] that the early exit of a manual pull does
    not await is kept apart from what pull returns.  Calls that leave
    the process (Google Drive, the Obsidian vault) are recorded in a trace
    and answered by an explicit environment, and are taken to return.  The
    model comes first, the statements about it second. *)

From Stdlib Require Import ZArith Ascii.
From stdpp Require Import base option list gmap strings sorting.

Local Open Scope Z_scope.

#[local] Set Warnings "-clear-no-such-hyp,-register-all".

(** * The model *)

(** ** JavaScript string primitives *)

Module Js.

(** [s.startsWith(pre)] *)
Fixpoint startsWith (s pre : string) {struct pre} : bool :=
  match pre with
  | EmptyString => true
  | String a pre' =>
      match s with
      | EmptyString => false
      | String b s' => if Ascii.eqb a b then startsWith s' pre' else false
      end
  end.

(** [s.endsWith(suf)] *)
Definition endsWith (s suf : string) : bool :=
  startsWith (String.rev s) (String.rev suf).

(** [s.includes(pat)] *)
Fixpoint includes (s pat : string) : bool :=
  startsWith s pat ||
  match s with
  | EmptyString => false
  | String _ s' => includes s' pat
  end.

(** [s.split(c)] for a one-character separator: never empty. *)
Fixpoint split (c : ascii) (s : string) : list string :=
  match s with
  | EmptyString => [EmptyString]
  | String a s' =>
      if Ascii.eqb a c then EmptyString :: split c s'
      else match split c s' with
           | [] => [String a EmptyString]
           | w :: ws => String a w :: ws
           end
  end.

(** [parts.join(sep)] *)
Fixpoint join (sep : string) (parts : list string) : string :=
  match parts with
  | [] => EmptyString
  | [w] => w
  | w :: ws => w +:+ sep +:+ join sep ws
  end.

(** [s.split("/").length], the hierarchy depth of a path. *)
Definition segments (s : string) : nat := length (split "/"%char s).

(** [s.split("/").pop() || ""] *)
Definition lastSegment (s : string) : string :=
  default EmptyString (last (split "/"%char s)).

(** Truthiness of a string-or-undefined value: the empty string and
    [undefined] are falsy. *)
Definition truthy (v : option string) : bool :=
  match v with
  | Some s => negb (String.eqb s EmptyString)
  | None => false
  end.

(** The names of the members every plain object inherits from
    [Object.prototype].  Reading such a name on an object that has no own
    key of that name finds the member: a function (for [__proto__] the
    prototype object), truthy and different from every string.  [delete],
    [Object.entries] and [Object.keys] never see these members. *)
Definition prototype_members : list string :=
  [ "constructor"; "hasOwnProperty"; "isPrototypeOf"; "propertyIsEnumerable";
    "toLocaleString"; "toString"; "valueOf";
    "__defineGetter__"; "__defineSetter__"; "__lookupGetter__";
    "__lookupSetter__"; "__proto__" ].

Definition inherited (key : string) : bool :=
  bool_decide (key ∈ prototype_members).

(** A key is an array index when it is the decimal form, without leading
    zeros, of an integer below 2^32 - 1.  An object lists such keys first,
    in ascending order; its other keys follow in the order of their
    insertion. *)
Definition digit (a : ascii) : option N :=
  let n := N_of_ascii a in
  if ((48 <=? n) && (n <=? 57))%N then Some (n - 48)%N else None.

Fixpoint digits (s : string) (acc : N) : option N :=
  match s with
  | EmptyString => Some acc
  | String a s' =>
      match digit a with
      | Some d => digits s' (10 * acc + d)%N
      | None => None
      end
  end.

Definition array_index (key : string) : option N :=
  match key with
  | EmptyString => None
  | String a rest =>
      if Ascii.eqb a "0" && negb (String.eqb rest EmptyString) then None
      else match digits key 0%N with
           | Some n => if (n <? 4294967295)%N then Some n else None
           | None => None
           end
  end.

Definition index_le (a b : string) : Prop :=
  (default 0 (array_index a) ≤ default 0 (array_index b))%N.

Global Instance index_le_dec : RelDecision index_le.
Proof. intros a b. unfold index_le. apply _. Defined.

(** The order in which an object lists its keys, [inserted] being the keys
    in the order of their insertion. *)
Definition key_order (inserted : list string) : list string :=
  merge_sort index_le (filter (λ k, is_Some (array_index k)) inserted)
  ++ filter (λ k, array_index k = None) inserted.

(** Truthiness of [obj[key]] for a plain object [obj] whose own keys hold
    strings: the own value if there is one, the inherited member if not. *)
Definition truthy_at (obj : gmap string string) (key : string) : bool :=
  match obj !! key with
  | Some s => negb (String.eqb s EmptyString)
  | None => inherited key
  end.

End Js.

(** [d] lies below the folder [a]: [d.startsWith(a + "/")]. *)
Definition under (a d : string) : bool := Js.startsWith d (a +:+ "/").

(** ** Data model ([main.ts], Obsidian's file objects) *)

(** The three operation kinds a path can be pending for. *)
Inductive Operation := OpCreate | OpDelete | OpModify.

Global Instance Operation_eq_dec : EqDecision Operation.
Proof. solve_decision. Defined.

(** [TAbstractFile] with its two subclasses.  [instanceof TFile] and
    [instanceof TFolder] are the constructor tests. *)
Inductive TAbstractFile :=
| TFile (path : string) (mtime : Z)
| TFolder (path : string) (children : list TAbstractFile).

Definition path (f : TAbstractFile) : string :=
  match f with TFile p _ => p | TFolder p _ => p end.

Definition isTFile (f : TAbstractFile) : bool :=
  match f with TFile _ _ => true | TFolder _ _ => false end.

Definition isTFolder (f : TAbstractFile) : bool :=
  match f with TFile _ _ => false | TFolder _ _ => true end.

Definition children (f : TAbstractFile) : list TAbstractFile :=
  match f with TFile _ _ => [] | TFolder _ c => c end.

(** [settings.operations] is a plain JavaScript object (created by [{}] or by
    [JSON.parse]); the map holds its own keys.  The value of an own key is
    one of the three operations or ([None]) a value that is none of them:
    the member of [Object.prototype] of that name, which a local-apply
    helper has read and stored back, or [undefined] under any other name. *)
Abbreviation Operations := (gmap string (option Operation)).

Module Ops.

(** [ops[p]] as far as the comparisons with ["create"], ["modify"] and
    ["delete"] see it: the operation found, if it is one. *)
Definition read (ops : Operations) (p : string) : option Operation :=
  ops !! p ≫= id.

(** [ops[p]] as a value: [None] for [undefined], [Some (Some o)] for an
    operation, [Some None] for the member of [Object.prototype] found under
    [p], whether inherited or stored back as an own key.  The value is
    truthy unless it is [undefined]. *)
Definition get (ops : Operations) (p : string) : option (option Operation) :=
  match read ops p with
  | Some o => Some (Some o)
  | None => if Js.inherited p then Some None else None
  end.

(** [ops[p] = v].  On an object without an own key ["__proto__"] the
    assignment to that name reaches the accessor of [Object.prototype],
    which stores nothing for the values at hand. *)
Definition write (p : string) (v : option Operation) (ops : Operations)
  : Operations :=
  if String.eqb p "__proto__" && bool_decide (ops !! p = None) then ops
  else <[p := v]> ops.

(** [delete ops[p]] *)
Definition remove (p : string) (ops : Operations) : Operations :=
  delete p ops.

(** [ops[p] === o] *)
Definition holds (ops : Operations) (p : string) (o : Operation) : bool :=
  bool_decide (read ops p = Some o).

(** Every own key holds one of the three operations. *)
Definition no_undefined (ops : Operations) : Prop :=
  ∀ p, ops !! p ≠ Some None.

End Ops.

(** ** The sync filter and the vault event handlers ([main.ts]) *)

Definition excludePatterns : list string :=
  [ ".DS_Store"; ".git/"; "node_modules/";
    ".obsidian/workspace.json"; ".obsidian/workspace-mobile.json" ].

Definition shouldSyncFile (p : string) : bool :=
  negb (existsb
          (λ pattern,
             if Js.endsWith pattern "/" then Js.startsWith p pattern
             else Js.includes p pattern)
          excludePatterns).

Definition handleCreate (file : TAbstractFile) (ops : Operations) : Operations :=
  if shouldSyncFile (path file) then
    if Ops.holds ops (path file) OpDelete then
      if isTFile file then Ops.write (path file) (Some OpModify) ops
      else Ops.remove (path file) ops
    else Ops.write (path file) (Some OpCreate) ops
  else ops.

Definition handleDelete (file : TAbstractFile) (ops : Operations) : Operations :=
  if shouldSyncFile (path file) then
    if Ops.holds ops (path file) OpCreate then Ops.remove (path file) ops
    else Ops.write (path file) (Some OpDelete) ops
  else ops.

Definition handleModify (file : TAbstractFile) (ops : Operations) : Operations :=
  if shouldSyncFile (path file) then
    let operation := Ops.read ops (path file) in
    if bool_decide (operation = Some OpCreate)
       || bool_decide (operation = Some OpModify)
    then ops
    else Ops.write (path file) (Some OpModify) ops
  else ops.

(** [{ ...file, path: oldPath }] is a plain object, not a [TFile]; only its
    path reaches [handleDelete]. *)
Definition handleRename (file : TAbstractFile) (oldPath : string)
    (ops : Operations) : Operations :=
  handleCreate file (handleDelete (TFolder oldPath []) ops).

(** The events the vault delivers to the registered handlers. *)
Inductive VaultEvent :=
| OnCreate (file : TAbstractFile)
| OnDelete (file : TAbstractFile)
| OnModify (file : TAbstractFile).

Definition event_file (e : VaultEvent) : TAbstractFile :=
  match e with OnCreate f | OnDelete f | OnModify f => f end.

Definition dispatch (e : VaultEvent) (ops : Operations) : Operations :=
  match e with
  | OnCreate f => handleCreate f ops
  | OnDelete f => handleDelete f ops
  | OnModify f => handleModify f ops
  end.

(** Events are handled one after the other, in the order they arrive. *)
Definition replay (evs : list VaultEvent) (ops : Operations) : Operations :=
  foldl (λ o e, dispatch e o) ops evs.

(** ** The plugin object and the local store it sits on *)

Abbreviation ArrayBuffer := (list Byte.byte).

(** What the data adapter finds on disk under a path. *)
Inductive DiskEntry :=
| DiskFile (content : ArrayBuffer) (mtime : option Z)
| DiskFolder.

(** What the vault knows under a path: a file with its [stat.mtime] or a
    folder with its children. *)
Inductive VaultEntry :=
| VaultFile (mtime : Z)
| VaultFolder (children : list TAbstractFile).

(** The file object the vault hands out for an entry found under [p]. *)
Definition file_object (p : string) (e : VaultEntry) : TAbstractFile :=
  match e with
  | VaultFile mtime => TFile p mtime
  | VaultFolder children => TFolder p children
  end.

(** [this.app]: the vault's index of file objects ([getAbstractFileByPath]),
    the adapter's view of the disk ([exists], [stat], [list]), and the
    vault's ["trashOption"] setting. *)
Record App := {
  vault : gmap string VaultEntry;
  adapter : gmap string DiskEntry;
  trashOption : string;
}.

Record PluginSettings := {
  refreshToken : string;
  operations : Operations;
  driveIdToPath : gmap string string;
  lastSyncedAt : Z;
  changesToken : string;
}.

Record ObsidianGoogleDrive := {
  settings : PluginSettings;
  syncing : bool;
  app : App;
}.

Definition set_operations (f : Operations → Operations)
    (t : ObsidianGoogleDrive) : ObsidianGoogleDrive :=
  {| settings :=
       {| refreshToken := refreshToken (settings t);
          operations := f (operations (settings t));
          driveIdToPath := driveIdToPath (settings t);
          lastSyncedAt := lastSyncedAt (settings t);
          changesToken := changesToken (settings t) |};
     syncing := syncing t;
     app := app t |}.

Definition set_driveIdToPath (f : gmap string string → gmap string string)
    (t : ObsidianGoogleDrive) : ObsidianGoogleDrive :=
  {| settings :=
       {| refreshToken := refreshToken (settings t);
          operations := operations (settings t);
          driveIdToPath := f (driveIdToPath (settings t));
          lastSyncedAt := lastSyncedAt (settings t);
          changesToken := changesToken (settings t) |};
     syncing := syncing t;
     app := app t |}.

Definition set_checkpoint (at_ : Z) (token : string)
    (t : ObsidianGoogleDrive) : ObsidianGoogleDrive :=
  {| settings :=
       {| refreshToken := refreshToken (settings t);
          operations := operations (settings t);
          driveIdToPath := driveIdToPath (settings t);
          lastSyncedAt := at_;
          changesToken := token |};
     syncing := syncing t;
     app := app t |}.

Definition set_syncing (b : bool) (t : ObsidianGoogleDrive)
    : ObsidianGoogleDrive :=
  {| settings := settings t; syncing := b; app := app t |}.

Definition set_app (f : App → App) (t : ObsidianGoogleDrive)
    : ObsidianGoogleDrive :=
  {| settings := settings t; syncing := syncing t; app := f (app t) |}.

Definition set_vault (f : gmap string VaultEntry → gmap string VaultEntry)
    (a : App) : App :=
  {| vault := f (vault a); adapter := adapter a; trashOption := trashOption a |}.

Definition set_adapter (f : gmap string DiskEntry → gmap string DiskEntry)
    (a : App) : App :=
  {| vault := vault a; adapter := f (adapter a); trashOption := trashOption a |}.

(** [t.settings.operations[p]] *)
Definition operation (t : ObsidianGoogleDrive) (p : string) : option Operation :=
  Ops.read (operations (settings t)) p.

(** [vault.getAbstractFileByPath], [vault.getFileByPath],
    [vault.getFolderByPath], [adapter.exists]. *)
Definition getAbstractFileByPath (a : App) (p : string) : option TAbstractFile :=
  file_object p <$> vault a !! p.

Definition getFileByPath (a : App) (p : string) : option TAbstractFile :=
  match getAbstractFileByPath a p with
  | Some f => if isTFile f then Some f else None
  | None => None
  end.

Definition getFolderByPath (a : App) (p : string) : option TAbstractFile :=
  match getAbstractFileByPath a p with
  | Some f => if isTFolder f then Some f else None
  | None => None
  end.

Definition adapter_exists (a : App) (p : string) : bool :=
  bool_decide (is_Some (adapter a !! p)).

(** What is on disk at [p] and below it goes away (trash, remove, rmdir). *)
Definition disk_without (p : string) (disk : gmap string DiskEntry)
    : gmap string DiskEntry :=
  filter (λ kv, kv.1 ≠ p ∧ under p kv.1 = false) disk.

(** *** Vault writes and the events they fire

    The four writes the local-apply helpers rest on belong to Obsidian.  A
    write changes the local store and makes the vault deliver events to the
    handlers above before the helper resumes; which events, Obsidian
    decides: [fires] is that decision. *)
Inductive VaultCall :=
| CreateFolder (p : string)
| CreateBinary (p : string)
| ModifyBinary (p : string)
| WriteBinary (p : string)
| TrashFile (p : string).

Definition call_path (c : VaultCall) : string :=
  match c with
  | CreateFolder p | CreateBinary p | ModifyBinary p | WriteBinary p
  | TrashFile p => p
  end.

Abbreviation Firing := (App → VaultCall → list VaultEvent).

(** The events Obsidian documents: [create] for a new folder or file,
    [modify] for new content of a file the vault knows, [delete] for a
    trashed entry; a raw adapter write surfaces as [create] for a path the
    vault did not know and as [modify] otherwise. *)
Definition obsidian_fires : Firing := λ a c,
  match c with
  | CreateFolder p => [OnCreate (TFolder p [])]
  | CreateBinary p => [OnCreate (TFile p 0)]
  | ModifyBinary p => [OnModify (TFile p 0)]
  | WriteBinary p =>
      match getAbstractFileByPath a p with
      | Some f => [OnModify f]
      | None => [OnCreate (TFile p 0)]
      end
  | TrashFile p =>
      match getAbstractFileByPath a p with
      | Some f => [OnDelete f]
      | None => []
      end
  end.

Definition deliver (fires : Firing) (c : VaultCall) (t : ObsidianGoogleDrive)
    : ObsidianGoogleDrive :=
  set_operations (replay (fires (app t) c)) t.

Definition vault_createFolder (fires : Firing) (p : string)
    (t : ObsidianGoogleDrive) : ObsidianGoogleDrive :=
  set_app (λ a, set_adapter (insert p DiskFolder)
                  (set_vault (insert p (VaultFolder [])) a))
    (deliver fires (CreateFolder p) t).

Definition vault_createBinary (fires : Firing) (p : string)
    (content : ArrayBuffer) (mtime : option Z)
    (t : ObsidianGoogleDrive) : ObsidianGoogleDrive :=
  set_app (λ a, set_adapter (insert p (DiskFile content mtime))
                  (set_vault (insert p (VaultFile (default 0 mtime))) a))
    (deliver fires (CreateBinary p) t).

Definition vault_modifyBinary (fires : Firing) (p : string)
    (content : ArrayBuffer) (mtime : option Z)
    (t : ObsidianGoogleDrive) : ObsidianGoogleDrive :=
  set_app (λ a, set_adapter (insert p (DiskFile content mtime))
                  (set_vault (insert p (VaultFile (default 0 mtime))) a))
    (deliver fires (ModifyBinary p) t).

Definition adapter_writeBinary (fires : Firing) (p : string)
    (content : ArrayBuffer) (mtime : option Z)
    (t : ObsidianGoogleDrive) : ObsidianGoogleDrive :=
  set_app (set_adapter (insert p (DiskFile content mtime)))
    (deliver fires (WriteBinary p) t).

(** [fileManager.trashFile(file)]: the entry and what lies below it leave
    the vault and the disk; the vault fires its events. *)
Definition trashFile (fires : Firing) (p : string) (t : ObsidianGoogleDrive)
    : ObsidianGoogleDrive :=
  set_app (λ a, set_adapter (disk_without p)
                  (set_vault (filter (λ kv, kv.1 ≠ p ∧ under p kv.1 = false)) a))
    (deliver fires (TrashFile p) t).

(** *** The local-apply helpers ([main.ts])

    Each one saves what it reads under its path ([oldOperation]), performs
    the write, stores the saved value back and deletes the key when the
    saved value was falsy.  [modificationDate] is taken after its
    normalisation to a number. *)

(** [operations[p] = oldOperation; if (!oldOperation) delete operations[p]]:
    a saved [undefined] is assigned and the key deleted at once, which
    leaves no own key; any other saved value is truthy and stays. *)
Definition restore (p : string) (oldOperation : option (option Operation))
    (t : ObsidianGoogleDrive) : ObsidianGoogleDrive :=
  match oldOperation with
  | Some v => set_operations (Ops.write p v) t
  | None => set_operations (Ops.remove p) t
  end.

Definition createFolder (fires : Firing) (p : string)
    (t : ObsidianGoogleDrive) : ObsidianGoogleDrive :=
  let oldOperation := Ops.get (operations (settings t)) p in
  restore p oldOperation (vault_createFolder fires p t).

Definition createFile (fires : Firing) (p : string) (content : ArrayBuffer)
    (modificationDate : option Z) (t : ObsidianGoogleDrive)
    : ObsidianGoogleDrive :=
  let oldOperation := Ops.get (operations (settings t)) p in
  restore p oldOperation (vault_createBinary fires p content modificationDate t).

Definition modifyFile (fires : Firing) (file : TAbstractFile)
    (content : ArrayBuffer) (modificationDate : option Z)
    (t : ObsidianGoogleDrive) : ObsidianGoogleDrive :=
  let oldOperation := Ops.get (operations (settings t)) (path file) in
  restore (path file) oldOperation
    (vault_modifyBinary fires (path file) content modificationDate t).

Definition upsertFile (fires : Firing) (file : string) (content : ArrayBuffer)
    (modificationDate : option Z) (t : ObsidianGoogleDrive)
    : ObsidianGoogleDrive :=
  let oldOperation := Ops.get (operations (settings t)) file in
  restore file oldOperation
    (adapter_writeBinary fires file content modificationDate t).

(** [deleteFile] ([main.ts], lines 561-566): whatever was pending for the
    path, the key is gone afterwards. *)
Definition deleteFile (fires : Firing) (file : TAbstractFile)
    (t : ObsidianGoogleDrive) : ObsidianGoogleDrive :=
  let oldOperation := Ops.get (operations (settings t)) (path file) in
  let t := trashFile fires (path file) t in
  let t := set_operations (Ops.remove (path file)) t in
  if bool_decide (oldOperation = None)
  then set_operations (Ops.remove (path file)) t
  else t.

(** ** The remote side ([helpers/drive.ts], seen through its callers)

    The reconcilers reach Google Drive through [t.drive]; that module is not
    part of the sources at hand.  Its answers are an environment, its calls
    are recorded in a trace.  Progress messages ([setMessage]) and console
    output are left out. *)

(** The fields of a Drive file the reconcilers read: [properties?.path] is
    one optional value, [modifiedTime] is taken as the timestamp
    [new Date(modifiedTime).getTime()]. *)
Record FileMetadata := {
  file_id : string;
  mimeType : string;
  properties_path : option string;
  modifiedTime : Z;
}.

(** An entry of the change feed. *)
Record Change := { fileId : string; removed : bool }.

(** Modelled from the spec: the constant [folderMimeType] of
    [helpers/drive.ts] is missing; Remote Object Metadata carries an
    is-directory mark, which on Drive is this MIME type. *)
Definition folderMimeType : string := "application/vnd.google-apps.folder".

(** The three queries [drive.searchFiles] is called with: the files
    modified after the last sync (pull, line 31), the config objects (push,
    line 387), the files of given paths (the undo dialog, line 226). *)
Inductive Search :=
| ModifiedAfter (lastSyncedAt : Z)
| ConfigObjects
| ByPaths (paths : list string).

(** What a reconciler does to the outside world, in program order: the
    notices, the calls on [t.drive] and the local writes.  An id is [None]
    where the code passes a value that is no string. *)
Inductive Effect :=
| NewNotice (message : string)
| SearchFiles (query : Search)
| SearchHiddenFiles
| GetChanges (token : string)
| GetFile (id : option string)
| GetFileMetadata (id : option string)
| GetConfigFilesToSync
| GetChangesStartToken
| CallCreateFile (p : string)
| CallModifyFile (p : string)
| CallUpsertFile (p : string)
| CallCreateFolder (p : string)
| CallDeleteFile (p : string)
| TrashLocal (p : string)
| TrashSystem (p : string)
| AdapterRemove (p : string)
| AdapterRmdir (p : string)
| GetRootFolderId
| BatchDelete (ids : list (option string))
| DriveCreateFolder (p : string) (parent : option string) (config : bool)
| UploadFile (p : string) (parent : option string) (config : bool)
| UpdateFile (id : option string) (p : string)
| UpdateSettingsFile (id : option string) (snapshot : PluginSettings)
| EndSync.

Global Instance Effect_inhabited : Inhabited Effect := populate EndSync.

(** What a revert confirmed inside the confirmation dialog does outside the
    plugin ([ConfirmUndoModal], lines 225-293): it asks Drive for the files
    of some paths, for the content or the metadata of a file, raises a
    notice, or calls one of the local-apply helpers.  It never asks Drive
    to change anything. *)
Inductive UndoCall :=
| UndoSearch (paths : list string)
| UndoGetFile (id : option string)
| UndoGetFileMetadata (id : option string)
| UndoNotice (message : string)
| UndoCreateFolder (p : string)
| UndoCreateFile (p : string)
| UndoModifyFile (p : string)
| UndoDeleteFile (p : string).

Definition undo_effect (c : UndoCall) : Effect :=
  match c with
  | UndoSearch paths => SearchFiles (ByPaths paths)
  | UndoGetFile id => GetFile id
  | UndoGetFileMetadata id => GetFileMetadata id
  | UndoNotice message => NewNotice message
  | UndoCreateFolder p => CallCreateFolder p
  | UndoCreateFile p => CallCreateFile p
  | UndoModifyFile p => CallModifyFile p
  | UndoDeleteFile p => CallDeleteFile p
  end.

(** The answers of [t.drive] during one sync.  A call that can fail returns
    its failure sentinel as [None] or [false]. *)
Record Drive := {
  getFile : string → ArrayBuffer;
  searchHiddenFiles : list FileMetadata;
  searchRecentlyModified : option (list FileMetadata);
  getChanges : option (list Change);
  searchConfigPaths : option (list string);
  batchDelete : list (option string) → bool;
  drive_createFolder : string → option string;
  uploadFile : string → option string;
  updateFile : option string → string → bool;
  getConfigFilesToSync : list string;
  getChangesStartToken : option string;
}.

(** What the user and the machine contribute to one push: the listing of
    the vault, what the reverts confirmed inside the confirmation dialog did
    to the plugin and outside it, how the dialog was left, connectivity,
    the clock. *)
Record Session := {
  allLocalFiles : list string;
  reverts : ObsidianGoogleDrive → ObsidianGoogleDrive * list UndoCall;
  proceed : bool;
  connected : bool;
  now : Z;
}.

(** ** Sequencing: [Array.prototype.map] and [filter] with a callback that
    changes the plugin, run left to right *)

Fixpoint map_state {S A B : Type} (f : A → S → S * B) (l : list A) (s : S)
    : S * list B :=
  match l with
  | [] => (s, [])
  | a :: l' =>
      let '(s1, b) := f a s in
      let '(s2, bs) := map_state f l' s1 in
      (s2, b :: bs)
  end.

Fixpoint filter_state {S A : Type} (f : A → S → S * bool) (l : list A) (s : S)
    : S * list A :=
  match l with
  | [] => (s, [])
  | a :: l' =>
      let '(s1, keep) := f a s in
      let '(s2, kept) := filter_state f l' s1 in
      (s2, if keep then a :: kept else kept)
  end.

Definition isSome {A : Type} (o : option A) : bool :=
  match o with Some _ => true | None => false end.

(** *** Batches by depth

    Modelled from the spec: [foldersToBatches] of [helpers/drive.ts] is
    missing.  Section 4.2: batch k contains all paths at hierarchy depth k,
    depth being the number of path segments; batches come in ascending
    depth.  [key] gives the path of an element (callers pass paths or
    folder objects). *)
Definition foldersToBatches {A : Type} (key : A → string) (folders : list A)
    : list (list A) :=
  (λ depth, filter (λ x, Js.segments (key x) = depth) folders)
    <$> seq 1 (max_list (Js.segments ∘ key <$> folders)).

(** ** Pull ([helpers/pull.ts]) *)

(** *** Removals: one entry of the change feed (lines 67-79) *)
Definition resolveRemoval (fileId : string) (t : ObsidianGoogleDrive)
    : ObsidianGoogleDrive * option TAbstractFile :=
  let path := driveIdToPath (settings t) !! fileId in
  if negb (Js.truthy path) then (t, None)
  else
    let p := default EmptyString path in
    let t := set_driveIdToPath (delete fileId) t in
    let file := getAbstractFileByPath (app t) p in
    if negb (isSome file) && Ops.holds (operations (settings t)) p OpDelete
    then (set_operations (Ops.remove p) t, None)
    else (t, file).

(** [changes.filter(({ removed }) => removed).map(...)]: the files to remove
    locally, [None] where the callback returned nothing. *)
Definition removedIds (changes : list Change) : list string :=
  fileId <$> filter (λ c, removed c = true) changes.

Definition deletions (changes : list Change) (t : ObsidianGoogleDrive)
    : ObsidianGoogleDrive * list (option TAbstractFile) :=
  map_state resolveRemoval (removedIds changes) t.

(** *** The path-to-id map (lines 87-103)

    [Object.fromEntries] keeps the last pair of a repeated key; for an index
    in which two ids share a path the winner is the one the enumeration of
    the index lists last. *)
Definition invert (m : gmap string string) : gmap string string :=
  foldl (λ acc '(k, v), <[v := k]> acc) ∅ (map_to_list m).

Definition updateMap (allRecentFiles : list FileMetadata)
    (pathToId : gmap string string) : gmap string string :=
  foldl (λ acc file,
           if Js.truthy (properties_path file)
           then <[default EmptyString (properties_path file) := file_id file]> acc
           else acc)
        pathToId allRecentFiles.

(** [properties?.path] when it is truthy. *)
Definition truthy_path (file : FileMetadata) : option string :=
  if Js.truthy (properties_path file) then properties_path file else None.

(** The keys of [pathToId] in the order of their insertion: the paths of
    the index in the order the index lists them, each at its first
    occurrence, then the paths of the recent files that were not among
    them.  Assigning to a key that exists keeps its place. *)
Definition insertedPaths (index : gmap string string)
    (allRecentFiles : list FileMetadata) : list string :=
  reverse (remove_dups (reverse
    ((snd <$> map_to_list index) ++ omap truthy_path allRecentFiles))).

(** Lines 98-100: the index is rebuilt from the entries of [pathToId] in
    the order the object lists them; where two paths carry one id the later
    one stays.  A path that a recent file brought in comes after the paths
    the index had, unless it is an array index. *)
Definition refreshedIndex (index : gmap string string)
    (allRecentFiles : list FileMetadata) : gmap string string :=
  let pathToId := updateMap allRecentFiles (invert index) in
  foldl (λ acc p, match pathToId !! p with
                  | Some id => <[id := p]> acc
                  | None => acc
                  end)
    ∅ (Js.key_order (insertedPaths index allRecentFiles)).

(** *** Deletion phase (lines 105-138) *)

(** [pathToId] is a plain object too: the two filters test what they read
    from it under the path ([pathToId[file.path]], lines 110 and 123). *)
Definition keepDeletedFile (pathToId : gmap string string)
    (file : TAbstractFile) (t : ObsidianGoogleDrive)
    : ObsidianGoogleDrive * bool :=
  if Ops.holds (operations (settings t)) (path file) OpModify then
    (if negb (Js.truthy_at pathToId (path file))
     then set_operations (Ops.write (path file) (Some OpCreate)) t
     else t,
     false)
  else (t, true).

Definition keepDeletedFolder (pathToId : gmap string string)
    (deletionPaths : list (option string))
    (folder : TAbstractFile) (t : ObsidianGoogleDrive)
    : ObsidianGoogleDrive * bool :=
  if Js.truthy_at pathToId (path folder) then (t, false)
  else if existsb (λ c, negb (bool_decide (Some (path c) ∈ deletionPaths)))
            (children folder)
  then (t, true)
  else (set_operations (Ops.write (path folder) (Some OpCreate)) t, false).

(** [file?.path] *)
Definition optional_path (file : option TAbstractFile) : option string :=
  path <$> file.

(** The objects of [deletions] that are files, resp. folders. *)
Definition tfiles (l : list (option TAbstractFile)) : list TAbstractFile :=
  filter (λ f, isTFile f = true) (omap id l).

Definition tfolders (l : list (option TAbstractFile)) : list TAbstractFile :=
  filter (λ f, isTFolder f = true) (omap id l).

(** [deleteFiles] up to its last call: the plugin after the two filters and
    the list handed to [deleteFilesMinimumOperations], folders first. *)
Definition deleteFiles_selection (pathToId : gmap string string)
    (deletions : list (option TAbstractFile)) (t : ObsidianGoogleDrive)
    : ObsidianGoogleDrive * list TAbstractFile :=
  let '(t1, deletedFiles) :=
    filter_state (keepDeletedFile pathToId) (tfiles deletions) t in
  let deletionPaths := optional_path <$> deletions in
  let '(t2, deletedFolders) :=
    filter_state (keepDeletedFolder pathToId deletionPaths)
      (tfolders deletions) t1 in
  (t2, deletedFolders ++ deletedFiles).

(** Modelled from the spec: [deleteFilesMinimumOperations] of
    [helpers/drive.ts] is missing.  Section 4.4, step 6: the surviving set is
    removed with a minimal-operation delete, any descendant already covered
    by a removed ancestor is skipped. *)
Definition deleteFilesMinimumOperations (fires : Firing)
    (files : list TAbstractFile) (t : ObsidianGoogleDrive)
    : ObsidianGoogleDrive * list Effect :=
  let topmost :=
    filter (λ f, forallb (λ g, negb (under (path g) (path f))) files = true)
      files in
  (foldl (λ t f, deleteFile fires f t) t topmost,
   CallDeleteFile ∘ path <$> topmost).

Definition deleteFiles (fires : Firing) (pathToId : gmap string string)
    (deletions : list (option TAbstractFile)) (t : ObsidianGoogleDrive)
    : ObsidianGoogleDrive * list Effect :=
  let '(t, files) := deleteFiles_selection pathToId deletions t in
  deleteFilesMinimumOperations fires files t.

(** *** Upsert phase (lines 144-214) *)

(** One folder of a batch (lines 156-165). *)
Definition upsertFolder (fires : Firing) (folder : string)
    (t : ObsidianGoogleDrive) : ObsidianGoogleDrive * list Effect :=
  let t := set_operations (Ops.remove folder) t in
  if isSome (getFolderByPath (app t) folder) || adapter_exists (app t) folder
  then (t, [])
  else (createFolder fires folder t, [CallCreateFolder folder]).

(** The local entry the upsert phase looks for under a path:
    [vault.getFileByPath(p) || (await adapter.exists(p))]. *)
Definition localFile (t : ObsidianGoogleDrive) (p : string) : bool :=
  isSome (getFileByPath (app t) p) || adapter_exists (app t) p.

(** One remote file that is not a folder (lines 177-212).  The second
    component lists what the task did outside the log: the download and the
    local write. *)
Definition upsertNote (getFile : string → ArrayBuffer) (fires : Firing)
    (file : FileMetadata) (t : ObsidianGoogleDrive)
    : ObsidianGoogleDrive * list Effect :=
  if negb (Js.truthy (properties_path file)) then (t, [])
  else
    let p := default EmptyString (properties_path file) in
    let operation := operation t p in
    if localFile t p && bool_decide (operation = Some OpModify) then (t, [])
    else if localFile t p && bool_decide (operation = Some OpCreate) then
      (set_operations (Ops.write p (Some OpModify)) t, [])
    else
      let content := getFile (file_id file) in
      match getFileByPath (app t) p with
      | Some tfile =>
          (modifyFile fires tfile content (Some (modifiedTime file)) t,
           [GetFile (Some (file_id file)); CallModifyFile (path tfile)])
      | None =>
          (upsertFile fires p content (Some (modifiedTime file)) t,
           [GetFile (Some (file_id file)); CallUpsertFile p])
      end.

(** [batchAsyncs(newNotes.map(...))]: the tasks in the order of the list,
    each with what it did.  A task reads the log and writes it without an
    [await] in between, and what it does after one concerns its own path;
    the interleavings [batchAsyncs] allows differ from this order in steps
    on other paths only. *)
Definition upsertNotes (getFile : string → ArrayBuffer) (fires : Firing)
    (newNotes : list FileMetadata) (t : ObsidianGoogleDrive)
    : ObsidianGoogleDrive * list (list Effect) :=
  map_state (upsertNote getFile fires) newNotes t.

(** *** [upsertFiles] as a whole *)
Definition upsertFiles (getFile : string → ArrayBuffer) (fires : Firing)
    (allRecentFiles : list FileMetadata) (t : ObsidianGoogleDrive)
    : ObsidianGoogleDrive * list Effect :=
  let newFolders :=
    filter (λ f, mimeType f = folderMimeType) allRecentFiles in
  let batches := foldersToBatches id (omap truthy_path newFolders) in
  let '(t, created) := map_state (upsertFolder fires) (concat batches) t in
  let newNotes :=
    filter (λ f, mimeType f ≠ folderMimeType) allRecentFiles in
  let '(t, done) := upsertNotes getFile fires newNotes t in
  (t, concat created ++ concat done).

(** *** Internal/config removal phase (lines 218-301) *)

Inductive StatType := StatFile | StatFolder.

Global Instance StatType_eq_dec : EqDecision StatType.
Proof. solve_decision. Defined.

(** [{ path, type }] *)
Record ConfigDeletion := { cd_path : string; cd_type : StatType }.

Global Instance ConfigDeletion_eq_dec : EqDecision ConfigDeletion.
Proof. solve_decision. Defined.

(** [adapter.stat(p)]: [null] when nothing is there. *)
Definition adapter_stat (a : App) (p : string) : option StatType :=
  match adapter a !! p with
  | Some (DiskFile _ _) => Some StatFile
  | Some DiskFolder => Some StatFolder
  | None => None
  end.

(** One removed id (lines 222-228). *)
Definition configDeletion (t : ObsidianGoogleDrive) (fileId : string)
    : option ConfigDeletion :=
  let path := driveIdToPath (settings t) !! fileId in
  let p := default EmptyString path in
  if negb (Js.truthy path) || isSome (getAbstractFileByPath (app t) p)
  then None
  else match adapter_stat (app t) p with
       | None => None
       | Some type => Some {| cd_path := p; cd_type := type |}
       end.

(** [configDeletions.filter(Boolean)] *)
Definition configDeletions (changes : list Change) (t : ObsidianGoogleDrive)
    : list ConfigDeletion :=
  omap (configDeletion t) (removedIds changes).

Definition is_folder (e : ConfigDeletion) : bool :=
  bool_decide (cd_type e = StatFolder).

Definition is_file (e : ConfigDeletion) : bool :=
  bool_decide (cd_type e = StatFile).

(** [deletionMethod]: [adapter.trashLocal] for ["local"], else
    [adapter.trashSystem]. *)
Definition trashEffect (trashMethod : string) (p : string) : Effect :=
  if String.eqb trashMethod "local" then TrashLocal p else TrashSystem p.

Definition deletionMethod (trashMethod : string) (p : string)
    (st : ObsidianGoogleDrive * list Effect)
    : ObsidianGoogleDrive * list Effect :=
  (set_app (set_adapter (disk_without p)) st.1,
   st.2 ++ [trashEffect trashMethod p]).

(** The filter of lines 265-269 for one trashed folder. *)
Definition outside (folder : string) (e : ConfigDeletion) : bool :=
  negb (under folder (cd_path e)) && negb (String.eqb (cd_path e) folder).

(** One round of the loop over depths (lines 253-271): the folders of that
    depth still listed are trashed, then they and what lies below them
    leave the list. *)
Definition trashDepth (trashMethod : string) (depth : nat)
    (st : list ConfigDeletion * (ObsidianGoogleDrive * list Effect))
    : list ConfigDeletion * (ObsidianGoogleDrive * list Effect) :=
  let foldersToDelete :=
    filter (λ e, is_folder e = true ∧ Js.segments (cd_path e) = depth) st.1 in
  (foldl (λ cur folder, filter (λ e, outside (cd_path folder) e = true) cur)
     st.1 foldersToDelete,
   foldl (λ s e, deletionMethod trashMethod (cd_path e) s) st.2 foldersToDelete).

(** Lines 238-277. *)
Definition trashConfigs (trashMethod : string) (cds : list ConfigDeletion)
    (t : ObsidianGoogleDrive) : ObsidianGoogleDrive * list Effect :=
  let folders := filter (λ e, is_folder e = true) cds in
  let maxDepth := max_list (Js.segments ∘ cd_path <$> folders) in
  let st :=
    if bool_decide (folders = []) then (cds, (t, []))
    else foldl (λ st depth, trashDepth trashMethod depth st)
           (cds, (t, [])) (seq 1 maxDepth) in
  foldl (λ s e, deletionMethod trashMethod (cd_path e) s) st.2 st.1.

(** [adapter.list(folder)] is not empty: something lies directly in the
    folder. *)
Definition has_entries (a : App) (folder : string) : bool :=
  existsb (λ k, under folder k
                && bool_decide (Js.segments k = S (Js.segments folder)))
    (elements (dom (adapter a))).

(** Lines 294-298.  The call of [adapter.rmdir] is not awaited; it is taken
    to have completed when the next batch lists its folders. *)
Definition rmdirIfEmpty (folder : string)
    (st : ObsidianGoogleDrive * list Effect)
    : ObsidianGoogleDrive * list Effect :=
  if has_entries (app st.1) folder then st
  else (set_app (set_adapter (delete folder)) st.1,
        st.2 ++ [AdapterRmdir folder]).

(** Lines 279-300. *)
Definition removeConfigs (cds : list ConfigDeletion) (t : ObsidianGoogleDrive)
    : ObsidianGoogleDrive * list Effect :=
  let deletedFiles := filter (λ e, is_file e = true) cds in
  let st :=
    foldl (λ s e, (set_app (set_adapter (delete (cd_path e))) s.1,
                   s.2 ++ [AdapterRemove (cd_path e)]))
      (t, []) deletedFiles in
  let deletedFolders := filter (λ e, is_folder e = true) cds in
  let batches := reverse (foldersToBatches id (cd_path <$> deletedFolders)) in
  foldl (λ s batch, foldl (λ s folder, rmdirIfEmpty folder s) s batch)
    st batches.

Definition deleteConfigs (changes : list Change) (t : ObsidianGoogleDrive)
    : ObsidianGoogleDrive * list Effect :=
  let configDeletionsFiltered := configDeletions changes t in
  let trashMethod := trashOption (app t) in
  if String.eqb trashMethod "local" || String.eqb trashMethod "system"
  then trashConfigs trashMethod configDeletionsFiltered t
  else removeConfigs configDeletionsFiltered t.

(** *** [startSync] and [endSync] ([main.ts]) *)

Definition not_connected : string :=
  "You are not connected to the internet, so you cannot sync right now. Please try syncing once you have connection again.".

(** [endSync]: the checkpoint moves to now and to a fresh token; without a
    token the sync flag stays up.  With [retainConfigChanges] the config
    files are rewritten with a fresh modification time.

    With [retainConfigChanges] the first thing a call does is to ask for the
    config files and to wait for the answer: [endSync_rest] is what happens
    from there on, which is the whole call when [retainConfigChanges] is
    off. *)
Definition endSync_rest (drive : Drive) (fires : Firing) (session : Session)
    (retainConfigChanges : bool) (t : ObsidianGoogleDrive)
    : ObsidianGoogleDrive * list Effect :=
  let t := set_checkpoint (now session) (changesToken (settings t)) t in
  let t :=
    if retainConfigChanges then
      foldl (λ t file,
               match adapter (app t) !! file with
               | Some (DiskFile content _) =>
                   adapter_writeBinary fires file content (Some (now session)) t
               | _ => t
               end)
        t (getConfigFilesToSync drive)
    else t in
  match getChangesStartToken drive with
  | None =>
      (t, [GetChangesStartToken;
           NewNotice "An error occurred fetching Google Drive changes token."])
  | Some token =>
      (set_syncing false (set_checkpoint (lastSyncedAt (settings t)) token t),
       [GetChangesStartToken; EndSync])
  end.

Definition endSync (drive : Drive) (fires : Firing) (session : Session)
    (retainConfigChanges : bool) (t : ObsidianGoogleDrive)
    : ObsidianGoogleDrive * list Effect :=
  let '(t, tr) := endSync_rest drive fires session retainConfigChanges t in
  (t, (if retainConfigChanges then [GetConfigFilesToSync] else []) ++ tr).

(** *** [pull]

    The third component of [pull_run] tells whether pull returns with a
    call of [endSync] still running.  That is the case on the exit of line
    83, where a manual pull that found nothing to do calls [t.endSync]
    without awaiting it: the call has asked for the config files and
    nothing more when pull returns.  [pull] is the plugin and the trace at
    the return; [pull_settled] is the plugin and the trace once a call left
    running has finished, nothing else having touched the plugin in
    between. *)
Definition pull_run (drive : Drive) (fires : Firing) (session : Session)
    (silenceNotices : bool) (t : ObsidianGoogleDrive)
    : ObsidianGoogleDrive * list Effect * bool :=
  if negb silenceNotices && syncing t then (t, [], false)
  else if negb silenceNotices && negb (connected session)
  then (t, [NewNotice not_connected], false)
  else
    let t := if silenceNotices then t else set_syncing true t in
    let search := SearchFiles (ModifiedAfter (lastSyncedAt (settings t))) in
    match searchRecentlyModified drive with
    | None =>
        (t, [search;
             NewNotice "An error occurred fetching Google Drive files. Check console for details."],
         false)
    | Some recentlyModified =>
        let recentHiddenFiles :=
          filter (λ f, lastSyncedAt (settings t) < modifiedTime f)
            (searchHiddenFiles drive) in
        let allRecentFiles := recentlyModified ++ recentHiddenFiles in
        let fetches :=
          [search; SearchHiddenFiles; GetChanges (changesToken (settings t))] in
        match getChanges drive with
        | None =>
            (t, fetches
                ++ [NewNotice "An error occurred fetching Google Drive changes."],
             false)
        | Some changes =>
            let '(t, removals) := deletions changes t in
            if bool_decide (allRecentFiles = []) && bool_decide (length removals = 0%nat)
            then
              if silenceNotices then (t, fetches, false)
              else
                (t, fetches
                    ++ [GetConfigFilesToSync; NewNotice "You're up to date!"],
                 true)
            else
              let pathToId :=
                updateMap allRecentFiles (invert (driveIdToPath (settings t))) in
              let t :=
                set_driveIdToPath (λ index, refreshedIndex index allRecentFiles)
                  t in
              let '(t, tr1) := deleteFiles fires pathToId removals t in
              let '(t, tr2) := upsertFiles (getFile drive) fires allRecentFiles t in
              let '(t, tr3) := deleteConfigs changes t in
              if silenceNotices then (t, fetches ++ tr1 ++ tr2 ++ tr3, false)
              else
                let '(t, tr4) := endSync drive fires session true t in
                (t, fetches ++ tr1 ++ tr2 ++ tr3 ++ tr4
                    ++ [NewNotice "Files have been synced from Google Drive!"],
                 false)
        end
    end.

Definition pull (drive : Drive) (fires : Firing) (session : Session)
    (silenceNotices : bool) (t : ObsidianGoogleDrive)
    : ObsidianGoogleDrive * list Effect :=
  (pull_run drive fires session silenceNotices t).1.

Definition pull_settled (drive : Drive) (fires : Firing) (session : Session)
    (silenceNotices : bool) (t : ObsidianGoogleDrive)
    : ObsidianGoogleDrive * list Effect :=
  let '(t, tr, running) := pull_run drive fires session silenceNotices t in
  if running : bool then
    let '(t, tr') := endSync_rest drive fires session true t in
    (t, tr ++ tr')
  else (t, tr).

(** ** Push ([helpers/push.ts]) *)

(** [Object.entries(t.settings.operations)].  A JavaScript object lists its
    keys in insertion order, which the map does not record; the entries
    come in the order of the map's enumeration. *)
Definition entries (ops : Operations) : list (string * option Operation) :=
  map_to_list ops.

(** The paths of the entries with a given operation, as in
    [finalOperations.filter(([_, op]) => op === ...)]. *)
Definition paths_with (o : Operation) (es : list (string * option Operation))
    : list string :=
  fst <$> filter (λ e, e.2 = Some o) es.

(** *** The scan for hidden local files (lines 316-361), before the
    confirmation dialog *)
Definition hiddenLocalFiles (allLocalFiles : list string) : list string :=
  filter (λ p, Js.startsWith (Js.lastSegment p) "." = true
               ∧ shouldSyncFile p = true) allLocalFiles.

Definition drivePath (p : string) (driveFile : FileMetadata) : bool :=
  bool_decide (properties_path driveFile = Some p).

Definition trackHidden (hiddenFiles : list FileMetadata)
    (t : ObsidianGoogleDrive) (p : string) : ObsidianGoogleDrive :=
  if isSome (Ops.get (operations (settings t)) p) then t
  else
    match getAbstractFileByPath (app t) p with
    | None => t
    | Some file =>
        let existsInDrive := existsb (drivePath p) hiddenFiles in
        if negb existsInDrive
        then set_operations (Ops.write p (Some OpCreate)) t
        else
          match List.find (drivePath p) hiddenFiles, file with
          | Some driveFile, TFile _ localMtime =>
              if modifiedTime driveFile <? localMtime
              then set_operations (Ops.write p (Some OpModify)) t
              else t
          | _, _ => t
          end
    end.

Definition hiddenScan (hiddenFiles : list FileMetadata)
    (allLocalFiles : list string) (t : ObsidianGoogleDrive)
    : ObsidianGoogleDrive :=
  foldl (trackHidden hiddenFiles) t (hiddenLocalFiles allLocalFiles).

(** *** The delete phase (lines 403-411)

    [None] in the first component: push returned inside the phase. *)
Definition deletePhase (drive : Drive) (pathsToIds : gmap string string)
    (deletes : list string) (t : ObsidianGoogleDrive)
    : option ObsidianGoogleDrive * list Effect :=
  if bool_decide (deletes = []) then (Some t, [])
  else
    let ids := (λ p, pathsToIds !! p) <$> deletes in
    if negb (batchDelete drive ids)
    then (None, [BatchDelete ids;
                 NewNotice "An error occurred deleting Google Drive files."])
    else
      (Some (set_driveIdToPath (λ m, foldl (λ m p, delete p m) m deletes) t),
       [BatchDelete ids]).

(** *** The create phase (lines 415-484) *)

(** [folder.split("/").slice(0, -1).join("/")] *)
Definition dirname (p : string) : string :=
  Js.join "/" (removelast (Js.split "/" p)).

(** [file.parent.path]: the path of the folder a vault entry sits in, the
    root being ["/"]. *)
Definition parent_path (p : string) : string :=
  if String.eqb (dirname p) EmptyString then "/" else dirname p.

(** The state the three upload phases thread: the plugin and the local map
    [pathsToIds]. *)
Abbreviation PushState := (ObsidianGoogleDrive * gmap string string)%type.

Definition record_id (id p : string) (local : bool) (s : PushState)
    : PushState :=
  (set_driveIdToPath (insert id p) s.1,
   if local then <[p := id]> s.2 else s.2).

Definition createRemoteFolder (drive : Drive) (config : bool)
    (parent : string) (p : string) (s : PushState)
    : PushState * list Effect :=
  let call := DriveCreateFolder p (s.2 !! parent) config in
  match drive_createFolder drive p with
  | None =>
      (s, [call; NewNotice "An error occurred creating Google Drive folders."])
  | Some id => (record_id id p true s, [call])
  end.

Definition uploadNote (drive : Drive) (p : string) (s : PushState)
    : PushState * list Effect :=
  let call := UploadFile p (s.2 !! parent_path p) false in
  match uploadFile drive p with
  | None =>
      (s, [call; NewNotice "An error occurred creating Google Drive files."])
  | Some id => (record_id id p false s, [call])
  end.

Definition createPhase (drive : Drive) (creates : list string) (s : PushState)
    : PushState * list Effect :=
  let files := omap (getAbstractFileByPath (app s.1)) creates in
  let folders := filter (λ f, isTFolder f = true) files in
  let batches := foldersToBatches path folders in
  let '(s, tr1) :=
    map_state (λ f, createRemoteFolder drive false (parent_path (path f)) (path f))
      (concat batches) s in
  let notes := filter (λ f, isTFile f = true) files in
  let '(s, tr2) := map_state (λ f, uploadNote drive (path f)) notes s in
  (s, concat tr1 ++ concat tr2).

(** *** The modify phase (lines 486-519) *)
Definition modifyPhase (drive : Drive) (modifies : list string)
    (t : ObsidianGoogleDrive) : list Effect :=
  let files := omap (getFileByPath (app t)) modifies in
  let pathToId := invert (driveIdToPath (settings t)) in
  concat
    ((λ f, if updateFile drive (pathToId !! path f) (path f)
           then [UpdateFile (pathToId !! path f) (path f)]
           else [UpdateFile (pathToId !! path f) (path f);
                 NewNotice "An error occurred modifying Google Drive files."])
       <$> files).

(** *** Config objects (lines 521-597) *)

(** [parts.slice(0, i).join("/")] for [i] from 1 below the number of
    parts: the folders above a path. *)
Definition ancestors (p : string) : list string :=
  let parts := Js.split "/" p in
  (λ i, Js.join "/" (take i parts)) <$> seq 1 (length parts - 1).

Definition foldersToCreate (configFilesToSync : list string)
    (pathsToIds : gmap string string) : list string :=
  filter (λ folder, Js.truthy_at pathsToIds folder = false)
    (remove_dups (concat (ancestors <$> configFilesToSync))).

Definition syncConfigFile (drive : Drive) (p : string) (s : PushState)
    : PushState * list Effect :=
  if Js.truthy_at s.2 p
  then (s, [UpdateFile (s.2 !! p) p])
  else
    let call := UploadFile p (s.2 !! dirname p) true in
    match uploadFile drive p with
    | None =>
        (s, [call;
             NewNotice "An error occurred creating Google Drive config files."])
    | Some id => (record_id id p true s, [call])
    end.

Definition configPhase (drive : Drive) (s : PushState)
    : PushState * list Effect :=
  let configFilesToSync := getConfigFilesToSync drive in
  let batches :=
    foldersToBatches id (foldersToCreate configFilesToSync s.2) in
  let '(s, tr1) :=
    map_state (λ folder, createRemoteFolder drive true (dirname folder) folder)
      (concat batches) s in
  let '(s, tr2) := map_state (syncConfigFile drive) configFilesToSync s in
  (s, GetConfigFilesToSync :: concat tr1 ++ concat tr2).

(** [vault.configDir + "/plugins/google-drive-sync/data.json"], for the
    default config directory. *)
Definition settingsFile : string :=
  ".obsidian/plugins/google-drive-sync/data.json".

(** *** [push]

    [push_from_pull] is push from line 377 on, after the silent pull. *)
Definition deleteSet (configOnDrive : list string) (t : ObsidianGoogleDrive)
    : list string :=
  paths_with OpDelete (entries (operations (settings t)))
  ++ filter (λ p, adapter_exists (app t) p = false) configOnDrive.

Definition push_from_pull (drive : Drive) (fires : Firing) (session : Session)
    (t : ObsidianGoogleDrive) : ObsidianGoogleDrive * list Effect :=
  let finalOperations := entries (operations (settings t)) in
  let creates := paths_with OpCreate finalOperations in
  let modifies := paths_with OpModify finalOperations in
  let pathsToIds := invert (driveIdToPath (settings t)) in
  match searchConfigPaths drive with
  | None =>
      (t, [SearchFiles ConfigObjects;
           NewNotice "An error occurred fetching Google Drive files."])
  | Some configOnDrive =>
      let deletes := deleteSet configOnDrive t in
      match deletePhase drive pathsToIds deletes t with
      | (None, tr1) => (t, SearchFiles ConfigObjects :: tr1)
      | (Some t, tr1) =>
          let '((t, pathsToIds), tr2) :=
            createPhase drive creates (t, pathsToIds) in
          let tr3 := modifyPhase drive modifies t in
          let '((t, pathsToIds), tr4) := configPhase drive (t, pathsToIds) in
          let tr5 :=
            [UpdateSettingsFile (pathsToIds !! settingsFile) (settings t)] in
          let t := set_operations (λ _, ∅) t in
          let '(t, tr6) := endSync drive fires session false t in
          (t, SearchFiles ConfigObjects
              :: tr1 ++ tr2 ++ tr3 ++ tr4 ++ tr5 ++ tr6
              ++ [NewNotice "Sync complete!"])
      end
  end.

(** The plugin when the confirmation dialog opens. *)
Definition scanned (drive : Drive) (session : Session)
    (t : ObsidianGoogleDrive) : ObsidianGoogleDrive :=
  hiddenScan (searchHiddenFiles drive) (allLocalFiles session) t.

(** The confirmation dialog on the scanned log: the plugin as the reverts
    the user confirmed leave it, and what they called. *)
Definition dialog (drive : Drive) (session : Session)
    (t : ObsidianGoogleDrive) : ObsidianGoogleDrive * list UndoCall :=
  reverts session (scanned drive session t).

(** The plugin as the confirmation dialog leaves it. *)
Definition offered (drive : Drive) (session : Session)
    (t : ObsidianGoogleDrive) : ObsidianGoogleDrive :=
  (dialog drive session t).1.

(** Push up to the moment the dialog closes (lines 302-371). *)
Definition opening (drive : Drive) (session : Session)
    (t : ObsidianGoogleDrive) : list Effect :=
  GetRootFolderId :: SearchHiddenFiles
  :: (undo_effect <$> (dialog drive session t).2).

Definition push (drive : Drive) (fires : Firing) (session : Session)
    (t : ObsidianGoogleDrive) : ObsidianGoogleDrive * list Effect :=
  if syncing t then (t, [])
  else
    let tr0 := opening drive session t in
    let t := offered drive session t in
    if negb (proceed session) then (t, tr0)
    else if negb (connected session)
    then (t, tr0 ++ [NewNotice not_connected])
    else
      let t := set_syncing true t in
      let '(t, tr1) := pull drive fires session true t in
      let '(t, tr2) := push_from_pull drive fires session t in
      (t, tr0 ++ tr1 ++ tr2).

(** * The specification side *)

(** ** The transition table of the Operation Log, as the specification
    words it (section 4.1)

    States per path: none ([None]), create, modify, delete.  The table is
    written from the specification, row by row, to be compared with the
    handlers; where it has no row for an event and a state the result is
    [None]. *)
Inductive LocalEvent :=
| CreateEvent (file_typed : bool)
| DeleteEvent
| ModifyEvent.

Definition table_step (e : LocalEvent) (s : option Operation)
    : option (option Operation) :=
  match e, s with
  | CreateEvent file_typed, Some OpDelete =>
      Some (if file_typed then Some OpModify else None)
  | CreateEvent _, None => Some (Some OpCreate)
  | CreateEvent _, Some _ => None
  | DeleteEvent, Some OpCreate => Some None
  | DeleteEvent, _ => Some (Some OpDelete)
  | ModifyEvent, Some OpCreate => Some (Some OpCreate)
  | ModifyEvent, Some OpModify => Some (Some OpModify)
  | ModifyEvent, _ => Some (Some OpModify)
  end.

Fixpoint table_replay (es : list LocalEvent) (s : option Operation)
    : option (option Operation) :=
  match es with
  | [] => Some s
  | e :: es' =>
      match table_step e s with
      | Some s' => table_replay es' s'
      | None => None
      end
  end.

(** The table completed where it has no row, for a create event on a
    pending [create] or [modify]: the entry is [create] afterwards. *)
Definition table_completed (e : LocalEvent) (s : option Operation)
    : option Operation :=
  default (Some OpCreate) (table_step e s).

(** The table's view of a vault event. *)
Definition local_event (e : VaultEvent) : LocalEvent :=
  match e with
  | OnCreate f => CreateEvent (isTFile f)
  | OnDelete _ => DeleteEvent
  | OnModify _ => ModifyEvent
  end.

(** ** Notions the statements use *)

(** What one event does to the entry of its own path: the step function
    read off the three handlers, total where the table is not. *)
Definition handler_step (e : LocalEvent) (s : option Operation)
    : option Operation :=
  match e, s with
  | CreateEvent true, Some OpDelete => Some OpModify
  | CreateEvent false, Some OpDelete => None
  | CreateEvent _, _ => Some OpCreate
  | DeleteEvent, Some OpCreate => None
  | DeleteEvent, _ => Some OpDelete
  | ModifyEvent, Some OpCreate => Some OpCreate
  | ModifyEvent, Some OpModify => Some OpModify
  | ModifyEvent, _ => Some OpModify
  end.

(** The events of a vault write concern the written path only. *)
Definition fires_written_path (fires : Firing) : Prop :=
  ∀ a c e, e ∈ fires a c → path (event_file e) = call_path c.

(** [t'] has under [p] the log entry, the vault entry and the disk entry
    that [t] has. *)
Definition same_at (p : string) (t t' : ObsidianGoogleDrive) : Prop :=
  operations (settings t') !! p = operations (settings t) !! p
  ∧ vault (app t') !! p = vault (app t) !! p
  ∧ adapter (app t') !! p = adapter (app t) !! p.

(** [x] is issued before [y] in a trace. *)
Definition issued_before (x y : Effect) (tr : list Effect) : Prop :=
  ∃ l1 l2 l3, tr = l1 ++ x :: l2 ++ y :: l3.

(** The paths handed to [adapter.rmdir], in the order of the calls. *)
Definition rmdirs (tr : list Effect) : list string :=
  omap (λ e, match e with AdapterRmdir p => Some p | _ => None end) tr.

(** The paths handed to the trash, in the order of the calls. *)
Definition trashed (tr : list Effect) : list string :=
  omap (λ e, match e with
             | TrashLocal p | TrashSystem p => Some p
             | _ => None
             end) tr.

(** [x] has at least as many segments as [y]. *)
Definition deeper (x y : string) : Prop :=
  (Js.segments y ≤ Js.segments x)%nat.

(** The Sync Checkpoint: (last-synced timestamp, change token). *)
Definition checkpoint (t : ObsidianGoogleDrive) : Z * string :=
  (lastSyncedAt (settings t), changesToken (settings t)).

(** The calls that change the remote store: they ask Drive to delete, to
    create or to update an object.  [getRootFolderId] is not among them: it
    makes sure of the root folder before anything else (section 4.3, step
    1, an idempotent lazy initialisation; [helpers/drive.ts] is missing). *)
Definition remote_write (e : Effect) : bool :=
  match e with
  | BatchDelete _ | DriveCreateFolder _ _ _ | UploadFile _ _ _
  | UpdateFile _ _ | UpdateSettingsFile _ _ => true
  | _ => false
  end.

(** What the scan over the hidden files [ps] may have done to the entry of
    [q]: nothing, or [q] is one of [ps] and its empty entry has been filled
    with [create] or [modify]. *)
Definition scan_entry (ps : list string) (t t' : ObsidianGoogleDrive)
    (q : string) : Prop :=
  operations (settings t') !! q = operations (settings t) !! q
  ∨ (operation t q = None
     ∧ q ∈ ps
     ∧ (operations (settings t') !! q = Some (Some OpCreate)
        ∨ operations (settings t') !! q = Some (Some OpModify))).

(** A confirmed push when its silent pull returns: the plugin and the
    trace of the pull. *)
Definition pulled (drive : Drive) (fires : Firing) (session : Session)
    (t : ObsidianGoogleDrive) : ObsidianGoogleDrive * list Effect :=
  pull drive fires session true (set_syncing true (offered drive session t)).

(** The ids handed to the batch remote-delete (line 405). *)
Definition deleteIds (deletes : list string) (t : ObsidianGoogleDrive)
    : list (option string) :=
  (λ p, invert (driveIdToPath (settings t)) !! p) <$> deletes.

(** ** Invariants of the loops *)

(** The three situations of a removed id [id] of path [p] whose file is gone
    locally: still to be resolved with the [delete] pending, still to be
    resolved with the log already clear, resolved. *)
Definition pending (id p : string) (t : ObsidianGoogleDrive) : Prop :=
  driveIdToPath (settings t) !! id = Some p
  ∧ operations (settings t) !! p = Some (Some OpDelete).

Definition cleared (id p : string) (t : ObsidianGoogleDrive) : Prop :=
  driveIdToPath (settings t) !! id = Some p
  ∧ operations (settings t) !! p = None.

Definition resolved (id p : string) (t : ObsidianGoogleDrive) : Prop :=
  driveIdToPath (settings t) !! id = None
  ∧ operations (settings t) !! p = None.

Definition gone (p : string) (t : ObsidianGoogleDrive) : Prop :=
  getAbstractFileByPath (app t) p = None.

(** [x] is one of the folders [R] or lies below one. *)
Definition covered (R : list string) (x : string) : Prop :=
  ∃ f, f ∈ R ∧ (x = f ∨ under f x = true).

(** What holds of the loop over depths once the depths up to [k] are done,
    [R] being the folders trashed so far: the list holds the entries of
    [cds] that [R] does not cover, every folder entry of depth at most [k]
    is covered, and nothing that was trashed lies below a folder entry. *)
Definition trash_inv (cds : list ConfigDeletion) (k : nat)
    (st : list ConfigDeletion * (ObsidianGoogleDrive * list Effect)) : Prop :=
  ∃ R : list string,
    (∀ e, e ∈ st.1 → ¬ covered R (cd_path e))
    ∧ (∀ e, e ∈ cds → e ∈ st.1 ∨ covered R (cd_path e))
    ∧ (∀ a, a ∈ cds → is_folder a = true →
            (Js.segments (cd_path a) ≤ k)%nat → covered R (cd_path a))
    ∧ (∀ x a, x ∈ trashed st.2.2 → a ∈ cds → is_folder a = true →
              under (cd_path a) x = false).

(** A step that keeps the checkpoint at [c] and has called nothing that
    changes the remote store. *)
Definition kept (c : Z * string) (s : ObsidianGoogleDrive * list Effect)
    : Prop :=
  checkpoint s.1 = c ∧ Forall (λ e, remote_write e = false) s.2.

(** ** States for the examples *)

(** A plugin in the middle of a sync with the given log, index, vault and
    disk. *)
Definition plugin_of (ops : Operations) (index : gmap string string)
    (v : gmap string VaultEntry) (disk : gmap string DiskEntry)
    : ObsidianGoogleDrive :=
  {| settings :=
       {| refreshToken := "refresh"; operations := ops;
          driveIdToPath := index; lastSyncedAt := 0;
          changesToken := "page-1" |};
     syncing := true;
     app := {| vault := v; adapter := disk; trashOption := "local" |} |}.

(** A folder [F] with one note, both removed remotely. *)
Definition note_a : TAbstractFile := TFile "F/a.md" 0.
Definition folder_F : TAbstractFile := TFolder "F" [note_a].
Definition removed_F : list (option TAbstractFile) :=
  [Some folder_F; Some note_a].

(** A folder [G] removed remotely that holds a note the removal set does
    not mention. *)
Definition note_keep : TAbstractFile := TFile "G/keep.md" 0.
Definition folder_G : TAbstractFile := TFolder "G" [note_keep].
Definition removed_G : list (option TAbstractFile) := [Some folder_G].

(** A remote note and a Drive that serves one byte for every id. *)
Definition remote_note : FileMetadata :=
  {| file_id := "id1"; mimeType := "text/markdown";
     properties_path := Some "n.md"; modifiedTime := 5 |}.

Definition one_byte : string → ArrayBuffer := λ _, [Byte.x41].

(** Two internal folders, one inside the other, both removed remotely and
    both still on disk; the vault's trash option is ["local"]. *)
Definition config_changes : list Change :=
  [ {| fileId := "i1"; removed := true |};
    {| fileId := "i2"; removed := true |} ].

Definition config_plugin : ObsidianGoogleDrive :=
  plugin_of ∅ {["i1" := ".x"; "i2" := ".x/y"]} ∅
    {[".x" := DiskFolder; ".x/y" := DiskFolder]}.

(** The same with permanent removal as the vault's trash option. *)
Definition config_plugin_permanent : ObsidianGoogleDrive :=
  set_app (λ a, {| vault := vault a; adapter := adapter a;
                   trashOption := "none" |}) config_plugin.

Definition folder_x : ConfigDeletion :=
  {| cd_path := ".x"; cd_type := StatFolder |}.

Definition folder_xy : ConfigDeletion :=
  {| cd_path := ".x/y"; cd_type := StatFolder |}.

(** A Drive that is empty and answers every call with success, and a
    session with one hidden note in the vault. *)
Definition empty_drive : Drive :=
  {| getFile := λ _, [];
     searchHiddenFiles := [];
     searchRecentlyModified := Some [];
     getChanges := Some [];
     searchConfigPaths := Some [];
     batchDelete := λ _, true;
     drive_createFolder := λ p, Some ("id:" +:+ p);
     uploadFile := λ p, Some ("id:" +:+ p);
     updateFile := λ _ _, true;
     getConfigFilesToSync := [];
     getChangesStartToken := Some "page-2" |}.

Definition hidden_session (proceed : bool) : Session :=
  {| allLocalFiles := [".hidden.md"];
     reverts := λ t, (t, []);
     proceed := proceed;
     connected := true;
     now := 100 |}.

Definition hidden_plugin : ObsidianGoogleDrive :=
  set_syncing false (plugin_of ∅ ∅ {[".hidden.md" := VaultFile 3]} ∅).

(** A note deleted locally and known to Drive as [id1]; a Drive like
    [empty_drive] whose batch delete answers as given. *)
Definition deleting_plugin : ObsidianGoogleDrive :=
  set_syncing false
    (plugin_of {["a.md" := Some OpDelete]} {["id1" := "a.md"]} ∅ ∅).

Definition deleting_drive (ok : bool) : Drive :=
  {| getFile := λ _, [];
     searchHiddenFiles := [];
     searchRecentlyModified := Some [];
     getChanges := Some [];
     searchConfigPaths := Some [];
     batchDelete := λ _, ok;
     drive_createFolder := λ p, Some ("id:" +:+ p);
     uploadFile := λ p, Some ("id:" +:+ p);
     updateFile := λ _ _, true;
     getConfigFilesToSync := [];
     getChangesStartToken := Some "page-2" |}.

Definition plain_session : Session :=
  {| allLocalFiles := [];
     reverts := λ t, (t, []);
     proceed := true;
     connected := true;
     now := 100 |}.




Definition draft_session : Session :=
  {| allLocalFiles := [".draft.md"];
     reverts := λ t, (t, []);
     proceed := true;
     connected := true;
     now := 100 |}.

(** ** Notions of the further properties *)

(** The local path a call of the internal/config removal phase disposes
    of. *)
Definition disposed (e : Effect) : option string :=
  match e with
  | TrashLocal p | TrashSystem p | AdapterRemove p | AdapterRmdir p => Some p
  | _ => None
  end.

(** A remote folder that was modified recently. *)
Definition remote_folder (p : string) : FileMetadata :=
  {| file_id := "idF"; mimeType := folderMimeType;
     properties_path := Some p; modifiedTime := 5 |}.

(** A Drive like [empty_drive] whose change feed reports the id [i1] as
    removed. *)
Definition removing_drive : Drive :=
  {| getFile := λ _, [];
     searchHiddenFiles := [];
     searchRecentlyModified := Some [];
     getChanges := Some [ {| fileId := "i1"; removed := true |} ];
     searchConfigPaths := Some [];
     batchDelete := λ _, true;
     drive_createFolder := λ p, Some ("id:" +:+ p);
     uploadFile := λ p, Some ("id:" +:+ p);
     updateFile := λ _ _, true;
     getConfigFilesToSync := [];
     getChangesStartToken := Some "page-2" |}.

(** A Drive that cannot be reached: every fetch answers with its failure
    sentinel. *)
Definition failing_drive : Drive :=
  {| getFile := λ _, [];
     searchHiddenFiles := [];
     searchRecentlyModified := None;
     getChanges := None;
     searchConfigPaths := None;
     batchDelete := λ _, false;
     drive_createFolder := λ _, None;
     uploadFile := λ _, None;
     updateFile := λ _ _, false;
     getConfigFilesToSync := [];
     getChangesStartToken := None |}.

(** The path a call of push's create phase creates on the remote side: a
    folder or a file that is not a config object. *)
Definition remote_created (e : Effect) : option string :=
  match e with
  | DriveCreateFolder p _ false | UploadFile p _ false => Some p
  | _ => None
  end.

(** The path a call updates on the remote side. *)
Definition remote_updated (e : Effect) : option string :=
  match e with
  | UpdateFile _ p => Some p
  | _ => None
  end.

(** A Drive that answers the searches and hands out a start token but
    refuses every upload. *)
Definition refusing_drive : Drive :=
  {| getFile := λ _, [];
     searchHiddenFiles := [];
     searchRecentlyModified := Some [];
     getChanges := Some [];
     searchConfigPaths := Some [];
     batchDelete := λ _, true;
     drive_createFolder := λ _, None;
     uploadFile := λ _, None;
     updateFile := λ _ _, false;
     getConfigFilesToSync := [];
     getChangesStartToken := Some "page-2" |}.

(** The delete phase lets push go on: there is nothing to delete, or the
    batch delete succeeds. *)
Definition delete_phase_passes (drive : Drive) (configOnDrive : list string)
    (t : ObsidianGoogleDrive) : Prop :=
  deleteSet configOnDrive t = []
  ∨ batchDelete drive (deleteIds (deleteSet configOnDrive t) t) = true.

(** ** Start-up ([main.ts], [onload], lines 354-412)

    After the settings are loaded and the handlers and commands are
    registered, a plugin with a refresh token and a connection raises the
    sync flag, pulls silently and calls [endSync] with its defaults. *)
Definition no_refresh_token : string :=
  "Please add your refresh token to Google Drive Sync through our website or our readme/this plugin's settings. If you haven't already, PLEASE read through this plugin's readme or website CAREFULLY for instructions on how to use this plugin. If you don't know what you're doing, your data could get DELETED.".

Definition onload (drive : Drive) (fires : Firing) (session : Session)
    (t : ObsidianGoogleDrive) : ObsidianGoogleDrive * list Effect :=
  if negb (Js.truthy (Some (refreshToken (settings t))))
  then (t, [NewNotice no_refresh_token])
  else if connected session then
    let t := set_syncing true t in
    let '(t, tr1) := pull drive fires session true t in
    let '(t, tr2) := endSync drive fires session true t in
    (t, tr1 ++ tr2)
  else (t, []).

(** A Drive whose search for recent files fails while the rest answers. *)
Definition flaky_drive : Drive :=
  {| getFile := λ _, [];
     searchHiddenFiles := [];
     searchRecentlyModified := None;
     getChanges := Some [];
     searchConfigPaths := Some [];
     batchDelete := λ _, true;
     drive_createFolder := λ p, Some ("id:" +:+ p);
     uploadFile := λ p, Some ("id:" +:+ p);
     updateFile := λ _ _, true;
     getConfigFilesToSync := [];
     getChangesStartToken := Some "page-2" |}.

(** ** The confirmation dialog ([helpers/push.ts], lines 39-294 and
    363-365)

    A row of the dialog is a pair [[path, op]] of the log. *)
Abbreviation Row := (string * option Operation)%type.

(** [([a], [b]) => (a < b ? -1 : a > b ? 1 : 0)]: strings compare by their
    code units, left to right. *)
Definition alphabetical (a b : Row) : Prop := String.leb a.1 b.1 = true.

Global Instance alphabetical_dec : RelDecision alphabetical.
Proof. intros a b. unfold alphabetical. apply _. Defined.

(** [allOperations.sort(...)].  The keys of an object are pairwise
    different, so there is one sorted arrangement of its entries. *)
Definition initialOperations (t : ObsidianGoogleDrive) : list Row :=
  merge_sort alphabetical (entries (operations (settings t))).

(** Whether [render] gives a row its revert button (lines 92-97). *)
Definition revertButton (operations : list Row) (row : Row) : bool :=
  negb (bool_decide (row.2 = Some OpDelete)
        && existsb (λ r : Row, Js.startsWith row.1 (r.1 +:+ "/")) operations).

(** Lines 102-107: the listed paths that are the clicked path or lie below
    it. *)
Definition nestedFiles (operations : list Row) (path : string)
    : list string :=
  filter (λ file, Js.startsWith file (path +:+ "/") = true ∨ file = path)
    (fst <$> operations).

(** Lines 119-126, after the undo dialog resolved with [true]: the nested
    paths leave the log and the list; with no row left the dialog closes,
    which resolves the confirmation with [false] ([None]). *)
Definition forgetNested (operations : list Row) (path : string)
    (t : ObsidianGoogleDrive) : ObsidianGoogleDrive * option (list Row) :=
  let nested := nestedFiles operations path in
  let t :=
    set_operations (λ ops, foldl (λ o file, Ops.remove file o) ops nested) t in
  let newOperations := filter (λ r : Row, r.1 ∉ nested) operations in
  (t, if bool_decide (newOperations = []) then None else Some newOperations).

(** [ConfirmUndoModal.handleCreate] (lines 275-279), called with
    [files[0]]. *)
Definition undoCreate (fires : Firing) (first : option string)
    (t : ObsidianGoogleDrive) : ObsidianGoogleDrive * list Effect :=
  match first ≫= getAbstractFileByPath (app t) with
  | None => (t, [])
  | Some file => (deleteFile fires file t, [CallDeleteFile (path file)])
  end.

(** What Drive answers to the two requests of an undone modification, for
    the id [filePathToId[path]]: the content and the metadata, [None] for
    a falsy answer. *)
Record UndoAnswers := {
  onlineFile : option string → option ArrayBuffer;
  metadata : option string → option FileMetadata;
}.

(** [ConfirmUndoModal.handleModify] (lines 281-293), called with
    [files[0]]. *)
Definition undoModify (answers : UndoAnswers) (fires : Firing)
    (first : option string) (t : ObsidianGoogleDrive)
    : ObsidianGoogleDrive * list Effect :=
  match first ≫= getFileByPath (app t) with
  | None => (t, [])
  | Some file =>
      let id := first ≫= (invert (driveIdToPath (settings t)) !!.) in
      match onlineFile answers id, metadata answers id with
      | Some content, Some m =>
          (modifyFile fires file content (Some (modifiedTime m)) t,
           [GetFile id; GetFileMetadata id; CallModifyFile (path file)])
      | _, _ =>
          (t, [GetFile id; GetFileMetadata id;
               NewNotice "An error occurred fetching Google Drive files."])
      end
  end.

(** A click on the revert button of a [create] resp. [modify] row, the undo
    confirmed (lines 100-127 with lines 208-216). *)
Definition revertCreate (fires : Firing) (operations : list Row)
    (path : string) (t : ObsidianGoogleDrive)
    : (ObsidianGoogleDrive * option (list Row)) * list Effect :=
  let '(t, tr) := undoCreate fires (head (nestedFiles operations path)) t in
  (forgetNested operations path t, tr).

Definition revertModify (answers : UndoAnswers) (fires : Firing)
    (operations : list Row) (path : string) (t : ObsidianGoogleDrive)
    : (ObsidianGoogleDrive * option (list Row)) * list Effect :=
  let '(t, tr) :=
    undoModify answers fires (head (nestedFiles operations path)) t in
  (forgetNested operations path t, tr).

(** A plugin with a created folder and a created note in it, and the
    answers of a Drive that cannot serve an undo. *)
Definition created_plugin : ObsidianGoogleDrive :=
  set_syncing false
    (plugin_of {["F" := Some OpCreate; "F/a.md" := Some OpCreate]} ∅
       {["F" := VaultFolder [note_a]; "F/a.md" := VaultFile 0]}
       {["F" := DiskFolder; "F/a.md" := DiskFile [] None]}).

Definition no_answers : UndoAnswers :=
  {| onlineFile := λ _, None; metadata := λ _, None |}.

(** * Theorems *)

(** ** The Operation Log under the event handlers *)

Section handlers.
Implicit Types (ops : Operations) (f : TAbstractFile) (p : string).

(** An assignment stores its value, except under the name ["__proto__"] on
    an object that has no own key of that name. *)
Lemma write_insert p v ops :
  p ≠ "__proto__" ∨ is_Some (ops !! p) → Ops.write p v ops = <[p := v]> ops.
Proof.
  intros H. unfold Ops.write.
  destruct (String.eqb p "__proto__") eqn:Hp; [|done].
  apply String.eqb_eq in Hp.
  destruct H as [H|[x H]]; [done|]. simpl.
  rewrite bool_decide_eq_false_2; [done|]. by rewrite H.
Qed.

Lemma write_proto v ops :
  ops !! "__proto__" = None → Ops.write "__proto__" v ops = ops.
Proof. intros H. unfold Ops.write. simpl. by rewrite bool_decide_eq_true_2. Qed.

Lemma write_lookup_ne p q v ops :
  p ≠ q → Ops.write p v ops !! q = ops !! q.
Proof.
  intros. unfold Ops.write. case_match; [done|]. by rewrite lookup_insert_ne.
Qed.

Lemma write_lookup p v ops :
  p ≠ "__proto__" ∨ is_Some (ops !! p) → Ops.write p v ops !! p = Some v.
Proof. intros H. rewrite write_insert by done. apply lookup_insert_eq. Qed.

Lemma read_write p v ops :
  p ≠ "__proto__" ∨ is_Some (ops !! p) → Ops.read (Ops.write p v ops) p = v.
Proof. intros H. unfold Ops.read. by rewrite write_lookup. Qed.

Lemma read_write_ne p q v ops :
  p ≠ q → Ops.read (Ops.write p v ops) q = Ops.read ops q.
Proof. intros. unfold Ops.read. by rewrite write_lookup_ne. Qed.


Lemma read_remove p ops : Ops.read (Ops.remove p ops) p = None.
Proof. unfold Ops.read, Ops.remove. by rewrite lookup_delete_eq. Qed.

Lemma read_remove_ne p q ops :
  p ≠ q → Ops.read (Ops.remove p ops) q = Ops.read ops q.
Proof. intros. unfold Ops.read, Ops.remove. by rewrite lookup_delete_ne. Qed.

Lemma read_stored ops p :
  ops !! p ≠ Some None → ops !! p = Some <$> Ops.read ops p.
Proof. unfold Ops.read. by destruct (ops !! p) as [[|]|]. Qed.

Lemma dispatch_lookup e ops :
  shouldSyncFile (path (event_file e)) = true →
  path (event_file e) ≠ "__proto__" ∨ is_Some (ops !! path (event_file e)) →
  ops !! path (event_file e) ≠ Some None →
  dispatch e ops !! path (event_file e)
  = Some <$> handler_step (local_event e) (Ops.read ops (path (event_file e))).
Proof.
  intros Hsync Hown Hwf.
  destruct e as [f|f|f]; simpl in *;
    unfold handleCreate, handleDelete, handleModify, Ops.holds;
    rewrite Hsync;
    destruct (Ops.read ops (path f)) as [[]|] eqn:Hr;
    repeat (case_bool_decide; simplify_eq/=);
    unfold Ops.remove;
    rewrite ?write_lookup, ?lookup_delete_eq by done; try done;
    try (destruct (isTFile f);
         by rewrite ?write_lookup, ?lookup_delete_eq by done);
    rewrite (read_stored _ _ Hwf), Hr; done.
Qed.

(** The handlers store nothing under the name ["__proto__"] on a log without
    an own key of that name: their assignments reach the accessor. *)
Lemma dispatch_proto e ops :
  path (event_file e) = "__proto__" → ops !! "__proto__" = None →
  dispatch e ops = ops.
Proof.
  intros Hp Hnone.
  assert (Ops.read ops "__proto__" = None) as Hr
    by (unfold Ops.read; by rewrite Hnone).
  destruct e as [f|f|f]; simpl in *;
    unfold handleCreate, handleDelete, handleModify, Ops.holds;
    rewrite Hp, Hr; simpl; rewrite ?write_proto by done;
    by repeat case_match.
Qed.

Lemma dispatch_lookup_ne e ops p :
  path (event_file e) ≠ p → dispatch e ops !! p = ops !! p.
Proof.
  intros Hne.
  destruct e as [f|f|f]; simpl in *;
    unfold handleCreate, handleDelete, handleModify, Ops.remove;
    repeat case_match; by rewrite ?write_lookup_ne, ?lookup_delete_ne.
Qed.

Lemma dispatch_excluded e ops :
  shouldSyncFile (path (event_file e)) = false → dispatch e ops = ops.
Proof.
  intros Hx. destruct e; simpl in *;
    unfold handleCreate, handleDelete, handleModify; by rewrite Hx.
Qed.

(** The handlers never leave [undefined] under a key. *)
Lemma dispatch_no_undefined e ops :
  Ops.no_undefined ops → Ops.no_undefined (dispatch e ops).
Proof.
  intros Hwf p.
  destruct (decide (path (event_file e) = p)) as [<-|Hne].
  - destruct (shouldSyncFile (path (event_file e))) eqn:Hs.
    + destruct (decide (path (event_file e) = "__proto__")) as [Hp|Hp];
        [destruct (ops !! "__proto__") eqn:Hown|].
      * rewrite dispatch_lookup; [|done|right; rewrite Hp; eauto|done].
        by destruct (handler_step _ _).
      * rewrite dispatch_proto by done. apply Hwf.
      * rewrite dispatch_lookup by auto.
        by destruct (handler_step _ _).
    + by rewrite dispatch_excluded.
  - by rewrite dispatch_lookup_ne.
Qed.

Lemma replay_no_undefined evs ops :
  Ops.no_undefined ops → Ops.no_undefined (replay evs ops).
Proof.
  revert ops. induction evs as [|e evs IH]; intros ops Hwf; [done|].
  apply IH. by apply dispatch_no_undefined.
Qed.

(** Events on other paths leave the entry of [p] alone. *)
Lemma replay_lookup_ne evs ops p :
  Forall (λ e, path (event_file e) ≠ p) evs →
  replay evs ops !! p = ops !! p.
Proof.
  revert ops. induction evs as [|e evs IH]; intros ops Hall; [done|].
  inversion_clear Hall. simpl. rewrite IH by done.
  by apply dispatch_lookup_ne.
Qed.

(** Where the table has a row, the handlers take the step it names. *)
Lemma table_step_handler e s s' :
  table_step e s = Some s' → handler_step e s = s'.
Proof. destruct e as [[]| |], s as [[]|]; simpl; congruence. Qed.

(** Outside the table: a create event on a pending [create] or [modify]
    is recorded as [create]. *)
Lemma handler_step_create_pending b o :
  o ≠ OpDelete → handler_step (CreateEvent b) (Some o) = Some OpCreate.
Proof. by destruct b, o. Qed.

End handlers.

Lemma operation_lookup (t : ObsidianGoogleDrive) (p : string) (o : Operation) :
  operation t p = Some o ↔ operations (settings t) !! p = Some (Some o).
Proof.
  unfold operation, Ops.read.
  destruct (operations (settings t) !! p) as [[|]|]; simpl; naive_solver.
Qed.

Lemma paths_with_lookup (o : Operation) (ops : Operations) (p : string) :
  p ∈ paths_with o (entries ops) ↔ ops !! p = Some (Some o).
Proof.
  unfold paths_with, entries. rewrite list_elem_of_fmap. split.
  - intros ([q v] & -> & [Hv Hin]%list_elem_of_filter). simpl in *. subst v.
    by apply elem_of_map_to_list in Hin.
  - intros Hp. exists (p, Some o). split; [done|].
    apply list_elem_of_filter. split; [done|]. by apply elem_of_map_to_list.
Qed.

(** The one gap of the table is the create event on a pending [create] or
    [modify]. *)
Lemma table_step_gap (e : LocalEvent) (s : option Operation) :
  table_step e s = None
  ↔ ∃ b o, e = CreateEvent b ∧ s = Some o ∧ o ≠ OpDelete.
Proof.
  split.
  - destruct e as [b| |], s as [[]|]; simpl; try done;
      intros _; eexists _, _; by repeat split.
  - intros (b & o & -> & -> & Ho). by destruct o.
Qed.

Lemma table_completed_handler (e : LocalEvent) (s : option Operation) :
  table_completed e s = handler_step e s.
Proof. by destruct e as [[]| |], s as [[]|]. Qed.

(** For every sequence on the path, table row or not, the entry follows
    [handler_step]. *)
Lemma handlers_replay_step (p : string) (evs : list VaultEvent)
    (ops : Operations) :
  shouldSyncFile p = true →
  p ≠ "__proto__" →
  Forall (λ e, path (event_file e) = p) evs →
  ops !! p ≠ Some None →
  replay evs ops !! p
  = Some <$> foldl (λ s e, handler_step (local_event e) s) (Ops.read ops p) evs.
Proof.
  intros Hsync Hp. revert ops.
  induction evs as [|e evs IH]; intros ops Hall Hwf.
  - by apply read_stored.
  - inversion_clear Hall as [|?? Hpe Hall']. subst p.
    pose proof (dispatch_lookup e ops Hsync (or_introl Hp) Hwf) as Hd.
    simpl. rewrite IH; [|done|].
    + unfold Ops.read at 1. rewrite Hd. by destruct (handler_step _ _).
    + rewrite Hd. by destruct (handler_step _ _).
Qed.

(** C1.  For a path the sync filter accepts, other than the name
    [__proto__], and every sequence of create, delete and modify events on
    that path, the entry of the path after the handlers have run is the
    state reached from the entry before by the transition table of section
    4.1 completed with one rule, a create event on a pending [create] or
    [modify] leaves [create]: [modify] (file) or no entry (folder) for a
    create on a pending [delete], [create] from no entry; no entry for a
    delete on a pending [create] and [delete] otherwise; nothing changes for
    a modify on [create] or [modify] and [modify] otherwise.  Where the
    table as written has a row for every step of the sequence, the entry is
    the state the table reaches.  The state none is stored as the absence
    of the key, never as a value. *)
Theorem handlers_follow_table (p : string) (evs : list VaultEvent)
    (ops : Operations) :
  shouldSyncFile p = true →
  p ≠ "__proto__" →
  Forall (λ e, path (event_file e) = p) evs →
  ops !! p ≠ Some None →
  replay evs ops !! p
  = Some <$> foldl (λ s e, table_completed (local_event e) s)
               (Ops.read ops p) evs
  ∧ (∀ s, table_replay (local_event <$> evs) (Ops.read ops p) = Some s →
          replay evs ops !! p = Some <$> s)
  ∧ replay evs ops !! p ≠ Some None.
Proof.
  intros Hsync Hp Hall Hwf.
  pose proof (handlers_replay_step p evs ops Hsync Hp Hall Hwf) as Hr.
  assert (∀ s0,
    foldl (λ s e, table_completed (local_event e) s) s0 evs
    = foldl (λ s e, handler_step (local_event e) s) s0 evs) as Heq.
  { clear. induction evs as [|e evs IH]; intros s0; [done|].
    simpl. by rewrite table_completed_handler, IH. }
  split; [by rewrite Heq|]. split; [|rewrite Hr; by destruct (foldl _ _ _)].
  intros s Htab. rewrite Hr. f_equal.
  clear Hr Hall Hwf Heq. revert Htab. generalize (Ops.read ops p) as s0.
  induction evs as [|e evs IH]; intros s0 Htab; simpl in *; [congruence|].
  destruct (table_step _ _) as [s'|] eqn:Hstep; [|done].
  apply table_step_handler in Hstep. rewrite Hstep. by apply IH.
Qed.

Lemma handlers_follow_table_witness :
  replay [OnCreate (TFile "notes/a.md" 0); OnModify (TFile "notes/a.md" 0);
          OnCreate (TFile "notes/a.md" 0); OnDelete (TFile "notes/a.md" 0);
          OnDelete (TFile "notes/a.md" 0); OnCreate (TFile "notes/a.md" 0)]
    ∅ !! "notes/a.md"
  = Some (Some OpModify).
Proof.
  refine (proj1 (handlers_follow_table "notes/a.md" _ ∅ _ _ _ _)).
  - vm_compute. reflexivity.
  - discriminate.
  - repeat constructor.
  - rewrite lookup_empty. discriminate.
Defined.

(** The claim as worded fails where the table has no row: a note that is
    modified and then reported as created has its entry overwritten with
    [create] (lines 441-443), a state the table does not name. *)
Lemma create_on_pending_modify :
  shouldSyncFile "a.md" = true
  ∧ table_replay
      (local_event <$> [OnModify (TFile "a.md" 0); OnCreate (TFile "a.md" 0)])
      (Ops.read ∅ "a.md") = None
  ∧ replay [OnModify (TFile "a.md" 0); OnCreate (TFile "a.md" 0)] ∅ !! "a.md"
    = Some (Some OpCreate).
Proof. by vm_compute. Qed.

(** ** The local-apply helpers keep the log entry of their path *)

Section helpers.
Context (fires : Firing).
Implicit Types (t : ObsidianGoogleDrive) (p : string).

Lemma inherited_proto p : Js.inherited p = false → p ≠ "__proto__".
Proof. by intros H ->. Qed.

(** Under a name that is no member of [Object.prototype] the value read is
    the operation stored, if any. *)
Lemma get_plain (ops : Operations) p :
  Js.inherited p = false → Ops.get ops p = Some <$> Ops.read ops p.
Proof. intros H. unfold Ops.get. rewrite H. by destruct (Ops.read ops p). Qed.

Lemma get_kind (ops : Operations) p o :
  Ops.read ops p = Some o → Ops.get ops p = Some (Some o).
Proof. intros H. unfold Ops.get. by rewrite H. Qed.

(** Under a member name without an operation the value read is the
    member. *)
Lemma get_inherited (ops : Operations) p :
  Js.inherited p = true → Ops.read ops p = None → Ops.get ops p = Some None.
Proof. intros H Hr. unfold Ops.get. by rewrite Hr, H. Qed.

(** A read that finds [undefined]: no operation is stored and the name is
    no member name. *)
Lemma get_undefined (ops : Operations) p :
  Ops.get ops p = None → Ops.read ops p = None ∧ p ≠ "__proto__".
Proof.
  unfold Ops.get. destruct (Ops.read ops p); [done|].
  intros H. split; [done|]. intros ->. done.
Qed.

(** What [restore] leaves under its path is the saved value: an own key
    for a value that is not [undefined], no key otherwise. *)
Lemma restore_lookup p old t :
  p ≠ "__proto__" → operations (settings (restore p old t)) !! p = old.
Proof.
  intros Hp. unfold restore. destruct old as [v|]; simpl.
  - rewrite write_lookup; auto.
  - unfold Ops.remove. by rewrite lookup_delete_eq.
Qed.

Lemma restore_lookup_ne p q old t :
  p ≠ q →
  operations (settings (restore p old t)) !! q
  = operations (settings t) !! q.
Proof.
  intros. unfold restore, Ops.remove.
  destruct old; simpl; by rewrite ?lookup_delete_ne, ?write_lookup_ne.
Qed.

Lemma restore_app p old t : app (restore p old t) = app t.
Proof. unfold restore. by destruct old. Qed.

Lemma restore_rest p old t :
  driveIdToPath (settings (restore p old t)) = driveIdToPath (settings t)
  ∧ lastSyncedAt (settings (restore p old t)) = lastSyncedAt (settings t)
  ∧ changesToken (settings (restore p old t)) = changesToken (settings t)
  ∧ syncing (restore p old t) = syncing t.
Proof. unfold restore. by destruct old. Qed.

(** Whatever the vault fires during the write, the helper leaves under its
    path the value it read there before the write. *)
Lemma helpers_restore_read t p file content modificationDate :
  p ≠ "__proto__" → path file ≠ "__proto__" →
  operations (settings (createFolder fires p t)) !! p
    = Ops.get (operations (settings t)) p
  ∧ operations (settings (createFile fires p content modificationDate t)) !! p
    = Ops.get (operations (settings t)) p
  ∧ operations (settings (modifyFile fires file content modificationDate t))
      !! path file
    = Ops.get (operations (settings t)) (path file)
  ∧ operations (settings (upsertFile fires p content modificationDate t)) !! p
    = Ops.get (operations (settings t)) p.
Proof.
  intros. unfold createFolder, createFile, modifyFile, upsertFile.
  repeat split; by apply restore_lookup.
Qed.

(** For a path that is no member name of [Object.prototype], each helper
    leaves the entry as it found it: the same kind when there was one, no
    key when there was none. *)
Lemma helpers_keep_plain_entry t p file content modificationDate :
  (Js.inherited p = false →
   operations (settings (createFolder fires p t)) !! p
     = Some <$> operation t p
   ∧ operations (settings (createFile fires p content modificationDate t)) !! p
     = Some <$> operation t p
   ∧ operations (settings (upsertFile fires p content modificationDate t)) !! p
     = Some <$> operation t p)
  ∧ (Js.inherited (path file) = false →
     operations (settings (modifyFile fires file content modificationDate t))
       !! path file
     = Some <$> operation t (path file)).
Proof.
  unfold createFolder, createFile, modifyFile, upsertFile, operation.
  split; intros H; pose proof (inherited_proto _ H);
    rewrite ?restore_lookup by done; by rewrite get_plain.
Qed.

End helpers.

(** Without the helper around it, the write does record an operation: the
    create event of a fresh folder leaves [create] in the log. *)
Lemma vault_createFolder_records (t : ObsidianGoogleDrive) :
  shouldSyncFile "X" = true ∧
  (operation t "X" = None →
   operation (vault_createFolder obsidian_fires "X" t) "X" = Some OpCreate).
Proof.
  split; [vm_compute; reflexivity|]. intros Hnone.
  unfold operation, vault_createFolder, deliver in *. simpl.
  unfold handleCreate, Ops.holds. simpl.
  rewrite Hnone. rewrite bool_decide_eq_false_2 by done.
  apply read_write. by left.
Qed.

(** C10.  The claim fails for a path named like a member of
    [Object.prototype].  On a log without a key [constructor], each of the
    four local-apply helpers reads the inherited function under that name,
    takes it for the pending operation, stores it back after the write and,
    the value being truthy, does not delete the key: the log has an own key
    [constructor] afterwards, holding a value that is no operation, where
    it had none before.  This holds whatever events the vault fires during
    the write. *)
Theorem helpers_store_inherited_member (fires : Firing)
    (t : ObsidianGoogleDrive) (mtime : Z) (content : ArrayBuffer)
    (modificationDate : option Z) :
  operations (settings t) !! "constructor" = None →
  operations (settings (createFolder fires "constructor" t)) !! "constructor"
    = Some None
  ∧ operations
      (settings (createFile fires "constructor" content modificationDate t))
      !! "constructor"
    = Some None
  ∧ operations
      (settings
         (modifyFile fires (TFile "constructor" mtime) content
            modificationDate t))
      !! "constructor"
    = Some None
  ∧ operations
      (settings (upsertFile fires "constructor" content modificationDate t))
      !! "constructor"
    = Some None.
Proof.
  intros Hnone.
  assert (Ops.get (operations (settings t)) "constructor" = Some None) as Hget.
  { apply get_inherited; [done|]. unfold Ops.read. by rewrite Hnone. }
  destruct (helpers_restore_read fires t "constructor"
              (TFile "constructor" mtime) content modificationDate)
    as (H1 & H2 & H3 & H4); [done..|].
  simpl in H3. by rewrite H1, H2, H3, H4.
Qed.

Lemma helpers_store_inherited_member_witness :
  operations (settings (createFolder obsidian_fires "constructor"
                          (plugin_of ∅ ∅ ∅ ∅))) !! "constructor"
  = Some None.
Proof.
  refine (proj1 (helpers_store_inherited_member obsidian_fires
                   (plugin_of ∅ ∅ ∅ ∅) 0 [] None _)).
  reflexivity.
Defined.

(** ** Pull: removals resolved through the Remote-ID Index *)

Section removals.
Implicit Types (t : ObsidianGoogleDrive) (p id : string).

Lemma resolveRemoval_app x t : app (resolveRemoval x t).1 = app t.
Proof. unfold resolveRemoval. by repeat case_match. Qed.

Lemma holds_lookup (ops : Operations) p o :
  Ops.holds ops p o = true ↔ ops !! p = Some (Some o).
Proof.
  unfold Ops.holds, Ops.read. rewrite bool_decide_eq_true.
  destruct (ops !! p) as [[|]|]; simpl; naive_solver.
Qed.

Lemma resolveRemoval_resolved x id p t :
  resolved id p t → resolved id p (resolveRemoval x t).1.
Proof.
  intros [Hi Ho]. unfold resolved, resolveRemoval.
  repeat case_match; simpl; unfold Ops.remove; split;
    try done; try (by apply lookup_delete_None; auto).
  all: destruct (decide (p = default EmptyString (driveIdToPath (settings t) !! x)))
         as [->|]; by rewrite ?lookup_delete_eq, ?lookup_delete_ne.
Qed.

Lemma resolveRemoval_step x id p t :
  p ≠ EmptyString → gone p t →
  pending id p t ∨ cleared id p t ∨ resolved id p t →
  pending id p (resolveRemoval x t).1
  ∨ cleared id p (resolveRemoval x t).1
  ∨ resolved id p (resolveRemoval x t).1.
Proof.
  intros Hp Hgone [[Hi Ho]|[[Hi Ho]|Hr]];
    [| |by right; right; apply resolveRemoval_resolved].
  - unfold pending, cleared, resolved, resolveRemoval.
    destruct (driveIdToPath (settings t) !! x) as [q|] eqn:Hx; simpl;
      [|by left].
    destruct (negb (String.eqb q EmptyString)) eqn:Hq; simpl; [|by left].
    destruct (decide (x = id)) as [->|Hne].
    + simplify_eq. unfold getAbstractFileByPath. simpl.
      unfold gone, getAbstractFileByPath in Hgone. rewrite Hgone. simpl.
      rewrite (proj2 (holds_lookup _ _ _) Ho). simpl.
      right; right. unfold Ops.remove.
      by rewrite !lookup_delete_eq.
    + destruct (_ && _) eqn:Hc; simpl; unfold Ops.remove;
        rewrite lookup_delete_ne by done; [|by left].
      destruct (decide (q = p)) as [->|];
        rewrite ?lookup_delete_eq, ?lookup_delete_ne by done; auto.
  - unfold pending, cleared, resolved, resolveRemoval.
    destruct (driveIdToPath (settings t) !! x) as [q|] eqn:Hx; simpl;
      [|by right; left].
    destruct (negb (String.eqb q EmptyString)) eqn:Hq; simpl;
      [|by right; left].
    destruct (decide (x = id)) as [->|Hne].
    + simplify_eq. right; right.
      destruct (_ && _); simpl; unfold Ops.remove;
        rewrite ?lookup_delete_eq; split; try done;
        by apply lookup_delete_None; auto.
    + right; left.
      destruct (_ && _); simpl; unfold Ops.remove;
        rewrite lookup_delete_ne by done; split; try done;
        by apply lookup_delete_None; auto.
Qed.

(** Resolving [id] itself closes the case and produces nothing to delete. *)
Lemma resolveRemoval_at id p t :
  p ≠ EmptyString → gone p t →
  pending id p t ∨ cleared id p t ∨ resolved id p t →
  resolved id p (resolveRemoval id t).1 ∧ (resolveRemoval id t).2 = None.
Proof.
  intros Hp Hgone Hcase.
  assert (String.eqb p EmptyString = false) as Hpe
    by (by apply String.eqb_neq).
  unfold resolved, resolveRemoval.
  destruct Hcase as [[Hi Ho]|[[Hi Ho]|[Hi Ho]]]; rewrite Hi; simpl;
    rewrite ?Hpe; simpl; [| |done];
    unfold gone, getAbstractFileByPath in *; simpl; rewrite Hgone; simpl.
  - rewrite (proj2 (holds_lookup _ _ _) Ho). simpl. unfold Ops.remove.
    by rewrite !lookup_delete_eq.
  - destruct (Ops.holds _ _ _) eqn:Hh; simpl.
    + apply holds_lookup in Hh. congruence.
    + by rewrite lookup_delete_eq.
Qed.

Lemma map_state_resolved l id p t :
  resolved id p t → resolved id p (map_state resolveRemoval l t).1.
Proof.
  revert t. induction l as [|x l IH]; intros t Hr; [done|].
  simpl. destruct (resolveRemoval x t) as [t1 b] eqn:Hx.
  specialize (IH t1). destruct (map_state resolveRemoval l t1) as [t2 bs].
  simpl in *. apply IH.
  replace t1 with (resolveRemoval x t).1 by (by rewrite Hx).
  by apply resolveRemoval_resolved.
Qed.

Lemma map_state_resolveRemoval l i id p t :
  p ≠ EmptyString → gone p t →
  pending id p t ∨ cleared id p t ∨ resolved id p t →
  l !! i = Some id →
  resolved id p (map_state resolveRemoval l t).1
  ∧ (map_state resolveRemoval l t).2 !! i = Some None.
Proof.
  intros Hp. revert t i.
  induction l as [|x l IH]; intros t i Hgone Hcase Hi; [done|].
  simpl. destruct (resolveRemoval x t) as [t1 b] eqn:Hx.
  destruct i as [|i]; simpl in Hi.
  - simplify_eq.
    destruct (resolveRemoval_at id p t Hp Hgone Hcase) as [Hr Hb].
    rewrite Hx in Hr, Hb. simpl in *. subst b.
    pose proof (map_state_resolved l id p t1 Hr) as Hfin.
    destruct (map_state resolveRemoval l t1) as [t2 bs]. by simpl in *.
  - assert (gone p t1) as Hgone1.
    { unfold gone. replace t1 with (resolveRemoval x t).1
        by (by rewrite Hx). by rewrite resolveRemoval_app. }
    assert (pending id p t1 ∨ cleared id p t1 ∨ resolved id p t1) as Hcase1.
    { pose proof (resolveRemoval_step x id p t Hp Hgone Hcase) as Hs.
      by rewrite Hx in Hs. }
    specialize (IH t1 i Hgone1 Hcase1 Hi).
    destruct (map_state resolveRemoval l t1) as [t2 bs]. by simpl in *.
Qed.

End removals.

(** C8.  A removal of the change feed whose id the index resolves to a path
    that has no local entry and a pending [delete] clears that log entry,
    drops the id from the index and contributes no file to the deletions:
    the redundant delete collapses silently. *)
Theorem redundant_delete_collapses (changes : list Change)
    (t : ObsidianGoogleDrive) (i : nat) (id p : string) :
  removedIds changes !! i = Some id →
  driveIdToPath (settings t) !! id = Some p →
  p ≠ EmptyString →
  getAbstractFileByPath (app t) p = None →
  operation t p = Some OpDelete →
  operations (settings (deletions changes t).1) !! p = None
  ∧ driveIdToPath (settings (deletions changes t).1) !! id = None
  ∧ (deletions changes t).2 !! i = Some None.
Proof.
  intros Hi Hidx Hp Hgone Hop.
  assert (operations (settings t) !! p = Some (Some OpDelete)) as Hraw.
  { apply holds_lookup. unfold Ops.holds. by apply bool_decide_eq_true. }
  destruct (map_state_resolveRemoval (removedIds changes) i id p t)
    as [[Hidx' Hops'] Hnone]; auto.
  left. by split.
Qed.

Lemma redundant_delete_collapses_witness :
  operations (settings
    (deletions [ {| fileId := "id0"; removed := false |};
                 {| fileId := "id1"; removed := true |} ]
       (plugin_of {["old.md" := Some OpDelete]} {["id1" := "old.md"]} ∅ ∅)).1)
    !! "old.md" = None
  ∧ driveIdToPath (settings
    (deletions [ {| fileId := "id0"; removed := false |};
                 {| fileId := "id1"; removed := true |} ]
       (plugin_of {["old.md" := Some OpDelete]} {["id1" := "old.md"]} ∅ ∅)).1)
    !! "id1" = None
  ∧ (deletions [ {| fileId := "id0"; removed := false |};
                 {| fileId := "id1"; removed := true |} ]
       (plugin_of {["old.md" := Some OpDelete]} {["id1" := "old.md"]} ∅ ∅)).2
    !! 0%nat = Some None.
Proof.
  apply (redundant_delete_collapses _ _ 0 "id1" "old.md").
  - reflexivity.
  - reflexivity.
  - discriminate.
  - reflexivity.
  - reflexivity.
Defined.

(** ** Pull: the deletion phase *)

Section deletion_phase.
Context (pathToId : gmap string string) (deletionPaths : list (option string)).
Implicit Types (t : ObsidianGoogleDrive) (f : TAbstractFile) (p : string).

Lemma filter_state_subseteq {S A : Type} (g : A → S → S * bool)
    (l : list A) (s : S) (x : A) :
  x ∈ (filter_state g l s).2 → x ∈ l.
Proof.
  revert s. induction l as [|a l IH]; intros s; simpl; [done|].
  destruct (g a s) as [s1 keep].
  specialize (IH s1). destruct (filter_state g l s1) as [s2 kept].
  simpl in *. destruct keep; set_solver.
Qed.

(** Whether a folder is handed to the local delete does not depend on the
    plugin's state. *)
Lemma keepDeletedFolder_decision f t t' :
  (keepDeletedFolder pathToId deletionPaths f t).2
  = (keepDeletedFolder pathToId deletionPaths f t').2.
Proof. unfold keepDeletedFolder. by repeat case_match. Qed.

Lemma filter_state_keepDeletedFolder_elem l t f :
  f ∈ (filter_state (keepDeletedFolder pathToId deletionPaths) l t).2
  ↔ f ∈ l ∧ (keepDeletedFolder pathToId deletionPaths f t).2 = true.
Proof.
  revert t. induction l as [|a l IH]; intros t; simpl; [set_solver|].
  destruct (keepDeletedFolder pathToId deletionPaths a t) as [t1 keep] eqn:Ha.
  specialize (IH t1).
  destruct (filter_state _ l t1) as [t2 kept]. simpl in *.
  rewrite (keepDeletedFolder_decision f t1 t) in IH.
  assert (keep = (keepDeletedFolder pathToId deletionPaths a t).2) as Hk
    by (by rewrite Ha).
  destruct keep; rewrite ?elem_of_cons, IH; [|].
  - split; [intros [->|[??]]; auto|]. intros [[->|?] ?]; auto.
  - split; [intros [??]; auto|]. intros [[->|?] ?]; [congruence|auto].
Qed.

(** Neither filter writes under a path for which the read of [pathToId]
    is truthy. *)
Lemma keepDeletedFile_indexed f t p :
  Js.truthy_at pathToId p = true →
  operations (settings (keepDeletedFile pathToId f t).1) !! p
  = operations (settings t) !! p.
Proof.
  intros Hp. unfold keepDeletedFile.
  repeat case_match; simpl; try done.
  apply write_lookup_ne. intros Heq. subst p.
  by rewrite Hp in *.
Qed.

Lemma keepDeletedFolder_indexed f t p :
  Js.truthy_at pathToId p = true →
  operations (settings (keepDeletedFolder pathToId deletionPaths f t).1) !! p
  = operations (settings t) !! p.
Proof.
  intros Hp. unfold keepDeletedFolder.
  repeat case_match; simpl; try done.
  apply write_lookup_ne. intros Heq. subst p.
  congruence.
Qed.

Lemma filter_state_indexed (g : TAbstractFile → ObsidianGoogleDrive →
                                ObsidianGoogleDrive * bool) l t p :
  (∀ f t, operations (settings (g f t).1) !! p = operations (settings t) !! p) →
  operations (settings (filter_state g l t).1) !! p
  = operations (settings t) !! p.
Proof.
  intros Hg. revert t. induction l as [|a l IH]; intros t; simpl; [done|].
  specialize (Hg a t). destruct (g a t) as [t1 keep].
  specialize (IH t1). destruct (filter_state g l t1) as [t2 kept].
  simpl in *. congruence.
Qed.

(** A [create] mark survives the rest of the folder filter. *)
Lemma keepDeletedFolder_create f t p :
  operations (settings t) !! p = Some (Some OpCreate) →
  operations (settings (keepDeletedFolder pathToId deletionPaths f t).1) !! p
  = Some (Some OpCreate).
Proof.
  intros Hp. unfold keepDeletedFolder.
  repeat case_match; simpl; try done.
  destruct (decide (path f = p)) as [->|];
    [rewrite write_lookup; [done|right; by rewrite Hp]
    |by rewrite write_lookup_ne].
Qed.

Lemma filter_state_keepDeletedFolder_create l t p :
  operations (settings t) !! p = Some (Some OpCreate) →
  operations (settings
    (filter_state (keepDeletedFolder pathToId deletionPaths) l t).1) !! p
  = Some (Some OpCreate).
Proof.
  revert t. induction l as [|a l IH]; intros t Hp; simpl; [done|].
  pose proof (keepDeletedFolder_create a t p Hp) as Ha.
  destruct (keepDeletedFolder _ _ a t) as [t1 keep].
  specialize (IH t1 Ha). by destruct (filter_state _ l t1).
Qed.

Lemma filter_state_keepDeletedFolder_marked l t f :
  f ∈ l →
  path f ≠ "__proto__" →
  Js.truthy_at pathToId (path f) = false →
  (keepDeletedFolder pathToId deletionPaths f t).2 = false →
  operations (settings
    (filter_state (keepDeletedFolder pathToId deletionPaths) l t).1)
    !! path f
  = Some (Some OpCreate).
Proof.
  revert t. induction l as [|a l IH]; intros t Hin Hproto Hidx Hdec;
    [by apply elem_of_nil in Hin|].
  apply elem_of_cons in Hin as [<-|Hin]; simpl.
  - assert (operations (settings
              (keepDeletedFolder pathToId deletionPaths f t).1) !! path f
            = Some (Some OpCreate)) as Hm.
    { revert Hdec. unfold keepDeletedFolder. rewrite Hidx.
      case_match; simpl; [done|]. intros _.
      apply write_lookup. by left. }
    destruct (keepDeletedFolder _ _ f t) as [t1 keep].
    pose proof (filter_state_keepDeletedFolder_create l t1 (path f) Hm).
    by destruct (filter_state _ l t1).
  - destruct (keepDeletedFolder _ _ a t) as [t1 keep].
    specialize (IH t1 Hin Hproto Hidx).
    rewrite (keepDeletedFolder_decision f t1 t) in IH.
    specialize (IH Hdec). by destruct (filter_state _ l t1).
Qed.

End deletion_phase.

Lemma tfolders_not_tfiles (l : list (option TAbstractFile)) (f : TAbstractFile) :
  f ∈ tfolders l → f ∉ tfiles l.
Proof.
  unfold tfolders, tfiles. rewrite !list_elem_of_filter.
  intros [Hd _] [Hf _]. by destruct f.
Qed.

Lemma deleteFiles_selection_unfold (pathToId : gmap string string)
    (l : list (option TAbstractFile)) (t : ObsidianGoogleDrive) :
  let files := filter_state (keepDeletedFile pathToId) (tfiles l) t in
  let folders :=
    filter_state (keepDeletedFolder pathToId (optional_path <$> l))
      (tfolders l) files.1 in
  deleteFiles_selection pathToId l t = (folders.1, folders.2 ++ files.2).
Proof.
  unfold deleteFiles_selection. simpl.
  destruct (filter_state (keepDeletedFile pathToId) _ t) as [t1 fs]. simpl.
  by destruct (filter_state (keepDeletedFolder pathToId _) _ t1).
Qed.

(** The local delete is called for entries of the list it is given, for
    no other. *)
Lemma deleteFiles_calls_selected (fires : Firing)
    (pathToId : gmap string string) (l : list (option TAbstractFile))
    (t : ObsidianGoogleDrive) (e : Effect) :
  e ∈ (deleteFiles fires pathToId l t).2 →
  ∃ f, f ∈ (deleteFiles_selection pathToId l t).2
       ∧ e = CallDeleteFile (path f).
Proof.
  unfold deleteFiles.
  destruct (deleteFiles_selection pathToId l t) as [t1 files]. simpl.
  intros (f & -> & [_ Hf]%list_elem_of_filter)%list_elem_of_fmap.
  by exists f.
Qed.

(** C2, as the code has it by design.  In pull's deletion phase a local
    directory resolved from the removal set for which the refreshed
    path-to-id map answers with a truthy value ([pathToId[folder.path]],
    line 123: the path still maps to a remote id) is not handed to the
    local delete, and the two filters leave its log entry as it was; a
    directory for which the map answers with a falsy value and that is not
    handed to the local delete has its log entry set to [create] when the
    filters are done.  The phase calls the local delete for entries handed
    to it only.  (A directory that is not handed to the delete still goes
    with a folder above it that is.) *)
Theorem deletion_phase_directories (pathToId : gmap string string)
    (l : list (option TAbstractFile)) (t : ObsidianGoogleDrive)
    (folder : TAbstractFile) :
  folder ∈ tfolders l →
  (Js.truthy_at pathToId (path folder) = true →
     (folder ∉ (deleteFiles_selection pathToId l t).2)
     ∧ operations (settings (deleteFiles_selection pathToId l t).1)
         !! path folder
       = operations (settings t) !! path folder)
  ∧ (Js.truthy_at pathToId (path folder) = false →
     path folder ≠ "__proto__" →
     folder ∉ (deleteFiles_selection pathToId l t).2 →
     operations (settings (deleteFiles_selection pathToId l t).1)
       !! path folder
     = Some (Some OpCreate))
  ∧ (∀ (fires : Firing) (e : Effect),
       e ∈ (deleteFiles fires pathToId l t).2 →
       ∃ f, f ∈ (deleteFiles_selection pathToId l t).2
            ∧ e = CallDeleteFile (path f)).
Proof.
  intros Hin.
  assert (∀ (fires : Firing) (e : Effect),
            e ∈ (deleteFiles fires pathToId l t).2 →
            ∃ f, f ∈ (deleteFiles_selection pathToId l t).2
                 ∧ e = CallDeleteFile (path f)) as Hcalls
    by (intros fires e; apply deleteFiles_calls_selected).
  revert Hcalls.
  rewrite deleteFiles_selection_unfold. simpl.
  set (files := filter_state (keepDeletedFile pathToId) (tfiles l) t).
  intros Hcalls. split; [|split; [|exact Hcalls]]; clear Hcalls.
  - intros Hidx. split.
    + rewrite elem_of_app. intros [Hf|Hf].
      * apply filter_state_keepDeletedFolder_elem in Hf as [_ Hk].
        revert Hk. unfold keepDeletedFolder. by rewrite Hidx.
      * apply filter_state_subseteq in Hf. by apply tfolders_not_tfiles in Hin.
    + rewrite filter_state_indexed;
        [|intros; by apply keepDeletedFolder_indexed].
      unfold files. apply filter_state_indexed.
      intros. by apply keepDeletedFile_indexed.
  - intros Hidx Hproto Hout.
    apply filter_state_keepDeletedFolder_marked with (t := files.1); try done.
    destruct ((keepDeletedFolder pathToId (optional_path <$> l) folder
                 files.1).2) eqn:Hk; [|done].
    exfalso. apply Hout. apply elem_of_app. left.
    by apply filter_state_keepDeletedFolder_elem.
Qed.

Lemma folder_F_removed : folder_F ∈ tfolders removed_F.
Proof.
  unfold tfolders, removed_F. simpl. apply list_elem_of_filter.
  split; [reflexivity|]. apply elem_of_cons. by left.
Qed.

(** [F] removed with its only note: with its path taken again by a new
    remote folder it is not handed to the delete and its log entry stays
    absent; with its path free it is not handed to the delete either and is
    marked [create]. *)
Lemma deletion_phase_directories_witness :
  ((folder_F ∉
      (deleteFiles_selection {["F" := "id-new"]} removed_F
         (plugin_of ∅ {["id-new" := "F"]} ∅ ∅)).2)
   ∧ operations (settings
       (deleteFiles_selection {["F" := "id-new"]} removed_F
          (plugin_of ∅ {["id-new" := "F"]} ∅ ∅)).1) !! "F"
     = None)
  ∧ operations (settings
      (deleteFiles_selection ∅ removed_F (plugin_of ∅ ∅ ∅ ∅)).1) !! "F"
    = Some (Some OpCreate)
  ∧ ∃ f, f ∈ (deleteFiles_selection ∅ removed_F (plugin_of ∅ ∅ ∅ ∅)).2
         ∧ CallDeleteFile "F/a.md" = CallDeleteFile (path f).
Proof.
  split; [|split].
  - destruct (deletion_phase_directories {["F" := "id-new"]} removed_F
                (plugin_of ∅ {["id-new" := "F"]} ∅ ∅) folder_F
                folder_F_removed) as [H _].
    apply H. reflexivity.
  - destruct (deletion_phase_directories ∅ removed_F (plugin_of ∅ ∅ ∅ ∅)
                folder_F folder_F_removed) as (_ & H & _).
    apply H.
    + reflexivity.
    + discriminate.
    + assert ((deleteFiles_selection ∅ removed_F (plugin_of ∅ ∅ ∅ ∅)).2
              = [note_a]) as -> by (vm_compute; reflexivity).
      intros Hin. apply list_elem_of_singleton in Hin. discriminate.
  - destruct (deletion_phase_directories ∅ removed_F (plugin_of ∅ ∅ ∅ ∅)
                folder_F folder_F_removed) as (_ & _ & H).
    apply (H obsidian_fires).
    assert ((deleteFiles obsidian_fires ∅ removed_F (plugin_of ∅ ∅ ∅ ∅)).2
            = [CallDeleteFile "F/a.md"]) as -> by (vm_compute; reflexivity).
    apply list_elem_of_singleton. reflexivity.
Defined.

(** The claim of C2 read on the code: [F] was removed remotely together
    with its only note, so all its children are in the deletion set, and
    its path was taken again by a new remote folder.  The directory is not
    handed to the local delete, and the only local delete of the phase is
    that of the note. *)
Lemma indexed_directory_not_deleted :
  folder_F ∈ tfolders removed_F
  ∧ Forall (λ c, Some (path c) ∈ optional_path <$> removed_F)
      (children folder_F)
  ∧ (folder_F ∉
      (deleteFiles_selection {["F" := "id-new"]} removed_F
         (plugin_of ∅ {["id-new" := "F"]} ∅ ∅)).2)
  ∧ (deleteFiles obsidian_fires {["F" := "id-new"]} removed_F
       (plugin_of ∅ {["id-new" := "F"]} ∅ ∅)).2
    = [CallDeleteFile "F/a.md"].
Proof.
  split; [|split; [|split]].
  - unfold tfolders, removed_F. simpl. apply list_elem_of_filter.
    split; [reflexivity|]. apply elem_of_cons. by left.
  - repeat constructor.
  - assert ((deleteFiles_selection {["F" := "id-new"]} removed_F
               (plugin_of ∅ {["id-new" := "F"]} ∅ ∅)).2 = [note_a]) as ->
      by (vm_compute; reflexivity).
    intros Hin. apply list_elem_of_singleton in Hin. discriminate.
  - vm_compute. reflexivity.
Qed.

(** How the child test falls out in the code, for the record.  A folder
    with a note the removal set does not mention is handed to the local
    delete and its log entry stays empty; a folder removed together with all
    it holds stays and is marked [create]. *)
Lemma surviving_child_folder_selected :
  (deleteFiles_selection ∅ removed_G (plugin_of ∅ ∅ ∅ ∅)).2 = [folder_G]
  ∧ operation (deleteFiles_selection ∅ removed_G (plugin_of ∅ ∅ ∅ ∅)).1 "G"
    = None.
Proof. split; vm_compute; reflexivity. Qed.

Lemma emptied_folder_marked_create :
  (deleteFiles_selection ∅ removed_F (plugin_of ∅ ∅ ∅ ∅)).2 = [note_a]
  ∧ operation (deleteFiles_selection ∅ removed_F (plugin_of ∅ ∅ ∅ ∅)).1 "F"
    = Some OpCreate.
Proof. split; vm_compute; reflexivity. Qed.

(** ** Pull: the upsert phase *)

Section upsert_phase.
Context (getFile : string → ArrayBuffer) (fires : Firing).
Context (Hfires : fires_written_path fires).
Implicit Types (t : ObsidianGoogleDrive) (p q : string) (file : FileMetadata).

Lemma same_at_refl p t : same_at p t t.
Proof. by unfold same_at. Qed.

Lemma same_at_trans p t1 t2 t3 :
  same_at p t1 t2 → same_at p t2 t3 → same_at p t1 t3.
Proof. unfold same_at. intros (?&?&?) (?&?&?). repeat split; congruence. Qed.

Lemma same_at_localFile p t t' :
  same_at p t t' → localFile t' p = localFile t p.
Proof.
  intros (_ & Hv & Ha).
  unfold localFile, getFileByPath, getAbstractFileByPath, adapter_exists.
  by rewrite Hv, Ha.
Qed.

Lemma same_at_operation p t t' :
  same_at p t t' → operation t' p = operation t p.
Proof. intros (Ho & _). unfold operation, Ops.read. by rewrite Ho. Qed.

Lemma getFileByPath_path (a : App) q f :
  getFileByPath a q = Some f → path f = q.
Proof.
  unfold getFileByPath, getAbstractFileByPath.
  destruct (vault a !! q) as [[]|]; simpl; intros; by simplify_eq.
Qed.

Lemma deliver_same_at c p t :
  call_path c ≠ p → same_at p t (deliver fires c t).
Proof.
  intros Hne. unfold same_at, deliver. simpl. split; [|done].
  apply replay_lookup_ne. apply Forall_forall. intros e He.
  by rewrite (Hfires _ _ _ He).
Qed.

Lemma restore_same_at q old p t : q ≠ p → same_at p t (restore q old t).
Proof.
  intros Hne. unfold same_at. rewrite restore_app.
  by rewrite restore_lookup_ne.
Qed.

Lemma modifyFile_same_at f content date p t :
  path f ≠ p → same_at p t (modifyFile fires f content date t).
Proof.
  intros Hne. unfold modifyFile.
  eapply same_at_trans; [|by apply restore_same_at].
  unfold vault_modifyBinary.
  eapply same_at_trans; [by apply (deliver_same_at (ModifyBinary (path f)))|].
  unfold same_at. simpl. by rewrite !lookup_insert_ne.
Qed.

Lemma upsertFile_same_at q content date p t :
  q ≠ p → same_at p t (upsertFile fires q content date t).
Proof.
  intros Hne. unfold upsertFile.
  eapply same_at_trans; [|by apply restore_same_at].
  unfold adapter_writeBinary.
  eapply same_at_trans; [by apply (deliver_same_at (WriteBinary q))|].
  unfold same_at. simpl. by rewrite !lookup_insert_ne.
Qed.

(** A task for another path leaves everything under [p] alone. *)
Lemma upsertNote_other file p t :
  properties_path file ≠ Some p →
  same_at p t (upsertNote getFile fires file t).1.
Proof.
  intros Hne. unfold upsertNote.
  destruct (properties_path file) as [q|]; simpl; [|apply same_at_refl].
  assert (q ≠ p) by congruence.
  repeat case_match; simpl; try apply same_at_refl.
  - unfold same_at. simpl. by rewrite write_lookup_ne.
  - apply modifyFile_same_at.
    by erewrite getFileByPath_path by eassumption.
  - by apply upsertFile_same_at.
Qed.

(** A task for [p] itself, with a local entry and a pending [modify]:
    nothing happens. *)
Lemma upsertNote_modify file p t :
  properties_path file = Some p →
  localFile t p = true →
  operation t p = Some OpModify →
  upsertNote getFile fires file t = (t, []).
Proof.
  intros Hp Hl Ho. unfold upsertNote. rewrite Hp. simpl.
  destruct (negb (String.eqb p EmptyString)); simpl; [|done].
  by rewrite Hl, Ho.
Qed.


Lemma upsertNotes_modify notes p t :
  localFile t p = true →
  operation t p = Some OpModify →
  same_at p t (upsertNotes getFile fires notes t).1
  ∧ ∀ i file, notes !! i = Some file → properties_path file = Some p →
      (upsertNotes getFile fires notes t).2 !! i = Some [].
Proof.
  unfold upsertNotes. revert t.
  induction notes as [|g notes IH]; intros t Hl Ho; simpl.
  { split; [apply same_at_refl|done]. }
  destruct (decide (properties_path g = Some p)) as [Hg|Hg].
  - rewrite (upsertNote_modify g p t Hg Hl Ho).
    specialize (IH t Hl Ho).
    destruct (map_state _ notes t) as [t2 trs]. simpl in *.
    destruct IH as [IH1 IH2]. split; [done|].
    intros [|i] file Hi Hf; simpl in *; [done|by eapply IH2].
  - pose proof (upsertNote_other g p t Hg) as Hsame.
    destruct (upsertNote getFile fires g t) as [t1 tr]. simpl in *.
    specialize (IH t1).
    rewrite (same_at_localFile _ _ _ Hsame),
      (same_at_operation _ _ _ Hsame) in IH.
    specialize (IH Hl Ho).
    destruct (map_state _ notes t1) as [t2 trs]. simpl in *.
    destruct IH as [IH1 IH2]. split; [by eapply same_at_trans|].
    intros [|i] file Hi Hf; simpl in *; [congruence|by eapply IH2].
Qed.

End upsert_phase.

Lemma obsidian_fires_written_path : fires_written_path obsidian_fires.
Proof.
  intros a c e. destruct c as [p|p|p|p|p]; simpl.
  - intros ->%list_elem_of_singleton. done.
  - intros ->%list_elem_of_singleton. done.
  - intros ->%list_elem_of_singleton. done.
  - unfold getAbstractFileByPath.
    destruct (vault a !! p) as [[]|]; simpl;
      intros ->%list_elem_of_singleton; done.
  - unfold getAbstractFileByPath.
    destruct (vault a !! p) as [[]|]; simpl;
      [intros ->%list_elem_of_singleton; done..|].
    intros He. by apply elem_of_nil in He.
Qed.

(** The claim of C3 read on the code: the log says [modify] for the path of
    a remote note, nothing is found locally under that path; the note is
    downloaded and written. *)
Lemma modify_without_local_file_downloads :
  operation (plugin_of {["n.md" := Some OpModify]} ∅ ∅ ∅) "n.md"
    = Some OpModify
  ∧ (upsertNotes one_byte obsidian_fires [remote_note]
       (plugin_of {["n.md" := Some OpModify]} ∅ ∅ ∅)).2
    = [[GetFile (Some "id1"); CallUpsertFile "n.md"]]
  ∧ adapter (app (upsertNotes one_byte obsidian_fires [remote_note]
       (plugin_of {["n.md" := Some OpModify]} ∅ ∅ ∅)).1) !! "n.md"
    = Some (DiskFile [Byte.x41] (Some 5)).
Proof. repeat split; vm_compute; reflexivity. Qed.

(** C3, as the code has it.  In pull's upsert phase, for a remote note
    whose path has a local entry and a pending [modify], the local content
    stays: the task of the note downloads nothing and writes nothing, the
    log entry is still [modify] when the phase ends, and what the vault and
    the disk hold under the path is what they held before. *)
Theorem local_modify_takes_precedence (getFile : string → ArrayBuffer)
    (fires : Firing) (newNotes : list FileMetadata)
    (t : ObsidianGoogleDrive) (i : nat) (file : FileMetadata) (p : string) :
  fires_written_path fires →
  newNotes !! i = Some file →
  properties_path file = Some p →
  localFile t p = true →
  operation t p = Some OpModify →
  (upsertNotes getFile fires newNotes t).2 !! i = Some []
  ∧ operation (upsertNotes getFile fires newNotes t).1 p = Some OpModify
  ∧ vault (app (upsertNotes getFile fires newNotes t).1) !! p
    = vault (app t) !! p
  ∧ adapter (app (upsertNotes getFile fires newNotes t).1) !! p
    = adapter (app t) !! p.
Proof.
  intros Hfires Hi Hp Hl Ho.
  destruct (upsertNotes_modify getFile fires Hfires newNotes p t Hl Ho)
    as [Hsame Htr].
  split; [by eapply Htr|].
  rewrite (same_at_operation _ _ _ Hsame).
  by destruct Hsame as (_ & ? & ?).
Qed.

Lemma local_modify_takes_precedence_witness :
  (upsertNotes one_byte obsidian_fires [remote_note]
     (plugin_of {["n.md" := Some OpModify]} ∅ {["n.md" := VaultFile 1]}
        {["n.md" := DiskFile [Byte.x42] (Some 1)]})).2 !! 0%nat = Some []
  ∧ operation (upsertNotes one_byte obsidian_fires [remote_note]
     (plugin_of {["n.md" := Some OpModify]} ∅ {["n.md" := VaultFile 1]}
        {["n.md" := DiskFile [Byte.x42] (Some 1)]})).1 "n.md" = Some OpModify
  ∧ vault (app (upsertNotes one_byte obsidian_fires [remote_note]
     (plugin_of {["n.md" := Some OpModify]} ∅ {["n.md" := VaultFile 1]}
        {["n.md" := DiskFile [Byte.x42] (Some 1)]})).1) !! "n.md"
    = vault (app
     (plugin_of {["n.md" := Some OpModify]} ∅ {["n.md" := VaultFile 1]}
        {["n.md" := DiskFile [Byte.x42] (Some 1)]})) !! "n.md"
  ∧ adapter (app (upsertNotes one_byte obsidian_fires [remote_note]
     (plugin_of {["n.md" := Some OpModify]} ∅ {["n.md" := VaultFile 1]}
        {["n.md" := DiskFile [Byte.x42] (Some 1)]})).1) !! "n.md"
    = adapter (app
     (plugin_of {["n.md" := Some OpModify]} ∅ {["n.md" := VaultFile 1]}
        {["n.md" := DiskFile [Byte.x42] (Some 1)]})) !! "n.md".
Proof.
  apply (local_modify_takes_precedence one_byte obsidian_fires [remote_note]
           _ 0 remote_note "n.md").
  - apply obsidian_fires_written_path.
  - reflexivity.
  - reflexivity.
  - vm_compute. reflexivity.
  - vm_compute. reflexivity.
Defined.

Section create_convergence.
Context (getFile : string → ArrayBuffer) (fires : Firing).
Context (Hfires : fires_written_path fires).
Implicit Types (t : ObsidianGoogleDrive) (p : string) (file : FileMetadata).



End create_convergence.

(** ** Paths: prefixes and depth *)

Section paths.
Implicit Types (s r a d f : string) (c : ascii).

Lemma append_nil s : EmptyString +:+ s = s.
Proof. reflexivity. Qed.

Lemma append_cons c s r : String c s +:+ r = String c (s +:+ r).
Proof. reflexivity. Qed.

Lemma startsWith_app s pre : Js.startsWith (pre +:+ s) pre = true.
Proof.
  induction pre as [|x pre IH]; [reflexivity|].
  rewrite append_cons. simpl. by rewrite Ascii.eqb_refl.
Qed.

Lemma startsWith_inv s pre :
  Js.startsWith s pre = true → ∃ r, s = pre +:+ r.
Proof.
  revert s. induction pre as [|x pre IH]; intros s; simpl.
  - by exists s.
  - destruct s as [|y s]; [done|].
    destruct (Ascii.eqb x y) eqn:Hxy; [|done].
    apply Ascii.eqb_eq in Hxy as ->.
    intros [r ->]%IH. by exists r.
Qed.

Lemma append_assoc s1 s2 s3 : (s1 +:+ s2) +:+ s3 = s1 +:+ (s2 +:+ s3).
Proof.
  induction s1 as [|x s1 IH]; [reflexivity|].
  by rewrite !append_cons, IH.
Qed.

Lemma under_inv a d : under a d = true → ∃ r, d = a +:+ "/" +:+ r.
Proof.
  unfold under. intros [r ->]%startsWith_inv.
  exists r. by rewrite append_assoc.
Qed.

Lemma under_trans f a d :
  under f a = true → under a d = true → under f d = true.
Proof.
  intros [r1 ->]%under_inv [r2 ->]%under_inv. unfold under.
  rewrite <- (append_assoc f "/" r1), (append_assoc (f +:+ "/")).
  apply startsWith_app.
Qed.

Lemma split_nonempty c s : Js.split c s ≠ [].
Proof.
  destruct s as [|x s]; simpl; [done|].
  destruct (Ascii.eqb x c); [done|]. by destruct (Js.split c s).
Qed.

Lemma split_app c s1 s2 :
  Js.split c (s1 +:+ String c s2) = Js.split c s1 ++ Js.split c s2.
Proof.
  induction s1 as [|x s1 IH].
  - rewrite append_nil. simpl. by rewrite Ascii.eqb_refl.
  - rewrite append_cons. simpl.
    destruct (Ascii.eqb x c); rewrite IH; [done|].
    pose proof (split_nonempty c s1). by destruct (Js.split c s1).
Qed.

Lemma segments_pos s : (1 ≤ Js.segments s)%nat.
Proof.
  unfold Js.segments. pose proof (split_nonempty "/" s).
  destruct (Js.split "/" s); simpl; [done|lia].
Qed.

(** What lies below a folder has more segments than the folder. *)
Lemma under_segments a d :
  under a d = true → (Js.segments a < Js.segments d)%nat.
Proof.
  intros [r ->]%under_inv. unfold Js.segments.
  change (a +:+ "/" +:+ r) with (a +:+ String "/" r).
  rewrite split_app, length_app.
  pose proof (segments_pos r). unfold Js.segments in *. lia.
Qed.

Lemma covered_under R a d :
  covered R a → under a d = true → covered R d.
Proof.
  intros (f & Hf & [->|Hfa]) Had; exists f; split; auto.
  right. by eapply under_trans.
Qed.

End paths.

(** ** Pull: removal of internal files, trash policies *)

Section trash.
Context (trashMethod : string) (cds : list ConfigDeletion).
Implicit Types (e a : ConfigDeletion) (x f : string)
  (st : list ConfigDeletion * (ObsidianGoogleDrive * list Effect)).

Lemma trashed_app tr1 tr2 : trashed (tr1 ++ tr2) = trashed tr1 ++ trashed tr2.
Proof. apply omap_app. Qed.

Lemma trashed_trashEffect (l : list string) :
  trashed (trashEffect trashMethod <$> l) = l.
Proof.
  induction l as [|x l IH]; [done|].
  rewrite fmap_cons. unfold trashed in *.
  change (omap ?g (?y :: ?l')) with
    (match g y with Some z => z :: omap g l' | None => omap g l' end).
  rewrite IH. unfold trashEffect. by destruct (String.eqb _ _).
Qed.

Lemma foldl_deletionMethod_trace (l : list ConfigDeletion)
    (s : ObsidianGoogleDrive * list Effect) :
  (foldl (λ s e, deletionMethod trashMethod (cd_path e) s) s l).2
  = s.2 ++ (trashEffect trashMethod <$> (cd_path <$> l)).
Proof.
  revert s. induction l as [|e l IH]; intros s; simpl.
  - by rewrite app_nil_r.
  - rewrite IH. simpl. by rewrite <- app_assoc.
Qed.

Lemma outside_true f e :
  outside f e = true ↔ ¬ (cd_path e = f ∨ under f (cd_path e) = true).
Proof.
  unfold outside. rewrite andb_true_iff, !negb_true_iff, String.eqb_neq.
  destruct (under f (cd_path e)); naive_solver.
Qed.

Lemma foldl_filter_outside (fs cur : list ConfigDeletion) e :
  e ∈ foldl (λ cur folder, filter (λ e, outside (cd_path folder) e = true) cur)
        cur fs
  ↔ e ∈ cur ∧ Forall (λ folder, outside (cd_path folder) e = true) fs.
Proof.
  revert cur. induction fs as [|f fs IH]; intros cur; simpl.
  - rewrite Forall_nil. naive_solver.
  - rewrite IH, list_elem_of_filter, Forall_cons. naive_solver.
Qed.

Lemma covered_app R1 R2 x : covered (R1 ++ R2) x ↔ covered R1 x ∨ covered R2 x.
Proof.
  unfold covered. split.
  - intros (f & [Hf|Hf]%elem_of_app & Hx); [left|right]; eauto.
  - intros [(f & Hf & Hx)|(f & Hf & Hx)]; exists f; rewrite elem_of_app; auto.
Qed.

Lemma covered_paths (fs : list ConfigDeletion) e :
  covered (cd_path <$> fs) (cd_path e)
  ↔ ¬ Forall (λ folder, outside (cd_path folder) e = true) fs.
Proof.
  unfold covered. split.
  - intros (f & (a & -> & Ha)%list_elem_of_fmap & Hx) Hall.
    rewrite Forall_forall in Hall. specialize (Hall a Ha).
    by apply outside_true in Hall.
  - intros (a & Ha & Hx)%not_Forall_Exists%Exists_exists; [|apply _].
    exists (cd_path a). split; [by apply list_elem_of_fmap_2|].
    simpl in Hx. rewrite outside_true in Hx.
    destruct (decide (cd_path e = cd_path a)); [by left|].
    destruct (under (cd_path a) (cd_path e)) eqn:Hu; [by right|].
    exfalso. apply Hx. naive_solver.
Qed.

Lemma trash_inv_init t : trash_inv cds 0 (cds, (t, [])).
Proof.
  exists []. repeat split; simpl.
  - intros e _ (f & Hf & _). by apply elem_of_nil in Hf.
  - auto.
  - intros a _ _ Hk. pose proof (segments_pos (cd_path a)). lia.
  - intros x a Hx. by apply elem_of_nil in Hx.
Qed.

Lemma trash_inv_step k st :
  trash_inv cds k st → trash_inv cds (S k) (trashDepth trashMethod (S k) st).
Proof.
  intros (R & Hcur & Hcds & Hdone & Htr).
  set (ftd := filter (λ e, is_folder e = true
                           ∧ Js.segments (cd_path e) = S k) st.1).
  exists (R ++ (cd_path <$> ftd)). unfold trashDepth. fold ftd. simpl.
  repeat split.
  - intros e [He Hall]%foldl_filter_outside [Hc|Hc]%covered_app.
    + by apply (Hcur e).
    + by apply covered_paths in Hc.
  - intros e He. rewrite foldl_filter_outside.
    destruct (Hcds e He) as [Hin|Hc]; [|right; apply covered_app; by left].
    destruct (decide (Forall (λ folder, outside (cd_path folder) e = true) ftd))
      as [Hall|Hno]; [by left|].
    right. apply covered_app. right. by apply covered_paths.
  - intros a Ha Hf Hk. apply covered_app.
    destruct (decide (Js.segments (cd_path a) = S k)) as [Heq|Hne];
      [|left; apply Hdone; auto; lia].
    destruct (Hcds a Ha) as [Hin|Hc]; [|by left].
    right. exists (cd_path a). split; [|by left].
    apply list_elem_of_fmap_2. by apply list_elem_of_filter.
  - intros x a. rewrite foldl_deletionMethod_trace, trashed_app,
      trashed_trashEffect.
    intros [Hx|(e & -> & He)%list_elem_of_fmap]%elem_of_app Ha Hf;
      [by eapply Htr|].
    apply list_elem_of_filter in He as [[He1 He2] He3].
    destruct (under (cd_path a) (cd_path e)) eqn:Hu; [|done].
    exfalso. apply (Hcur e He3).
    apply covered_under with (a := cd_path a); [|done].
    apply Hdone; auto. apply under_segments in Hu. lia.
Qed.

Lemma trash_inv_loop n k st :
  trash_inv cds k st →
  trash_inv cds (k + n)
    (foldl (λ st depth, trashDepth trashMethod depth st) st (seq (S k) n)).
Proof.
  revert k st. induction n as [|n IH]; intros k st Hinv; simpl.
  - by rewrite Nat.add_0_r.
  - replace (k + S n)%nat with (S k + n)%nat by lia.
    apply IH. by apply trash_inv_step.
Qed.

(** Under a trash policy nothing below a removed folder is trashed. *)
Lemma trashConfigs_below t a x :
  a ∈ cds → is_folder a = true → under (cd_path a) x = true →
  x ∉ trashed (trashConfigs trashMethod cds t).2.
Proof.
  intros Ha Hf Hu. unfold trashConfigs.
  set (folders := filter (λ e, is_folder e = true) cds).
  set (maxDepth := max_list (Js.segments ∘ cd_path <$> folders)).
  assert (a ∈ folders) as Hfa by (by apply list_elem_of_filter).
  case_bool_decide as Hnil; [rewrite Hnil in Hfa; by apply elem_of_nil in Hfa|].
  pose proof (trash_inv_loop maxDepth 0 _ (trash_inv_init t)) as Hinv.
  simpl in Hinv.
  destruct Hinv as (R & Hcur & _ & Hdone & Htr).
  rewrite foldl_deletionMethod_trace, trashed_app, trashed_trashEffect.
  intros [Hx|(e & -> & He)%list_elem_of_fmap]%elem_of_app.
  - specialize (Htr x a Hx Ha Hf). congruence.
  - apply (Hcur e He). apply covered_under with (a := cd_path a); [|done].
    apply Hdone; auto. apply max_list_elem_of_le.
    apply (list_elem_of_fmap_2 (Js.segments ∘ cd_path)) in Hfa. done.
Qed.

End trash.

(** ** Pull: removal of internal files, permanent removal *)

Section permanent.
Implicit Types (s : ObsidianGoogleDrive * list Effect) (x f : string).

Lemma rmdirs_app tr1 tr2 : rmdirs (tr1 ++ tr2) = rmdirs tr1 ++ rmdirs tr2.
Proof. apply omap_app. Qed.

Lemma rmdirIfEmpty_rmdirs f s :
  rmdirs (rmdirIfEmpty f s).2 = rmdirs s.2
  ∨ rmdirs (rmdirIfEmpty f s).2 = rmdirs s.2 ++ [f].
Proof.
  unfold rmdirIfEmpty. destruct (has_entries _ _); [by left|right].
  simpl. by rewrite rmdirs_app.
Qed.

Lemma rmdir_batch_rmdirs (batch : list string) s :
  ∃ l, rmdirs (foldl (λ s folder, rmdirIfEmpty folder s) s batch).2
       = rmdirs s.2 ++ l
     ∧ ∀ x, x ∈ l → x ∈ batch.
Proof.
  revert s. induction batch as [|f batch IH]; intros s; simpl.
  - exists []. split; [by rewrite app_nil_r|]. intros x Hx.
    by apply elem_of_nil in Hx.
  - destruct (IH (rmdirIfEmpty f s)) as (l & -> & Hl).
    destruct (rmdirIfEmpty_rmdirs f s) as [->| ->].
    + exists l. split; [done|]. intros x Hx. apply elem_of_cons. auto.
    + exists (f :: l). split; [by rewrite <- app_assoc|].
      intros x [->|Hx]%elem_of_cons; apply elem_of_cons; auto.
Qed.

Lemma remove_files_rmdirs (l : list ConfigDeletion) s :
  rmdirs (foldl (λ s e, (set_app (set_adapter (delete (cd_path e))) s.1,
                         s.2 ++ [AdapterRemove (cd_path e)])) s l).2
  = rmdirs s.2.
Proof.
  revert s. induction l as [|e l IH]; intros s; simpl; [done|].
  rewrite IH. simpl. by rewrite rmdirs_app, app_nil_r.
Qed.

Lemma same_depth_sorted (l : list string) (n : nat) :
  (∀ x, x ∈ l → Js.segments x = n) → StronglySorted deeper l.
Proof.
  induction l as [|x l IH]; intros Hl; constructor.
  - apply IH. intros y Hy. apply Hl. by apply elem_of_cons; right.
  - apply Forall_forall. intros y Hy. unfold deeper.
    rewrite (Hl x), (Hl y); [done| |]; apply elem_of_cons; auto.
Qed.

(** Batches taken from the deepest to the shallowest keep the calls of
    [rmdir] ordered by depth. *)
Lemma rmdir_batches_sorted (paths : list string) (n : nat) s :
  StronglySorted deeper (rmdirs s.2) →
  (∀ x, x ∈ rmdirs s.2 → (n ≤ Js.segments x)%nat) →
  StronglySorted deeper
    (rmdirs
       (foldl (λ s batch, foldl (λ s folder, rmdirIfEmpty folder s) s batch) s
          (reverse ((λ depth, filter (λ x, Js.segments x = depth) paths)
                      <$> seq 1 n))).2).
Proof.
  revert s. induction n as [|n IH]; intros s Hsorted Hdeep; [done|].
  rewrite seq_S, fmap_app, reverse_app, foldl_app. simpl.
  set (batch := filter (λ x, Js.segments x = S n) paths).
  destruct (rmdir_batch_rmdirs batch s) as (l & Hl & Hsub).
  assert (∀ x, x ∈ l → Js.segments x = S n) as Hdepth.
  { intros x Hx. apply Hsub in Hx.
    by apply list_elem_of_filter in Hx as [? _]. }
  apply IH; rewrite Hl.
  - apply StronglySorted_app; repeat split; [|done|].
    + intros x1 x2 Hx1 Hx2. unfold deeper.
      rewrite (Hdepth x2 Hx2). by apply Hdeep.
    + by apply (same_depth_sorted l (S n)).
  - intros x [Hx|Hx]%elem_of_app.
    + specialize (Hdeep x Hx). lia.
    + rewrite (Hdepth x Hx). lia.
Qed.

Lemma removeConfigs_sorted (cds : list ConfigDeletion) t :
  StronglySorted deeper (rmdirs (removeConfigs cds t).2).
Proof.
  unfold removeConfigs, foldersToBatches. simpl.
  apply rmdir_batches_sorted; rewrite remove_files_rmdirs; simpl.
  - constructor.
  - intros x Hx. by apply elem_of_nil in Hx.
Qed.

(** Under permanent removal no [rmdir] of a folder comes before an
    [rmdir] of something below it. *)
Lemma removeConfigs_order (cds : list ConfigDeletion) t a d l1 l2 :
  under a d = true →
  (removeConfigs cds t).2 = l1 ++ AdapterRmdir a :: l2 →
  AdapterRmdir d ∉ l2.
Proof.
  intros Hu Htr Hin.
  pose proof (removeConfigs_sorted cds t) as Hs.
  rewrite Htr, rmdirs_app in Hs.
  apply StronglySorted_app in Hs as (_ & _ & Hs).
  change (rmdirs (AdapterRmdir a :: l2)) with (a :: rmdirs l2) in Hs.
  apply StronglySorted_cons in Hs as [Hall _].
  rewrite Forall_forall in Hall.
  assert (d ∈ rmdirs l2) as Hd.
  { unfold rmdirs. apply list_elem_of_omap. by exists (AdapterRmdir d). }
  specialize (Hall d Hd). unfold deeper in Hall.
  apply under_segments in Hu. lia.
Qed.

End permanent.

Lemma trashed_elem_of (tr : list Effect) (x : string) :
  TrashLocal x ∈ tr ∨ TrashSystem x ∈ tr → x ∈ trashed tr.
Proof.
  unfold trashed. rewrite list_elem_of_omap.
  intros [H|H]; eexists; (split; [exact H|done]).
Qed.

(** C9, as the code has it.  In pull's internal/config removal phase, for
    removed directories one of which lies below the other: under permanent
    removal the directories are taken by decreasing number of path
    segments, so no [rmdir] of the descendant comes after an [rmdir] of the
    ancestor; under the local-trash and system-trash policies the
    directories are taken by increasing number of segments and no disposal
    call is issued for the descendant at all. *)
Theorem config_removal_order (changes : list Change) (t : ObsidianGoogleDrive)
    (a d : ConfigDeletion) :
  a ∈ configDeletions changes t →
  d ∈ configDeletions changes t →
  is_folder a = true →
  is_folder d = true →
  under (cd_path a) (cd_path d) = true →
  (trashOption (app t) = "local" ∨ trashOption (app t) = "system" →
     (TrashLocal (cd_path d) ∉ (deleteConfigs changes t).2)
     ∧ (TrashSystem (cd_path d) ∉ (deleteConfigs changes t).2))
  ∧ (trashOption (app t) ≠ "local" → trashOption (app t) ≠ "system" →
     ∀ l1 l2,
       (deleteConfigs changes t).2 = l1 ++ AdapterRmdir (cd_path a) :: l2 →
       AdapterRmdir (cd_path d) ∉ l2).
Proof.
  intros Ha Hd Hfa Hfd Hu. unfold deleteConfigs. split.
  - intros Hpolicy.
    assert (String.eqb (trashOption (app t)) "local"
            || String.eqb (trashOption (app t)) "system" = true) as ->.
    { destruct Hpolicy as [-> | ->]; reflexivity. }
    pose proof (trashConfigs_below (trashOption (app t))
                  (configDeletions changes t) t a (cd_path d) Ha Hfa Hu) as Hno.
    split; intros Hin; apply Hno, trashed_elem_of; auto.
  - intros Hl Hs.
    apply String.eqb_neq in Hl, Hs. rewrite Hl, Hs. simpl.
    intros l1 l2. by apply removeConfigs_order.
Qed.

Lemma config_removal_order_witness :
  (trashOption (app config_plugin) = "local"
   ∨ trashOption (app config_plugin) = "system" →
     (TrashLocal (cd_path folder_xy)
        ∉ (deleteConfigs config_changes config_plugin).2)
     ∧ (TrashSystem (cd_path folder_xy)
        ∉ (deleteConfigs config_changes config_plugin).2))
  ∧ (trashOption (app config_plugin) ≠ "local" →
     trashOption (app config_plugin) ≠ "system" →
     ∀ l1 l2,
       (deleteConfigs config_changes config_plugin).2
       = l1 ++ AdapterRmdir (cd_path folder_x) :: l2 →
       AdapterRmdir (cd_path folder_xy) ∉ l2).
Proof.
  apply (config_removal_order config_changes config_plugin folder_x folder_xy).
  - vm_compute. apply elem_of_cons. by left.
  - vm_compute. apply elem_of_cons. right. apply elem_of_cons. by left.
  - reflexivity.
  - reflexivity.
  - reflexivity.
Defined.

(** Permanent removal on the same two folders: the inner one first. *)
Lemma permanent_removal_inner_first :
  (deleteConfigs config_changes config_plugin_permanent).2
  = [AdapterRmdir ".x/y"; AdapterRmdir ".x"].
Proof. vm_compute. reflexivity. Qed.

(** The claim of C9 read on the code, local-trash policy: [.x] and [.x/y]
    are both removed directories, and the only disposal call is the one for
    [.x]; none is issued for [.x/y], before or after. *)
Lemma trash_skips_descendant :
  folder_x ∈ configDeletions config_changes config_plugin
  ∧ folder_xy ∈ configDeletions config_changes config_plugin
  ∧ under (cd_path folder_x) (cd_path folder_xy) = true
  ∧ (deleteConfigs config_changes config_plugin).2 = [TrashLocal ".x"]
  ∧ ¬ issued_before (TrashLocal ".x/y") (TrashLocal ".x")
        (deleteConfigs config_changes config_plugin).2.
Proof.
  assert ((deleteConfigs config_changes config_plugin).2 = [TrashLocal ".x"])
    as Htr by (vm_compute; reflexivity).
  split; [|split; [|split; [|split]]].
  - vm_compute. apply elem_of_cons. by left.
  - vm_compute. apply elem_of_cons. right. apply elem_of_cons. by left.
  - reflexivity.
  - exact Htr.
  - rewrite Htr. intros (l1 & l2 & l3 & Heq).
    destruct l1 as [|? [|? ?]]; simplify_eq/=; destruct l2; simplify_eq/=.
Qed.

(** ** Push: before the confirmation *)

Section hidden_scan.
Context (hiddenFiles : list FileMetadata).
Implicit Types (t : ObsidianGoogleDrive) (p q : string).

Lemma trackHidden_rest t p :
  driveIdToPath (settings (trackHidden hiddenFiles t p))
    = driveIdToPath (settings t)
  ∧ checkpoint (trackHidden hiddenFiles t p) = checkpoint t
  ∧ app (trackHidden hiddenFiles t p) = app t
  ∧ syncing (trackHidden hiddenFiles t p) = syncing t.
Proof. unfold trackHidden. by repeat case_match. Qed.

Lemma trackHidden_entry t p q :
  scan_entry [p] t (trackHidden hiddenFiles t p) q.
Proof.
  unfold scan_entry, trackHidden.
  destruct (Ops.get (operations (settings t)) p) as [v|] eqn:Hg; simpl;
    [by left|].
  apply get_undefined in Hg as [Hop Hproto].
  repeat case_match; simpl; try (by left);
    (destruct (decide (p = q)) as [->|];
     [rewrite write_lookup by auto; right; repeat split; auto;
      apply list_elem_of_singleton; done
     |rewrite write_lookup_ne by done; by left]).
Qed.

Lemma scan_entry_trans ps1 ps2 t1 t2 t3 q :
  scan_entry ps1 t1 t2 q → scan_entry ps2 t2 t3 q →
  scan_entry (ps1 ++ ps2) t1 t3 q.
Proof.
  unfold scan_entry, operation, Ops.read.
  intros [H12|(H1 & Hq & H12)] [H23|(H2 & Hq' & H23)].
  - left. congruence.
  - rewrite H12 in H2. right. rewrite elem_of_app. auto.
  - right. rewrite H23, elem_of_app. auto.
  - destruct H12 as [H12|H12]; rewrite H12 in H2; done.
Qed.

Lemma hiddenScan_rest (l : list string) t :
  driveIdToPath (settings (hiddenScan hiddenFiles l t))
    = driveIdToPath (settings t)
  ∧ checkpoint (hiddenScan hiddenFiles l t) = checkpoint t
  ∧ app (hiddenScan hiddenFiles l t) = app t
  ∧ syncing (hiddenScan hiddenFiles l t) = syncing t.
Proof.
  unfold hiddenScan. generalize (hiddenLocalFiles l). intros ps.
  revert t. induction ps as [|p ps IH]; intros t; simpl; [done|].
  destruct (IH (trackHidden hiddenFiles t p)) as (-> & -> & -> & ->).
  apply trackHidden_rest.
Qed.

Lemma hiddenScan_entry (l : list string) t q :
  scan_entry (hiddenLocalFiles l) t (hiddenScan hiddenFiles l t) q.
Proof.
  unfold hiddenScan. generalize (hiddenLocalFiles l). intros ps.
  revert t. induction ps as [|p ps IH]; intros t; simpl; [by left|].
  apply (scan_entry_trans [p] ps _ (trackHidden hiddenFiles t p));
    [apply trackHidden_entry|apply IH].
Qed.

End hidden_scan.

(** The claim of C5 read on the code: a hidden note the log does not track
    and Drive does not hold; the user cancels the confirmation at once.  The
    log has gained a [create] entry. *)
Lemma cancelled_push_keeps_scanned_entry :
  proceed (hidden_session false) = false
  ∧ operations (settings hidden_plugin) !! ".hidden.md" = None
  ∧ operations (settings
      (push empty_drive obsidian_fires (hidden_session false) hidden_plugin).1)
      !! ".hidden.md"
    = Some (Some OpCreate).
Proof. repeat split; vm_compute; reflexivity. Qed.

Lemma undo_effect_quiet (c : UndoCall) : remote_write (undo_effect c) = false.
Proof. by destruct c. Qed.

(** C5, as the code has it.  When the user cancels push's confirmation,
    push returns there: what follows the dialog - the silent pull, the
    delete, create, modify and config phases, the clearing of the log, the
    advance of the checkpoint - does not happen.  Push has called the
    remote store to make sure of the root folder and to search the hidden
    files, and the reverts confirmed inside the dialog have sent their read
    requests; none of these calls deletes, creates or updates a remote
    object.  The plugin is
    as the dialog left it.  When no revert was confirmed this is the plugin
    as the scan for hidden files left it, which runs before the dialog: the
    Remote-ID Index, the Sync Checkpoint, the sync flag and the local store
    are as they were, every log entry is in place, and hidden local files
    the log did not track have gained a [create] or [modify] entry. *)
Theorem push_cancelled (drive : Drive) (fires : Firing) (session : Session)
    (t : ObsidianGoogleDrive) :
  syncing t = false →
  proceed session = false →
  push drive fires session t
    = ((dialog drive session t).1,
       GetRootFolderId :: SearchHiddenFiles
       :: (undo_effect <$> (dialog drive session t).2))
  ∧ Forall (λ e, remote_write e = false) (push drive fires session t).2
  ∧ (dialog drive session t = (scanned drive session t, []) →
     push drive fires session t
       = (scanned drive session t, [GetRootFolderId; SearchHiddenFiles]))
  ∧ driveIdToPath (settings (scanned drive session t))
    = driveIdToPath (settings t)
  ∧ checkpoint (scanned drive session t) = checkpoint t
  ∧ syncing (scanned drive session t) = syncing t
  ∧ app (scanned drive session t) = app t
  ∧ ∀ q, scan_entry (hiddenLocalFiles (allLocalFiles session)) t
           (scanned drive session t) q.
Proof.
  intros Hs Hp.
  assert (push drive fires session t
          = ((dialog drive session t).1,
             GetRootFolderId :: SearchHiddenFiles
             :: (undo_effect <$> (dialog drive session t).2))) as Hpush.
  { unfold push, offered, opening. by rewrite Hs, Hp. }
  split; [done|]. rewrite Hpush. simpl.
  split.
  { do 2 (constructor; [done|]). apply Forall_fmap, Forall_true.
    intros c. apply undo_effect_quiet. }
  split; [by intros ->|].
  destruct (hiddenScan_rest (searchHiddenFiles drive) (allLocalFiles session) t)
    as (? & ? & ? & ?).
  repeat split; try done. intros q. apply hiddenScan_entry.
Qed.

Lemma push_cancelled_witness :
  push empty_drive obsidian_fires (hidden_session false) hidden_plugin
    = (scanned empty_drive (hidden_session false) hidden_plugin,
       [GetRootFolderId; SearchHiddenFiles])
  ∧ checkpoint (scanned empty_drive (hidden_session false) hidden_plugin)
    = checkpoint hidden_plugin
  ∧ operations (settings
      (scanned empty_drive (hidden_session false) hidden_plugin))
      !! ".hidden.md"
    = Some (Some OpCreate).
Proof.
  destruct (push_cancelled empty_drive obsidian_fires (hidden_session false)
              hidden_plugin eq_refl eq_refl)
    as (_ & _ & Hquiet & _ & Hc & _ & _ & _).
  split; [apply Hquiet; reflexivity|]. split; [exact Hc|].
  vm_compute. reflexivity.
Defined.

(** ** What a pull leaves alone *)

Section preserved.
Context {S : Type} (P : S → Prop).

Lemma foldl_preserves {A : Type} (f : S → A → S) (l : list A) (s : S) :
  (∀ s a, P s → P (f s a)) → P s → P (foldl f s l).
Proof.
  intros Hf. revert s. induction l as [|a l IH]; intros s Hs; simpl; auto.
Qed.

Lemma map_state_preserves {A B : Type} (f : A → S → S * B)
    (l : list A) (s : S) :
  (∀ a s, P s → P (f a s).1) → P s → P (map_state f l s).1.
Proof.
  intros Hf. revert s. induction l as [|a l IH]; intros s Hs; simpl; [done|].
  specialize (Hf a s Hs). destruct (f a s) as [s1 b].
  specialize (IH s1 Hf). by destruct (map_state f l s1).
Qed.

Lemma filter_state_preserves {A : Type} (f : A → S → S * bool)
    (l : list A) (s : S) :
  (∀ a s, P s → P (f a s).1) → P s → P (filter_state f l s).1.
Proof.
  intros Hf. revert s. induction l as [|a l IH]; intros s Hs; simpl; [done|].
  specialize (Hf a s Hs). destruct (f a s) as [s1 b].
  specialize (IH s1 Hf). by destruct (filter_state f l s1).
Qed.

Lemma map_state_Forall {A B : Type} (Q : B → Prop) (f : A → S → S * B)
    (l : list A) (s : S) :
  (∀ a s, Q (f a s).2) → Forall Q (map_state f l s).2.
Proof.
  intros Hf. revert s. induction l as [|a l IH]; intros s; simpl;
    [constructor|].
  specialize (Hf a s). destruct (f a s) as [s1 b].
  specialize (IH s1). destruct (map_state f l s1). simpl in *.
  by constructor.
Qed.

End preserved.

Section pull_frame.
Context (drive : Drive) (fires : Firing) (session : Session).
Implicit Types (t : ObsidianGoogleDrive) (c : Z * string).

Local Abbreviation quiet := (Forall (λ e, remote_write e = false)).

Lemma restore_checkpoint p old t : checkpoint (restore p old t) = checkpoint t.
Proof. unfold restore. by destruct old. Qed.

Lemma createFolder_checkpoint p t :
  checkpoint (createFolder fires p t) = checkpoint t.
Proof. unfold createFolder. by rewrite restore_checkpoint. Qed.

Lemma modifyFile_checkpoint f content date t :
  checkpoint (modifyFile fires f content date t) = checkpoint t.
Proof. unfold modifyFile. by rewrite restore_checkpoint. Qed.

Lemma upsertFile_checkpoint p content date t :
  checkpoint (upsertFile fires p content date t) = checkpoint t.
Proof. unfold upsertFile. by rewrite restore_checkpoint. Qed.

Lemma deleteFile_checkpoint f t :
  checkpoint (deleteFile fires f t) = checkpoint t.
Proof. unfold deleteFile. by case_bool_decide. Qed.

Lemma deletions_checkpoint changes t :
  checkpoint (deletions changes t).1 = checkpoint t.
Proof.
  unfold deletions.
  apply (map_state_preserves (λ t', checkpoint t' = checkpoint t)); [|done].
  intros a s <-. unfold resolveRemoval. by repeat case_match.
Qed.

Lemma deleteFiles_checkpoint pathToId l t :
  checkpoint (deleteFiles fires pathToId l t).1 = checkpoint t.
Proof.
  unfold deleteFiles. rewrite deleteFiles_selection_unfold. simpl.
  apply (foldl_preserves (λ t', checkpoint t' = checkpoint t)).
  { intros s f <-. apply deleteFile_checkpoint. }
  apply (filter_state_preserves (λ t', checkpoint t' = checkpoint t)).
  { intros a s <-. unfold keepDeletedFolder. by repeat case_match. }
  apply (filter_state_preserves (λ t', checkpoint t' = checkpoint t)); [|done].
  intros a s <-. unfold keepDeletedFile. by repeat case_match.
Qed.

Lemma deleteFiles_quiet pathToId l t :
  quiet (deleteFiles fires pathToId l t).2.
Proof.
  unfold deleteFiles. rewrite deleteFiles_selection_unfold. simpl.
  apply Forall_fmap, Forall_true. done.
Qed.

Lemma upsertNote_checkpoint file t :
  checkpoint (upsertNote (getFile drive) fires file t).1 = checkpoint t.
Proof.
  unfold upsertNote. repeat case_match; simpl; try done.
  - apply modifyFile_checkpoint.
  - apply upsertFile_checkpoint.
Qed.

Lemma upsertNote_quiet file t :
  quiet (upsertNote (getFile drive) fires file t).2.
Proof. unfold upsertNote. repeat case_match; simpl; by repeat constructor. Qed.

Lemma upsertFolder_checkpoint folder t :
  checkpoint (upsertFolder fires folder t).1 = checkpoint t.
Proof.
  unfold upsertFolder. case_match; simpl; [done|].
  by rewrite createFolder_checkpoint.
Qed.

Lemma upsertFolder_quiet folder t : quiet (upsertFolder fires folder t).2.
Proof. unfold upsertFolder. case_match; simpl; by repeat constructor. Qed.

Lemma quiet_concat (trs : list (list Effect)) :
  Forall quiet trs → quiet (concat trs).
Proof.
  induction 1 as [|tr trs Htr _ IH]; simpl; [constructor|].
  by apply Forall_app.
Qed.

Lemma upsertFiles_checkpoint files t :
  checkpoint (upsertFiles (getFile drive) fires files t).1 = checkpoint t.
Proof.
  unfold upsertFiles, upsertNotes.
  set (folders := concat _). set (notes := filter _ files).
  pose proof (map_state_preserves (λ t', checkpoint t' = checkpoint t)
                (upsertFolder fires) folders t) as H1.
  destruct (map_state (upsertFolder fires) folders t) as [t1 created].
  pose proof (map_state_preserves (λ t', checkpoint t' = checkpoint t)
                (upsertNote (getFile drive) fires) notes t1) as H2.
  destruct (map_state _ notes t1) as [t2 done]. simpl in *.
  apply H2.
  - intros a s <-. apply upsertNote_checkpoint.
  - apply H1; [|done]. intros a s <-. apply upsertFolder_checkpoint.
Qed.

Lemma upsertFiles_quiet files t :
  quiet (upsertFiles (getFile drive) fires files t).2.
Proof.
  unfold upsertFiles, upsertNotes.
  set (folders := concat _). set (notes := filter _ files).
  pose proof (map_state_Forall quiet (upsertFolder fires) folders t
                upsertFolder_quiet) as H1.
  destruct (map_state (upsertFolder fires) folders t) as [t1 created].
  pose proof (map_state_Forall quiet (upsertNote (getFile drive) fires)
                notes t1 upsertNote_quiet) as H2.
  destruct (map_state _ notes t1) as [t2 done]. simpl in *.
  apply Forall_app. split; by apply quiet_concat.
Qed.

End pull_frame.

Section pull_frame_configs.
Context (drive : Drive) (fires : Firing) (session : Session).
Implicit Types (t : ObsidianGoogleDrive)
  (s : ObsidianGoogleDrive * list Effect).

Local Abbreviation quiet := (Forall (λ e, remote_write e = false)).

Lemma deletionMethod_kept m p c s : kept c s → kept c (deletionMethod m p s).
Proof.
  intros [Hc Hq]. split; [done|]. simpl. apply Forall_app. split; [done|].
  repeat constructor. unfold trashEffect. by destruct (String.eqb _ _).
Qed.

Lemma rmdirIfEmpty_kept f c s : kept c s → kept c (rmdirIfEmpty f s).
Proof.
  intros [Hc Hq]. unfold rmdirIfEmpty. case_match; [done|].
  split; [done|]. simpl. apply Forall_app. by repeat constructor.
Qed.

Lemma trashConfigs_kept m cds t : kept (checkpoint t) (trashConfigs m cds t).
Proof.
  unfold trashConfigs.
  apply (foldl_preserves (kept (checkpoint t))).
  { intros s e. apply deletionMethod_kept. }
  assert (kept (checkpoint t) (t, [])) as H0 by (split; [done|constructor]).
  case_bool_decide; [done|].
  apply (foldl_preserves (λ st, kept (checkpoint t) st.2)); [|done].
  intros st depth Hst. unfold trashDepth. simpl.
  apply (foldl_preserves (kept (checkpoint t))); [|done].
  intros s e. apply deletionMethod_kept.
Qed.

Lemma removeConfigs_kept cds t : kept (checkpoint t) (removeConfigs cds t).
Proof.
  unfold removeConfigs.
  apply (foldl_preserves (kept (checkpoint t))).
  { intros s batch Hs. apply (foldl_preserves (kept (checkpoint t))); [|done].
    intros s' f. apply rmdirIfEmpty_kept. }
  apply (foldl_preserves (kept (checkpoint t)));
    [|split; [done|constructor]].
  intros s e [Hc Hq]. split; [done|]. simpl. apply Forall_app.
  by repeat constructor.
Qed.

Lemma deleteConfigs_kept changes t :
  checkpoint (deleteConfigs changes t).1 = checkpoint t
  ∧ quiet (deleteConfigs changes t).2.
Proof.
  unfold deleteConfigs. case_match.
  - apply trashConfigs_kept.
  - apply removeConfigs_kept.
Qed.

Lemma endSync_rest_quiet retain t :
  quiet (endSync_rest drive fires session retain t).2.
Proof. unfold endSync_rest. case_match; simpl; by repeat constructor. Qed.

Lemma endSync_quiet retain t : quiet (endSync drive fires session retain t).2.
Proof.
  unfold endSync. pose proof (endSync_rest_quiet retain t) as H.
  destruct (endSync_rest _ _ _ _ _) as [t' tr]. simpl in *.
  destruct retain; simpl; [by constructor|done].
Qed.

(** A pull, silent or not, calls nothing that changes the remote store. *)
Lemma pull_quiet silenceNotices t :
  quiet (pull drive fires session silenceNotices t).2.
Proof.
  unfold pull, pull_run.
  repeat (case_match; simpl; try (by repeat constructor)).
  all: repeat match goal with
       | H : deleteFiles ?f ?m ?l ?t = _ |- _ =>
           pose proof (deleteFiles_quiet f m l t); rewrite H in *; clear H
       | H : upsertFiles ?g ?f ?l ?t = _ |- _ =>
           pose proof (upsertFiles_quiet drive f l t); rewrite H in *; clear H
       | H : deleteConfigs ?c ?t = _ |- _ =>
           pose proof (deleteConfigs_kept c t) as [_ ?]; rewrite H in *; clear H
       | H : endSync ?d ?f ?s ?r ?t = _ |- _ =>
           pose proof (endSync_quiet r t); rewrite H in *; clear H
       end; simpl in *.
  all: repeat (constructor; [done|]).
  all: repeat (apply Forall_app; split); try done; by repeat constructor.
Qed.

(** A silent pull leaves the Sync Checkpoint where it is. *)
Lemma pull_silent_checkpoint t :
  checkpoint (pull drive fires session true t).1 = checkpoint t.
Proof.
  unfold pull, pull_run. simpl.
  destruct (searchRecentlyModified drive) as [recent|]; [|done].
  destruct (getChanges drive) as [changes|]; [|done].
  pose proof (deletions_checkpoint changes t) as Hd.
  destruct (deletions changes t) as [t1 removals]. simpl in Hd.
  case_match; [done|].
  set (t2 := set_driveIdToPath _ t1).
  set (pathToId := updateMap _ _).
  pose proof (deleteFiles_checkpoint fires pathToId removals t2) as H1.
  destruct (deleteFiles fires pathToId removals t2) as [t3 tr1].
  pose proof (upsertFiles_checkpoint drive fires
                (recent ++ filter (λ f, lastSyncedAt (settings t) < modifiedTime f)
                                  (searchHiddenFiles drive)) t3) as H2.
  destruct (upsertFiles _ fires _ t3) as [t4 tr2].
  pose proof (deleteConfigs_kept changes t4) as [H3 _].
  destruct (deleteConfigs changes t4) as [t5 tr3]. simpl in *.
  rewrite H3, H2, H1. done.
Qed.

End pull_frame_configs.

(** ** Push: the delete phase *)

Lemma quiet_filter (tr : list Effect) :
  Forall (λ e, remote_write e = false) tr →
  filter (λ e, remote_write e = true) tr = [].
Proof.
  induction 1 as [|e tr He _ IH]; [done|].
  rewrite filter_cons. case_decide; [congruence|done].
Qed.

Lemma push_confirmed (drive : Drive) (fires : Firing) (session : Session)
    (t : ObsidianGoogleDrive) :
  syncing t = false → proceed session = true → connected session = true →
  push drive fires session t
  = (let r := push_from_pull drive fires session
                (pulled drive fires session t).1 in
     (r.1, opening drive session t ++ (pulled drive fires session t).2 ++ r.2)).
Proof.
  intros Hs Hp Hc. unfold push, pulled. rewrite Hs, Hp, Hc. simpl.
  destruct (pull _ _ _ _ _) as [t1 tr1]. simpl.
  by destruct (push_from_pull _ _ _ t1).
Qed.

Lemma opening_quiet (drive : Drive) (session : Session)
    (t : ObsidianGoogleDrive) :
  Forall (λ e, remote_write e = false) (opening drive session t).
Proof.
  unfold opening. do 2 (constructor; [done|]).
  apply Forall_fmap, Forall_true. intros c. apply undo_effect_quiet.
Qed.

(** C6.  When the batch remote-delete of push's delete phase answers with
    the failure sentinel, push raises a notice and returns there.  The
    plugin is as the silent pull left it: the log holds every [delete] entry
    the delete set was taken from, it has not been cleared, and the Sync
    Checkpoint is where it was when the dialog closed.  The failed batch
    delete is the only call to the remote store that changes it: no create
    and no modify phase has run. *)
Theorem push_delete_failure (drive : Drive) (fires : Firing)
    (session : Session) (t : ObsidianGoogleDrive)
    (configOnDrive : list string) :
  syncing t = false →
  proceed session = true →
  connected session = true →
  searchConfigPaths drive = Some configOnDrive →
  deleteSet configOnDrive (pulled drive fires session t).1 ≠ [] →
  batchDelete drive
    (deleteIds (deleteSet configOnDrive (pulled drive fires session t).1)
       (pulled drive fires session t).1) = false →
  (push drive fires session t).1 = (pulled drive fires session t).1
  ∧ (push drive fires session t).2
    = GetRootFolderId :: SearchHiddenFiles
      :: (undo_effect <$> (dialog drive session t).2)
      ++ (pulled drive fires session t).2
      ++ [SearchFiles ConfigObjects;
          BatchDelete
            (deleteIds (deleteSet configOnDrive (pulled drive fires session t).1)
               (pulled drive fires session t).1);
          NewNotice "An error occurred deleting Google Drive files."]
  ∧ filter (λ e, remote_write e = true) (push drive fires session t).2
    = [BatchDelete
         (deleteIds (deleteSet configOnDrive (pulled drive fires session t).1)
            (pulled drive fires session t).1)]
  ∧ (∀ p, p ∈ paths_with OpDelete
                (entries (operations (settings (pulled drive fires session t).1))) →
          operation (push drive fires session t).1 p = Some OpDelete)
  ∧ checkpoint (push drive fires session t).1
    = checkpoint (offered drive session t).
Proof.
  intros Hs Hp Hc Hcfg Hne Hfail.
  rewrite (push_confirmed drive fires session t Hs Hp Hc). simpl.
  set (t1 := (pulled drive fires session t).1) in *.
  assert (push_from_pull drive fires session t1
          = (t1, [SearchFiles ConfigObjects;
                  BatchDelete (deleteIds (deleteSet configOnDrive t1) t1);
                  NewNotice "An error occurred deleting Google Drive files."]))
    as ->.
  { unfold push_from_pull, deletePhase. rewrite Hcfg.
    rewrite bool_decide_eq_false_2 by done.
    fold (deleteIds (deleteSet configOnDrive t1) t1). by rewrite Hfail. }
  simpl. repeat split.
  - change (GetRootFolderId :: SearchHiddenFiles
            :: (undo_effect <$> (dialog drive session t).2) ++ ?l)
      with (opening drive session t ++ l).
    rewrite !filter_app.
    rewrite (quiet_filter (opening _ _ _)) by apply opening_quiet.
    rewrite quiet_filter by apply pull_quiet. done.
  - intros p Hin. apply operation_lookup. by apply paths_with_lookup.
  - unfold t1, pulled. by rewrite pull_silent_checkpoint.
Qed.

Lemma push_delete_failure_witness :
  (push (deleting_drive false) obsidian_fires plain_session deleting_plugin).1
    = (pulled (deleting_drive false) obsidian_fires plain_session
         deleting_plugin).1
  ∧ (push (deleting_drive false) obsidian_fires plain_session deleting_plugin).2
    = GetRootFolderId :: SearchHiddenFiles
      :: (undo_effect
            <$> (dialog (deleting_drive false) plain_session deleting_plugin).2)
      ++ (pulled (deleting_drive false) obsidian_fires plain_session
            deleting_plugin).2
      ++ [SearchFiles ConfigObjects;
          BatchDelete
            (deleteIds
               (deleteSet []
                  (pulled (deleting_drive false) obsidian_fires plain_session
                     deleting_plugin).1)
               (pulled (deleting_drive false) obsidian_fires plain_session
                  deleting_plugin).1);
          NewNotice "An error occurred deleting Google Drive files."]
  ∧ filter (λ e, remote_write e = true)
      (push (deleting_drive false) obsidian_fires plain_session
         deleting_plugin).2
    = [BatchDelete
         (deleteIds
            (deleteSet []
               (pulled (deleting_drive false) obsidian_fires plain_session
                  deleting_plugin).1)
            (pulled (deleting_drive false) obsidian_fires plain_session
               deleting_plugin).1)]
  ∧ (∀ p, p ∈ paths_with OpDelete
                (entries (operations (settings
                   (pulled (deleting_drive false) obsidian_fires plain_session
                      deleting_plugin).1))) →
          operation
            (push (deleting_drive false) obsidian_fires plain_session
               deleting_plugin).1 p = Some OpDelete)
  ∧ checkpoint
      (push (deleting_drive false) obsidian_fires plain_session
         deleting_plugin).1
    = checkpoint (offered (deleting_drive false) plain_session deleting_plugin).
Proof.
  apply (push_delete_failure (deleting_drive false) obsidian_fires
           plain_session deleting_plugin []).
  - reflexivity.
  - reflexivity.
  - reflexivity.
  - reflexivity.
  - vm_compute. discriminate.
  - reflexivity.
Defined.

(** The keys the delete phase removes from the index are the paths of the
    delete set; an id that is not itself one of those paths keeps its
    entry. *)
Lemma deletePhase_index (drive : Drive) (pathsToIds : gmap string string)
    (deletes : list string) (t t' : ObsidianGoogleDrive) (tr : list Effect)
    (id : string) :
  deletePhase drive pathsToIds deletes t = (Some t', tr) →
  id ∉ deletes →
  driveIdToPath (settings t') !! id = driveIdToPath (settings t) !! id.
Proof.
  unfold deletePhase. case_bool_decide; [by intros [= <- _]|].
  destruct (batchDelete drive _); simpl; [|done].
  intros [= <- _] Hid. simpl.
  generalize (driveIdToPath (settings t)). clear -Hid.
  induction deletes as [|p deletes IH]; intros m; simpl; [done|].
  apply not_elem_of_cons in Hid as [Hne Hid].
  rewrite IH by done. by apply lookup_delete_ne.
Qed.

(** C7 on the code.  The note [a.md], known to Drive as [id1], is pending
    [delete]; the batch remote-delete succeeds on [id1].  After the delete
    phase, and after the whole push, the index still maps [id1] to
    [a.md]: line 410 deletes the key [a.md], a path, from a map keyed by
    ids. *)
Theorem deleted_object_stays_indexed :
  deleteSet [] deleting_plugin = ["a.md"]
  ∧ (deletePhase (deleting_drive true)
       (invert (driveIdToPath (settings deleting_plugin)))
       ["a.md"] deleting_plugin).2
    = [BatchDelete [Some "id1"]]
  ∧ (λ t, driveIdToPath (settings t) !! "id1")
      <$> (deletePhase (deleting_drive true)
             (invert (driveIdToPath (settings deleting_plugin)))
             ["a.md"] deleting_plugin).1
    = Some (Some "a.md")
  ∧ BatchDelete [Some "id1"]
      ∈ (push (deleting_drive true) obsidian_fires plain_session
           deleting_plugin).2
  ∧ driveIdToPath (settings
      (push (deleting_drive true) obsidian_fires plain_session
         deleting_plugin).1) !! "id1"
    = Some "a.md".
Proof.
  split; [vm_compute; reflexivity|].
  split; [vm_compute; reflexivity|].
  split; [vm_compute; reflexivity|].
  split; [|vm_compute; reflexivity].
  assert ((push (deleting_drive true) obsidian_fires plain_session
             deleting_plugin).2
          = [GetRootFolderId; SearchHiddenFiles;
             SearchFiles (ModifiedAfter 0); SearchHiddenFiles;
             GetChanges "page-1"; SearchFiles ConfigObjects;
             BatchDelete [Some "id1"]; GetConfigFilesToSync;
             UpdateSettingsFile None
               (settings (set_operations (λ _, {["a.md" := Some OpDelete]})
                            deleting_plugin));
             GetChangesStartToken; EndSync; NewNotice "Sync complete!"]) as ->.
  { vm_compute. reflexivity. }
  do 6 (apply elem_of_cons; right). apply elem_of_cons. by left.
Qed.

(** * Further properties of the code *)

(** ** The event handlers ([main.ts], lines 432-492) *)

Section handlers_more.
Implicit Types (ops : Operations) (f file : TAbstractFile) (p : string)
  (e : VaultEvent).

Lemma dispatch_lookup_congr e ops ops' :
  ops !! path (event_file e) = ops' !! path (event_file e) →
  dispatch e ops !! path (event_file e)
  = dispatch e ops' !! path (event_file e).
Proof.
  intros Heq.
  assert (Ops.read ops (path (event_file e))
          = Ops.read ops' (path (event_file e))) as Hr
    by (unfold Ops.read; by rewrite Heq).
  destruct e as [f|f|f]; simpl in *;
    unfold handleCreate, handleDelete, handleModify, Ops.holds;
    rewrite Hr; repeat case_match; try done;
    unfold Ops.write, Ops.remove; rewrite <- ?Heq;
    repeat case_match; by rewrite ?lookup_insert_eq, ?lookup_delete_eq.
Qed.

Lemma replay_app evs1 evs2 ops :
  replay (evs1 ++ evs2) ops = replay evs2 (replay evs1 ops).
Proof. unfold replay. apply foldl_app. Qed.

Lemma replay_excluded evs ops :
  Forall (λ e, shouldSyncFile (path (event_file e)) = false) evs →
  replay evs ops = ops.
Proof.
  revert ops. induction evs as [|e evs IH]; intros ops Hall; [done|].
  inversion_clear Hall. simpl. rewrite dispatch_excluded by done. by apply IH.
Qed.

End handlers_more.

(** X1.  An event on a path the sync filter rejects leaves the whole
    Operation Log as it is, whatever the event and the log: create, delete
    and modify events, and a rename between two rejected paths. *)
Theorem excluded_paths_never_logged (evs : list VaultEvent)
    (file : TAbstractFile) (oldPath : string) (ops : Operations) :
  Forall (λ e, shouldSyncFile (path (event_file e)) = false) evs →
  shouldSyncFile (path file) = false →
  shouldSyncFile oldPath = false →
  replay evs ops = ops ∧ handleRename file oldPath ops = ops.
Proof.
  intros Hevs Hnew Hold. split; [by apply replay_excluded|].
  unfold handleRename, handleCreate, handleDelete. simpl.
  by rewrite Hold, Hnew.
Qed.

Lemma excluded_paths_never_logged_witness :
  replay [OnCreate (TFile ".git/config" 0);
          OnModify (TFile "sub/.DS_Store" 0);
          OnDelete (TFolder "node_modules/x" [])]
    {["a.md" := Some OpCreate]}
  = {["a.md" := Some OpCreate]}
  ∧ handleRename (TFile ".obsidian/workspace.json" 0)
      ".obsidian/workspace-mobile.json" {["a.md" := Some OpCreate]}
    = {["a.md" := Some OpCreate]}.
Proof.
  apply (excluded_paths_never_logged _ (TFile ".obsidian/workspace.json" 0)
           ".obsidian/workspace-mobile.json").
  - repeat constructor.
  - vm_compute. reflexivity.
  - vm_compute. reflexivity.
Defined.

(** X2.  The entry of a path depends on the events of that path only: in
    any sequence of events, the entry of [p] afterwards is the one the
    events on [p] alone produce. *)
Theorem entries_evolve_per_path (evs : list VaultEvent) (ops : Operations)
    (p : string) :
  replay evs ops !! p
  = replay (filter (λ e, path (event_file e) = p) evs) ops !! p.
Proof.
  enough (∀ ops', ops !! p = ops' !! p →
            replay evs ops !! p
            = replay (filter (λ e, path (event_file e) = p) evs) ops' !! p)
    as H by (by apply H).
  revert ops. induction evs as [|e evs IH]; intros ops ops' Heq; [done|].
  rewrite filter_cons. simpl. case_decide as Hp.
  - simpl. apply IH. subst p. by apply dispatch_lookup_congr.
  - apply IH. by rewrite dispatch_lookup_ne.
Qed.

(** X3.  The handlers keep the log free of [undefined] values: from a log
    whose keys all hold an operation, every sequence of create, delete,
    modify and rename events leads to such a log. *)
Theorem handlers_store_operations_only (evs : list VaultEvent)
    (file : TAbstractFile) (oldPath : string) (ops : Operations) :
  Ops.no_undefined ops →
  Ops.no_undefined (replay evs ops)
  ∧ Ops.no_undefined (handleRename file oldPath (replay evs ops)).
Proof.
  intros Hwf.
  assert (Ops.no_undefined (replay evs ops)) as H1
    by (by apply replay_no_undefined).
  split; [done|]. unfold handleRename.
  apply (dispatch_no_undefined (OnCreate file)).
  by apply (dispatch_no_undefined (OnDelete (TFolder oldPath []))).
Qed.

Lemma handlers_store_operations_only_witness :
  Ops.no_undefined
    (replay [OnCreate (TFile "a.md" 0); OnDelete (TFile "a.md" 0)]
       {["b.md" := Some OpModify]})
  ∧ Ops.no_undefined
      (handleRename (TFile "c.md" 0) "b.md"
         (replay [OnCreate (TFile "a.md" 0); OnDelete (TFile "a.md" 0)]
            {["b.md" := Some OpModify]})).
Proof.
  apply (handlers_store_operations_only _ (TFile "c.md" 0) "b.md").
  intros p. destruct (decide (p = "b.md")) as [->|Hne].
  - rewrite lookup_singleton_eq. discriminate.
  - rewrite lookup_singleton_ne by done. discriminate.
Defined.

(** Modify events are absorbed: once a modify event on a file has
    been handled, or a create event of a file, any number of further modify
    events on it changes nothing in the log. *)
Theorem modify_events_absorbed (file : TAbstractFile) (ops : Operations)
    (n : nat) :
  replay (replicate n (OnModify file)) (handleModify file ops)
  = handleModify file ops
  ∧ (isTFile file = true →
     replay (replicate n (OnModify file)) (handleCreate file ops)
     = handleCreate file ops).
Proof.
  assert (∀ o, handleModify file o = o →
               replay (replicate n (OnModify file)) o = o) as Hfix.
  { intros o Ho. induction n as [|n IH]; [done|]. simpl. by rewrite Ho. }
  assert (∀ o v, v = OpCreate ∨ v = OpModify →
               handleModify file (Ops.write (path file) (Some v) o)
               = Ops.write (path file) (Some v) o) as Hw.
  { intros o v Hv. unfold handleModify.
    destruct (shouldSyncFile (path file)); [|done].
    destruct (decide (path file ≠ "__proto__" ∨ is_Some (o !! path file)))
      as [Hown|Hown].
    - rewrite read_write by done. by destruct Hv as [-> | ->].
    - assert (path file = "__proto__" ∧ o !! path file = None) as [Hp Hn].
      { destruct (decide (path file = "__proto__")) as [Hp|Hp];
          [|by destruct Hown; left].
        destruct (o !! path file) eqn:Ho; [|done].
        destruct Hown. right. eauto. }
      rewrite Hp in *. rewrite !write_proto by done.
      by case_match. }
  split; [|intros Hfile]; apply Hfix.
  - assert (handleModify file ops = ops
            ∨ handleModify file ops
              = Ops.write (path file) (Some OpModify) ops) as [H|H]
      by (unfold handleModify; repeat case_match; auto).
    + by rewrite !H.
    + rewrite H. apply Hw. by right.
  - assert ((shouldSyncFile (path file) = false ∧ handleCreate file ops = ops)
            ∨ ∃ v, (v = OpCreate ∨ v = OpModify)
                   ∧ handleCreate file ops
                     = Ops.write (path file) (Some v) ops)
      as [[Hs H]|(v & Hv & H)].
    { unfold handleCreate. rewrite Hfile.
      destruct (shouldSyncFile (path file)); [right|by left].
      case_match; eauto. }
    + rewrite H. unfold handleModify. by rewrite Hs.
    + rewrite H. by apply Hw.
Qed.

Lemma modify_events_absorbed_witness :
  replay (replicate 3 (OnModify (TFile "n.md" 0)))
    (handleModify (TFile "n.md" 0) {["n.md" := Some OpDelete]})
  = handleModify (TFile "n.md" 0) {["n.md" := Some OpDelete]}
  ∧ replay (replicate 3 (OnModify (TFile "n.md" 0)))
      (handleCreate (TFile "n.md" 0) {["n.md" := Some OpDelete]})
    = handleCreate (TFile "n.md" 0) {["n.md" := Some OpDelete]}.
Proof.
  destruct (modify_events_absorbed (TFile "n.md" 0)
              {["n.md" := Some OpDelete]} 3) as [H1 H2].
  split; [exact H1|]. apply H2. reflexivity.
Defined.

(** X4.  Creating an entry and deleting it again cancels: on a path, other
    than the name [__proto__], with no pending operation the log is back to
    what it was, key by key.  The other way round only does so for
    folders: deleting and re-creating a file leaves [modify] behind. *)
Theorem create_then_delete_cancels (file : TAbstractFile) (ops : Operations) :
  path file ≠ "__proto__" →
  ops !! path file = None →
  handleDelete file (handleCreate file ops) = ops
  ∧ (shouldSyncFile (path file) = true →
     handleCreate file (handleDelete file ops)
     = if isTFile file then <[path file := Some OpModify]> ops else ops).
Proof.
  intros Hproto Hnone.
  assert (Ops.read ops (path file) = None) as Hr
    by (unfold Ops.read; by rewrite Hnone).
  split.
  - unfold handleDelete, handleCreate, Ops.holds.
    destruct (shouldSyncFile (path file)); [|done].
    rewrite Hr. simpl. rewrite read_write by auto. simpl.
    rewrite write_insert by auto.
    unfold Ops.remove. rewrite delete_insert_eq.
    by apply delete_id.
  - intros Hs. unfold handleDelete, handleCreate, Ops.holds.
    rewrite Hs, Hr. simpl. rewrite read_write by auto. simpl.
    rewrite !write_insert by auto.
    unfold Ops.remove. destruct (isTFile file).
    + by rewrite insert_insert_eq.
    + rewrite delete_insert_eq. by apply delete_id.
Qed.

Lemma create_then_delete_cancels_witness :
  handleDelete (TFile "n.md" 0)
    (handleCreate (TFile "n.md" 0) {["b.md" := Some OpModify]})
  = {["b.md" := Some OpModify]}
  ∧ handleCreate (TFile "n.md" 0)
      (handleDelete (TFile "n.md" 0) {["b.md" := Some OpModify]})
    = <["n.md" := Some OpModify]> {["b.md" := Some OpModify]}.
Proof.
  destruct (create_then_delete_cancels (TFile "n.md" 0)
              {["b.md" := Some OpModify]}) as [H1 H2].
  { discriminate. }
  { simpl. by rewrite lookup_singleton_ne. }
  split; [exact H1|]. apply H2. vm_compute. reflexivity.
Defined.

(** X5.  A rename between two accepted paths, neither of them the name
    [__proto__], moves the pending work: the old path ends up without an entry when the file had only been created
    since the last sync and with [delete] otherwise; the new path gets
    [create], or [modify] (file) resp. no entry (folder) when a [delete] was
    pending there; no other entry changes. *)
Theorem rename_moves_entry (file : TAbstractFile) (oldPath : string)
    (ops : Operations) :
  shouldSyncFile oldPath = true →
  shouldSyncFile (path file) = true →
  oldPath ≠ "__proto__" →
  path file ≠ "__proto__" →
  oldPath ≠ path file →
  Ops.read (handleRename file oldPath ops) oldPath
  = (if Ops.holds ops oldPath OpCreate then None else Some OpDelete)
  ∧ Ops.read (handleRename file oldPath ops) (path file)
    = (if Ops.holds ops (path file) OpDelete
       then if isTFile file then Some OpModify else None
       else Some OpCreate)
  ∧ ∀ q, q ≠ oldPath → q ≠ path file →
         handleRename file oldPath ops !! q = ops !! q.
Proof.
  intros Hold Hnew Hp1 Hp2 Hne.
  unfold handleRename, handleCreate, handleDelete. simpl. rewrite Hold, Hnew.
  assert (∀ o, Ops.holds
                 (if Ops.holds ops oldPath OpCreate
                  then Ops.remove oldPath ops
                  else Ops.write oldPath (Some OpDelete) ops) (path file) o
               = Ops.holds ops (path file) o) as Hh.
  { intros o. unfold Ops.holds.
    destruct (bool_decide (Ops.read ops oldPath = Some OpCreate));
      by rewrite ?read_remove_ne, ?read_write_ne. }
  rewrite Hh.
  destruct (Ops.holds ops oldPath OpCreate),
           (Ops.holds ops (path file) OpDelete), (isTFile file);
    (split; [|split; [|intros q Hq1 Hq2]]);
    rewrite ?read_write, ?read_remove by auto;
    rewrite ?read_write_ne, ?read_remove_ne by done;
    rewrite ?read_write, ?read_remove by auto; try done;
    unfold Ops.remove;
    repeat first [rewrite write_lookup_ne by congruence
                 |rewrite lookup_delete_ne by congruence]; done.
Qed.

Lemma rename_moves_entry_witness :
  Ops.read (handleRename (TFile "b.md" 0) "a.md" {["a.md" := Some OpCreate]})
    "a.md"
  = (if Ops.holds {["a.md" := Some OpCreate]} "a.md" OpCreate
     then None else Some OpDelete)
  ∧ Ops.read (handleRename (TFile "b.md" 0) "a.md"
                {["a.md" := Some OpCreate]}) (path (TFile "b.md" 0))
    = (if Ops.holds {["a.md" := Some OpCreate]} (path (TFile "b.md" 0))
            OpDelete
       then if isTFile (TFile "b.md" 0) then Some OpModify else None
       else Some OpCreate)
  ∧ ∀ q, q ≠ "a.md" → q ≠ path (TFile "b.md" 0) →
         handleRename (TFile "b.md" 0) "a.md" {["a.md" := Some OpCreate]} !! q
         = ({["a.md" := Some OpCreate]} : Operations) !! q.
Proof.
  apply (rename_moves_entry (TFile "b.md" 0) "a.md").
  - vm_compute. reflexivity.
  - vm_compute. reflexivity.
  - discriminate.
  - discriminate.
  - discriminate.
Defined.

(** X6.  Renaming an untracked entry and renaming it back does not cancel
    for a file: its old path is left with a [modify] entry although nothing
    changed; for a folder the log is back to what it was.  Neither path is
    the name [__proto__]. *)
Theorem rename_back_leaves_modify (there back : TAbstractFile)
    (ops : Operations) :
  shouldSyncFile (path there) = true →
  shouldSyncFile (path back) = true →
  path there ≠ "__proto__" →
  path back ≠ "__proto__" →
  path there ≠ path back →
  ops !! path there = None →
  ops !! path back = None →
  handleRename back (path there) (handleRename there (path back) ops)
  = if isTFile back then <[path back := Some OpModify]> ops else ops.
Proof.
  intros Hs1 Hs2 Hp1 Hp2 Hne H1 H2.
  assert (Ops.read ops (path back) = None) as Hr2
    by (unfold Ops.read; by rewrite H2).
  assert (Ops.read ops (path there) = None) as Hr1
    by (unfold Ops.read; by rewrite H1).
  unfold handleRename, handleCreate, handleDelete, Ops.holds. simpl.
  rewrite Hs1, Hs2, Hr2. simpl.
  rewrite read_write_ne, Hr1 by done. simpl.
  rewrite read_write by auto. simpl.
  rewrite read_remove_ne, read_write_ne, read_write by auto. simpl.
  rewrite !write_insert by auto.
  unfold Ops.remove.
  rewrite delete_insert_eq.
  rewrite (delete_id (<[path back:=Some OpDelete]> ops))
    by (by rewrite lookup_insert_ne).
  destruct (isTFile back).
  - by rewrite insert_insert_eq.
  - rewrite delete_insert_eq. by apply delete_id.
Qed.

Lemma rename_back_leaves_modify_witness :
  handleRename (TFile "a.md" 0) (path (TFile "b.md" 0))
    (handleRename (TFile "b.md" 0) (path (TFile "a.md" 0)) ∅)
  = if isTFile (TFile "a.md" 0)
    then <[path (TFile "a.md" 0) := Some OpModify]> ∅ else ∅.
Proof.
  apply (rename_back_leaves_modify (TFile "b.md" 0) (TFile "a.md" 0)).
  - vm_compute. reflexivity.
  - vm_compute. reflexivity.
  - discriminate.
  - discriminate.
  - discriminate.
  - apply lookup_empty.
  - apply lookup_empty.
Defined.

(** ** The sync filter ([main.ts], lines 472-486) *)

Lemma startsWith_append s pre r :
  Js.startsWith s pre = true → Js.startsWith (s +:+ r) pre = true.
Proof.
  revert s. induction pre as [|a pre IH]; intros s H; [done|].
  destruct s as [|b s]; [done|]. rewrite append_cons. simpl in *.
  destruct (Ascii.eqb a b); [by apply IH|done].
Qed.

Lemma includes_append s pat r :
  Js.includes s pat = true → Js.includes (s +:+ r) pat = true.
Proof.
  induction s as [|b s IH]; intros H.
  - simpl in H. rewrite orb_false_r in H.
    destruct pat; [|done]. by destruct r.
  - rewrite append_cons. simpl in *. apply orb_true_iff in H as [H|H].
    + apply (startsWith_append _ _ r) in H. rewrite append_cons in H.
      by rewrite H.
    + rewrite IH by done. by rewrite orb_true_r.
Qed.

(** X7.  The sync filter is closed under extension: when it rejects a path
    it rejects every path that continues it, so everything below an
    excluded folder and every name that goes on after an excluded name is
    left out of the sync. *)
Theorem rejected_path_rejects_extensions (p rest : string) :
  shouldSyncFile p = false → shouldSyncFile (p +:+ rest) = false.
Proof.
  unfold shouldSyncFile. rewrite !negb_false_iff.
  generalize excludePatterns. intros l. induction l as [|pat l IH]; [done|].
  simpl. intros H. apply orb_true_iff in H as [H|H].
  - apply orb_true_iff. left. destruct (Js.endsWith pat "/").
    + by apply startsWith_append.
    + by apply includes_append.
  - rewrite IH by done. by rewrite orb_true_r.
Qed.

Lemma rejected_path_rejects_extensions_witness :
  shouldSyncFile (".git/" +:+ "hooks/pre-commit") = false.
Proof.
  apply (rejected_path_rejects_extensions ".git/" "hooks/pre-commit").
  vm_compute. reflexivity.
Defined.

(** ** The local-apply helpers and the whole log ([main.ts], lines 494-566) *)

Section helpers_more.
Context (fires : Firing) (Hfires : fires_written_path fires).
Implicit Types (t : ObsidianGoogleDrive) (p q : string) (c : VaultCall).

Lemma deliver_lookup_ne c q t :
  call_path c ≠ q →
  operations (settings (deliver fires c t)) !! q
  = operations (settings t) !! q.
Proof.
  intros Hne. unfold deliver. simpl.
  apply replay_lookup_ne. apply Forall_forall. intros e He.
  by rewrite (Hfires _ _ _ He).
Qed.

Lemma restore_deliver_log c (f : App → App) t :
  Js.inherited (call_path c) = false →
  operations (settings t) !! call_path c ≠ Some None →
  operations (settings (restore (call_path c)
                          (Ops.get (operations (settings t)) (call_path c))
                          (set_app f (deliver fires c t))))
  = operations (settings t).
Proof.
  intros Hplain Hwf. apply map_eq. intros q.
  destruct (decide (call_path c = q)) as [<-|Hne].
  - rewrite restore_lookup by (by apply inherited_proto).
    rewrite get_plain by done. by rewrite <- read_stored.
  - rewrite restore_lookup_ne by done. simpl. by apply deliver_lookup_ne.
Qed.

End helpers_more.

(** X8.  When the events of a vault write concern the written path only
    and that path is not named like a member of [Object.prototype], each of
    the four local-apply helpers returns the Operation Log exactly as it
    found it: applying remote content locally records no operation on any
    path. *)
Theorem helpers_leave_log (fires : Firing) (t : ObsidianGoogleDrive)
    (p : string) (file : TAbstractFile) (content : ArrayBuffer)
    (modificationDate : option Z) :
  fires_written_path fires →
  Js.inherited p = false →
  Js.inherited (path file) = false →
  Ops.no_undefined (operations (settings t)) →
  operations (settings (createFolder fires p t)) = operations (settings t)
  ∧ operations (settings (createFile fires p content modificationDate t))
    = operations (settings t)
  ∧ operations (settings (modifyFile fires file content modificationDate t))
    = operations (settings t)
  ∧ operations (settings (upsertFile fires p content modificationDate t))
    = operations (settings t).
Proof.
  intros Hfires Hp Hfile Hwf.
  unfold createFolder, createFile, modifyFile, upsertFile.
  unfold vault_createFolder, vault_createBinary, vault_modifyBinary,
    adapter_writeBinary.
  split; [|split; [|split]].
  - by apply (restore_deliver_log fires Hfires (CreateFolder p)).
  - by apply (restore_deliver_log fires Hfires (CreateBinary p)).
  - by apply (restore_deliver_log fires Hfires (ModifyBinary (path file))).
  - by apply (restore_deliver_log fires Hfires (WriteBinary p)).
Qed.

Lemma helpers_leave_log_witness :
  operations (settings (createFolder obsidian_fires "F" hidden_plugin))
  = operations (settings hidden_plugin)
  ∧ operations (settings (createFile obsidian_fires "F" [] (Some 7)
                            hidden_plugin))
    = operations (settings hidden_plugin)
  ∧ operations (settings (modifyFile obsidian_fires (TFile ".hidden.md" 3) []
                            (Some 7) hidden_plugin))
    = operations (settings hidden_plugin)
  ∧ operations (settings (upsertFile obsidian_fires "F" [] (Some 7)
                            hidden_plugin))
    = operations (settings hidden_plugin).
Proof.
  apply (helpers_leave_log obsidian_fires hidden_plugin "F"
           (TFile ".hidden.md" 3) [] (Some 7)).
  - apply obsidian_fires_written_path.
  - reflexivity.
  - reflexivity.
  - intros q. simpl. by rewrite lookup_empty.
Defined.

(** X9.  [deleteFile] forgets the path: whatever was pending for it and
    whatever events the trash fires, its key is gone from the log
    afterwards, so a removal applied from the remote side is not pushed
    back as a [delete]; the index is not touched.  When the events concern
    the trashed path only, the rest of the log is unchanged. *)
Theorem deleteFile_forgets_path (fires : Firing) (file : TAbstractFile)
    (t : ObsidianGoogleDrive) :
  operations (settings (deleteFile fires file t)) !! path file = None
  ∧ driveIdToPath (settings (deleteFile fires file t))
    = driveIdToPath (settings t)
  ∧ (fires_written_path fires →
     operations (settings (deleteFile fires file t))
     = delete (path file) (operations (settings t))).
Proof.
  unfold deleteFile, trashFile.
  split; [|split].
  - case_bool_decide; simpl; unfold Ops.remove; by rewrite !lookup_delete_eq.
  - by case_bool_decide.
  - intros Hfires. apply map_eq. intros q.
    destruct (decide (path file = q)) as [<-|Hne].
    + case_bool_decide; simpl; unfold Ops.remove;
        by rewrite !lookup_delete_eq.
    + rewrite lookup_delete_ne by done.
      pose proof (deliver_lookup_ne fires Hfires (TrashFile (path file)) q t
                    Hne) as Hd.
      case_bool_decide; simpl in *; unfold Ops.remove;
        by rewrite !lookup_delete_ne.
Qed.

Lemma deleteFile_forgets_path_witness :
  operations (settings (deleteFile obsidian_fires (TFile ".hidden.md" 3)
                          hidden_plugin)) !! ".hidden.md"
  = None
  ∧ driveIdToPath (settings (deleteFile obsidian_fires (TFile ".hidden.md" 3)
                               hidden_plugin))
    = driveIdToPath (settings hidden_plugin)
  ∧ operations (settings (deleteFile obsidian_fires (TFile ".hidden.md" 3)
                            hidden_plugin))
    = delete ".hidden.md" (operations (settings hidden_plugin)).
Proof.
  destruct (deleteFile_forgets_path obsidian_fires (TFile ".hidden.md" 3)
              hidden_plugin) as (H1 & H2 & H3).
  split; [exact H1|]. split; [exact H2|].
  apply H3. apply obsidian_fires_written_path.
Defined.

(** ** [endSync] ([main.ts], lines 579-609) *)

Section endSync_more.
Context (drive : Drive) (fires : Firing) (session : Session).
Implicit Types (t : ObsidianGoogleDrive).

(** The fields the rewrite of the config files cannot reach. *)
Lemma rewrite_configs_rest (files : list string) t :
  let t' :=
    foldl (λ t file,
             match adapter (app t) !! file with
             | Some (DiskFile content _) =>
                 adapter_writeBinary fires file content (Some (now session)) t
             | _ => t
             end) t files in
  lastSyncedAt (settings t') = lastSyncedAt (settings t)
  ∧ changesToken (settings t') = changesToken (settings t)
  ∧ driveIdToPath (settings t') = driveIdToPath (settings t)
  ∧ syncing t' = syncing t.
Proof.
  simpl.
  apply (foldl_preserves
           (λ t', lastSyncedAt (settings t') = lastSyncedAt (settings t)
                  ∧ changesToken (settings t') = changesToken (settings t)
                  ∧ driveIdToPath (settings t') = driveIdToPath (settings t)
                  ∧ syncing t' = syncing t)); [|done].
  intros s file Hs. by repeat case_match.
Qed.

End endSync_more.

(** X10.  [endSync] moves the last-synced time to now in every case, but
    the change token and the sync flag only when Drive hands out a start
    token: without one the checkpoint is left half advanced (new time, old
    token), a notice is raised and [syncing] stays as it was.  Its calls on
    [t.drive] are the request for the config files, with
    [retainConfigChanges] only, and the request for the start token.  The
    index is never touched, and without [retainConfigChanges] neither are
    the log and the local store. *)
Theorem endSync_checkpoint (drive : Drive) (fires : Firing)
    (session : Session) (retain : bool) (t : ObsidianGoogleDrive) :
  lastSyncedAt (settings (endSync drive fires session retain t).1)
  = now session
  ∧ driveIdToPath (settings (endSync drive fires session retain t).1)
    = driveIdToPath (settings t)
  ∧ match getChangesStartToken drive with
    | Some token =>
        changesToken (settings (endSync drive fires session retain t).1)
        = token
        ∧ syncing (endSync drive fires session retain t).1 = false
        ∧ (endSync drive fires session retain t).2
          = (if retain then [GetConfigFilesToSync] else [])
            ++ [GetChangesStartToken; EndSync]
    | None =>
        changesToken (settings (endSync drive fires session retain t).1)
        = changesToken (settings t)
        ∧ syncing (endSync drive fires session retain t).1 = syncing t
        ∧ (endSync drive fires session retain t).2
          = (if retain then [GetConfigFilesToSync] else [])
            ++ [GetChangesStartToken;
                NewNotice
                  "An error occurred fetching Google Drive changes token."]
    end
  ∧ operations (settings (endSync drive fires session false t).1)
    = operations (settings t)
  ∧ app (endSync drive fires session false t).1 = app t.
Proof.
  unfold endSync, endSync_rest.
  pose proof (rewrite_configs_rest fires session (getConfigFilesToSync drive)
                (set_checkpoint (now session) (changesToken (settings t)) t))
    as (H1 & H2 & H3 & H4).
  simpl in H1, H2, H3, H4.
  destruct retain, (getChangesStartToken drive); simpl;
    rewrite ?H1, ?H2, ?H3, ?H4; done.
Qed.

(** ** The index and its inversion ([helpers/pull.ts], lines 87-103;
    [helpers/push.ts], lines 168-173 and 383-385) *)

Section index.
Implicit Types (m acc : gmap string string) (id p : string)
  (l : list (string * string)).

Lemma swap_pairs_sound l acc p id :
  foldl (λ acc '(k, v), <[v := k]> acc) acc l !! p = Some id →
  acc !! p = Some id ∨ (id, p) ∈ l.
Proof.
  revert acc. induction l as [|[k v] l IH]; intros acc H; simpl in *; [by left|].
  apply IH in H as [H|H]; [|right; by apply elem_of_cons; right].
  destruct (decide (v = p)) as [->|Hne].
  - rewrite lookup_insert_eq in H. simplify_eq. right. apply elem_of_cons. by left.
  - rewrite lookup_insert_ne in H by done. by left.
Qed.

Lemma swap_pairs_complete l acc p :
  (is_Some (acc !! p) ∨ ∃ id, (id, p) ∈ l) →
  is_Some (foldl (λ acc '(k, v), <[v := k]> acc) acc l !! p).
Proof.
  revert acc. induction l as [|[k v] l IH]; intros acc H; simpl.
  - destruct H as [H|[id H]]; [done|]. by apply elem_of_nil in H.
  - apply IH. destruct H as [H|[id H]].
    + left. destruct (decide (v = p)) as [->|Hne].
      * by rewrite lookup_insert_eq.
      * by rewrite lookup_insert_ne.
    + apply elem_of_cons in H as [H|H].
      * simplify_eq. left. by rewrite lookup_insert_eq.
      * right. by exists id.
Qed.

Lemma invert_sound m p id : invert m !! p = Some id → m !! id = Some p.
Proof.
  unfold invert. intros H. apply swap_pairs_sound in H as [H|H].
  - by rewrite lookup_empty in H.
  - by apply elem_of_map_to_list in H.
Qed.

Lemma invert_complete m id p : m !! id = Some p → is_Some (invert m !! p).
Proof.
  intros H. unfold invert. apply swap_pairs_complete. right. exists id.
  by apply elem_of_map_to_list.
Qed.

Lemma invert_one_path m p1 p2 id :
  invert m !! p1 = Some id → invert m !! p2 = Some id → p1 = p2.
Proof. intros H1%invert_sound H2%invert_sound. congruence. Qed.

Lemma updateMap_snoc files file m :
  updateMap (files ++ [file]) m
  = if Js.truthy (properties_path file)
    then <[default EmptyString (properties_path file) := file_id file]>
           (updateMap files m)
    else updateMap files m.
Proof. unfold updateMap. by rewrite foldl_app. Qed.

Lemma truthy_Some (v : option string) :
  Js.truthy v = true → v = Some (default EmptyString v) ∧ v ≠ Some EmptyString.
Proof. destruct v as [[|a s]|]; simpl; intros; by simplify_eq. Qed.

Lemma updateMap_sound files m p id :
  updateMap files m !! p = Some id →
  m !! p = Some id
  ∨ ∃ file, file ∈ files ∧ file_id file = id ∧ properties_path file = Some p.
Proof.
  induction files as [|file files IH] using rev_ind; [by left|].
  rewrite updateMap_snoc. intros H.
  assert (updateMap files m !! p = Some id →
          m !! p = Some id
          ∨ ∃ file0, file0 ∈ files ++ [file] ∧ file_id file0 = id
                     ∧ properties_path file0 = Some p) as Hrec.
  { intros [?|(f & ? & ? & ?)]%IH; [by left|]. right. exists f.
    split; [|done]. apply elem_of_app. by left. }
  destruct (Js.truthy (properties_path file)) eqn:Ht; [|by apply Hrec].
  apply truthy_Some in Ht as [Hp _].
  destruct (decide (default EmptyString (properties_path file) = p))
    as [Heq|Hne].
  - rewrite Heq, lookup_insert_eq in H. simplify_eq. right. exists file.
    split; [apply elem_of_app; right; apply elem_of_cons; by left|].
    split; [done|]. by rewrite Hp.
  - rewrite lookup_insert_ne in H by done. by apply Hrec.
Qed.

End index.

(** X11.  Inverting the index twice gives a part of the index in which
    every path of the index still has an id, and exactly one; an index in
    which no two ids share a path comes back unchanged. *)
Theorem invert_twice (m : gmap string string) :
  invert (invert m) ⊆ m
  ∧ (∀ id p, m !! id = Some p → ∃ id', invert (invert m) !! id' = Some p)
  ∧ (∀ id1 id2 p, invert (invert m) !! id1 = Some p →
                  invert (invert m) !! id2 = Some p → id1 = id2)
  ∧ ((∀ id1 id2 p, m !! id1 = Some p → m !! id2 = Some p → id1 = id2) →
     invert (invert m) = m).
Proof.
  assert (∀ id p, invert (invert m) !! id = Some p → m !! id = Some p) as Hs.
  { intros id p H. by apply invert_sound, invert_sound. }
  assert (∀ id p, m !! id = Some p →
                  ∃ id', invert (invert m) !! id' = Some p) as Hc.
  { intros id p H. destruct (invert_complete m id p H) as [id' H1].
    destruct (invert_complete (invert m) p id' H1) as [p' H2].
    exists id'. rewrite H2. f_equal.
    apply invert_sound in H2. by apply (invert_one_path m p' p id'). }
  split; [|split; [|split]].
  - apply map_subseteq_spec. apply Hs.
  - apply Hc.
  - intros id1 id2 p H1%invert_sound H2%invert_sound. congruence.
  - intros Hinj. apply map_eq. intros id.
    destruct (m !! id) as [p|] eqn:Hm.
    + destruct (Hc id p Hm) as [id' H']. pose proof (Hs _ _ H') as Hm'.
      by rewrite <- (Hinj _ _ _ Hm' Hm).
    + destruct (invert (invert m) !! id) as [p|] eqn:H'; [|done].
      apply Hs in H'. congruence.
Qed.

Lemma invert_twice_witness :
  invert (invert {["id1" := "a.md"; "id2" := "b.md"]})
  = ({["id1" := "a.md"; "id2" := "b.md"]} : gmap string string).
Proof.
  apply (invert_twice {["id1" := "a.md"; "id2" := "b.md"]}).
  intros id1 id2 p H1 H2.
  apply lookup_insert_Some in H1, H2.
  rewrite lookup_singleton_Some in H1, H2.
  destruct H1 as [[<- <-]|[? [<- <-]]], H2 as [[<- ?]|[? [<- ?]]];
    congruence.
Defined.

Lemma updateMap_keys (files : list FileMetadata) (m : gmap string string)
    (p : string) :
  is_Some (updateMap files m !! p) →
  is_Some (m !! p) ∨ p ∈ omap truthy_path files.
Proof.
  induction files as [|file files IH] using rev_ind; [by left|].
  rewrite updateMap_snoc, omap_app, elem_of_app. intros H.
  destruct (Js.truthy (properties_path file)) eqn:Ht;
    [|destruct (IH H); auto].
  destruct (decide (default EmptyString (properties_path file) = p))
    as [Heq|Hne].
  - right. right. apply truthy_Some in Ht as [Hp Hne].
    simpl. unfold truthy_path.
    rewrite Hp in *. simpl in *.
    destruct (String.eqb _ EmptyString) eqn:He; simpl.
    + apply String.eqb_eq in He. congruence.
    + subst p. apply elem_of_cons. by left.
  - rewrite lookup_insert_ne in H by done. destruct (IH H); auto.
Qed.

Lemma key_order_elem (inserted : list string) (k : string) :
  k ∈ Js.key_order inserted ↔ k ∈ inserted.
Proof.
  unfold Js.key_order.
  rewrite elem_of_app, merge_sort_Permutation, !list_elem_of_filter.
  destruct (Js.array_index k) as [n|].
  - split; [intros [[_ H]|[_ H]]; done|]. intros H. left. eauto.
  - split; [intros [[_ H]|[_ H]]; done|]. intros H. by right.
Qed.

Lemma insertedPaths_elem (index : gmap string string)
    (files : list FileMetadata) (p : string) :
  p ∈ insertedPaths index files
  ↔ (∃ id, index !! id = Some p) ∨ p ∈ omap truthy_path files.
Proof.
  unfold insertedPaths.
  rewrite elem_of_reverse, elem_of_remove_dups, elem_of_reverse, elem_of_app.
  rewrite list_elem_of_fmap. split; (intros [H|H]; [left|by right]).
  - destruct H as ([id q] & -> & H). exists id.
    by apply elem_of_map_to_list in H.
  - destruct H as [id H]. exists (id, p). split; [done|].
    by apply elem_of_map_to_list.
Qed.

(** The rebuilt index, key by key. *)
Lemma rebuild_sound (pathToId : gmap string string) (keys : list string)
    (acc : gmap string string) (id p : string) :
  foldl (λ acc p, match pathToId !! p with
                  | Some id => <[id := p]> acc
                  | None => acc
                  end) acc keys !! id = Some p →
  acc !! id = Some p ∨ pathToId !! p = Some id.
Proof.
  revert acc. induction keys as [|k keys IH]; intros acc H; [by left|].
  simpl in H. apply IH in H as [H|H]; [|by right].
  destruct (pathToId !! k) as [i|] eqn:Hk; [|by left].
  destruct (decide (i = id)) as [->|Hne].
  - rewrite lookup_insert_eq in H. simplify_eq. by right.
  - rewrite lookup_insert_ne in H by done. by left.
Qed.

Lemma rebuild_complete (pathToId : gmap string string) (keys : list string)
    (acc : gmap string string) (id : string) :
  (is_Some (acc !! id) ∨ ∃ p, p ∈ keys ∧ pathToId !! p = Some id) →
  is_Some (foldl (λ acc p, match pathToId !! p with
                           | Some id => <[id := p]> acc
                           | None => acc
                           end) acc keys !! id).
Proof.
  revert acc. induction keys as [|k keys IH]; intros acc H; simpl.
  - destruct H as [H|(p & H & _)]; [done|]. by apply elem_of_nil in H.
  - apply IH. destruct H as [H|(p & Hin & Hp)].
    + left. destruct (pathToId !! k) as [i|]; [|done].
      destruct (decide (i = id)) as [->|Hne].
      * by rewrite lookup_insert_eq.
      * by rewrite lookup_insert_ne.
    + apply elem_of_cons in Hin as [->|Hin].
      * left. rewrite Hp. by rewrite lookup_insert_eq.
      * right. eauto.
Qed.

Lemma refreshedIndex_sound (index : gmap string string)
    (files : list FileMetadata) (id p : string) :
  refreshedIndex index files !! id = Some p →
  updateMap files (invert index) !! p = Some id.
Proof.
  unfold refreshedIndex. intros [H|H]%rebuild_sound; [|done].
  by rewrite lookup_empty in H.
Qed.

(** After a remote rename the index names the new path, unless the new
    name is an array index, which the object lists before the old path. *)
Lemma remote_rename_installs_new_path :
  refreshedIndex {["id1" := "old.md"]}
    [{| file_id := "id1"; mimeType := "text/markdown";
        properties_path := Some "new.md"; modifiedTime := 5 |}]
  = {["id1" := "new.md"]}
  ∧ refreshedIndex {["id1" := "old.md"]}
      [{| file_id := "id1"; mimeType := "text/markdown";
          properties_path := Some "2024"; modifiedTime := 5 |}]
    = {["id1" := "old.md"]}.
Proof. split; vm_compute; reflexivity. Qed.

(** X12.  The index pull installs after its refresh (lines 87-103) holds
    only pairs it can account for, each id with a path the old index gave
    it or a path a recent remote file carries, and no path under two ids;
    every id the refreshed path-to-id map names is in it. *)
Theorem refreshed_index_sound (allRecentFiles : list FileMetadata)
    (m : gmap string string) :
  (∀ id p, refreshedIndex m allRecentFiles !! id = Some p →
           m !! id = Some p
           ∨ ∃ file, file ∈ allRecentFiles ∧ file_id file = id
                     ∧ properties_path file = Some p)
  ∧ (∀ id1 id2 p,
       refreshedIndex m allRecentFiles !! id1 = Some p →
       refreshedIndex m allRecentFiles !! id2 = Some p →
       id1 = id2)
  ∧ (∀ p id, updateMap allRecentFiles (invert m) !! p = Some id →
             is_Some (refreshedIndex m allRecentFiles !! id)).
Proof.
  split; [|split].
  - intros id p H%refreshedIndex_sound. apply updateMap_sound in H as [H|H].
    + left. by apply invert_sound.
    + by right.
  - intros id1 id2 p H1%refreshedIndex_sound H2%refreshedIndex_sound.
    congruence.
  - intros p id H. unfold refreshedIndex. apply rebuild_complete. right.
    exists p. split; [|done].
    apply key_order_elem, insertedPaths_elem.
    destruct (updateMap_keys allRecentFiles (invert m) p) as [[i Hi]|Hin];
      [by rewrite H| |by right].
    left. exists i. by apply invert_sound.
Qed.

(** X13.  In the refresh of the path-to-id map the last recent file that
    carries a path decides its id; a path no recent file carries keeps the
    id it had, and files without a path (or with an empty one) change
    nothing. *)
Theorem updateMap_last_wins (allRecentFiles : list FileMetadata)
    (pathToId : gmap string string) (p : string) :
  p ≠ EmptyString →
  updateMap allRecentFiles pathToId !! p
  = match last (filter (λ f, properties_path f = Some p) allRecentFiles) with
    | Some file => Some (file_id file)
    | None => pathToId !! p
    end.
Proof.
  intros Hp.
  induction allRecentFiles as [|file files IH] using rev_ind; [done|].
  rewrite updateMap_snoc, filter_app, filter_cons, filter_nil.
  case_decide as Hf.
  - rewrite last_snoc. rewrite Hf. simpl.
    destruct (String.eqb p EmptyString) eqn:He.
    + by apply String.eqb_eq in He.
    + simpl. by rewrite lookup_insert_eq.
  - rewrite app_nil_r.
    destruct (Js.truthy (properties_path file)) eqn:Ht; [|done].
    apply truthy_Some in Ht as [Ht _].
    rewrite lookup_insert_ne; [done|]. intros Heq. apply Hf.
    by rewrite Ht, Heq.
Qed.

Lemma updateMap_last_wins_witness :
  updateMap [remote_note] ∅ !! "n.md"
  = match last (filter (λ f, properties_path f = Some "n.md") [remote_note])
    with
    | Some file => Some (file_id file)
    | None => (∅ : gmap string string) !! "n.md"
    end.
Proof. apply (updateMap_last_wins [remote_note] ∅ "n.md"). discriminate. Defined.

(** ** Pull: the removal loop as a whole ([helpers/pull.ts], lines 65-79) *)

Section removals_more.
Implicit Types (t : ObsidianGoogleDrive) (id x p : string).

Lemma map_state_length {S A B : Type} (f : A → S → S * B) (l : list A)
    (s : S) :
  length (map_state f l s).2 = length l.
Proof.
  revert s. induction l as [|a l IH]; intros s; simpl; [done|].
  destruct (f a s) as [s1 b]. specialize (IH s1).
  destruct (map_state f l s1). simpl in *. by rewrite IH.
Qed.

(** What one or several steps of the loop may have done to the entry of
    [p]: nothing, or a [delete] of a path with no vault entry was dropped. *)
Lemma resolveRemoval_entry x t p :
  operations (settings (resolveRemoval x t).1) !! p
  = operations (settings t) !! p
  ∨ (operations (settings t) !! p = Some (Some OpDelete)
     ∧ operations (settings (resolveRemoval x t).1) !! p = None
     ∧ getAbstractFileByPath (app t) p = None).
Proof.
  unfold resolveRemoval.
  destruct (negb (Js.truthy (driveIdToPath (settings t) !! x))); [by left|].
  simpl.
  set (q := default EmptyString (driveIdToPath (settings t) !! x)).
  destruct (getAbstractFileByPath (app t) q) as [f|] eqn:Hf; simpl;
    [by left|].
  destruct (Ops.holds (operations (settings t)) q OpDelete) eqn:Hh; simpl;
    [|by left].
  destruct (decide (q = p)) as [<-|Hne].
  - right. apply holds_lookup in Hh.
    split; [done|]. split; [|done]. unfold Ops.remove.
    by rewrite lookup_delete_eq.
  - left. unfold Ops.remove. by rewrite lookup_delete_ne.
Qed.

Lemma resolveRemoval_index x t id :
  driveIdToPath (settings (resolveRemoval x t).1) !! id
  = if bool_decide (id = x) && Js.truthy (driveIdToPath (settings t) !! id)
    then None else driveIdToPath (settings t) !! id.
Proof.
  unfold resolveRemoval.
  case_bool_decide as Hid; simpl.
  - subst x.
    destruct (Js.truthy (driveIdToPath (settings t) !! id)); simpl; [|done].
    repeat case_match; simpl; by rewrite lookup_delete_eq.
  - destruct (Js.truthy (driveIdToPath (settings t) !! x)); simpl; [|done].
    repeat case_match; simpl; by rewrite lookup_delete_ne.
Qed.

End removals_more.

Lemma deletions_index (changes : list Change) (t : ObsidianGoogleDrive)
    (id : string) :
  driveIdToPath (settings (deletions changes t).1) !! id
  = if bool_decide (id ∈ removedIds changes)
       && Js.truthy (driveIdToPath (settings t) !! id)
    then None else driveIdToPath (settings t) !! id.
Proof.
  unfold deletions. generalize (removedIds changes). intros ids. revert t.
  induction ids as [|x ids IH]; intros t; simpl; [done|].
  pose proof (resolveRemoval_index x t id) as H1.
  destruct (resolveRemoval x t) as [t1 r]. simpl in *.
  specialize (IH t1). destruct (map_state resolveRemoval ids t1) as [t2 rs].
  simpl in *. rewrite IH, H1. clear IH H1.
  destruct (decide (id = x)) as [->|Hne].
  - rewrite (bool_decide_eq_true_2 (x = x)) by done.
    rewrite (bool_decide_eq_true_2 (x ∈ x :: ids))
      by (apply elem_of_cons; by left).
    simpl.
    destruct (Js.truthy (driveIdToPath (settings t) !! x)) eqn:Ht; simpl.
    + by rewrite andb_false_r.
    + rewrite Ht. by rewrite andb_false_r.
  - rewrite (bool_decide_eq_false_2 (id = x)) by done. simpl.
    destruct (decide (id ∈ ids)) as [Hin|Hin].
    + rewrite (bool_decide_eq_true_2 (id ∈ ids)) by done.
      rewrite (bool_decide_eq_true_2 (id ∈ x :: ids))
        by (apply elem_of_cons; by right). done.
    + rewrite (bool_decide_eq_false_2 (id ∈ ids)) by done.
      rewrite (bool_decide_eq_false_2 (id ∈ x :: ids)); [done|].
      intros [?|?]%elem_of_cons; done.
Qed.

(** X14.  The removal loop only shrinks: it returns one element per removed
    change, leaves the local store alone, drops from the log nothing but
    [delete] entries of paths the vault no longer has, and drops from the
    index exactly the removed ids that had a non-empty path. *)
Theorem removals_only_shrink (changes : list Change)
    (t : ObsidianGoogleDrive) :
  app (deletions changes t).1 = app t
  ∧ length (deletions changes t).2
    = length (filter (λ c, removed c = true) changes)
  ∧ (∀ p, operations (settings (deletions changes t).1) !! p
          = operations (settings t) !! p
          ∨ (operations (settings t) !! p = Some (Some OpDelete)
             ∧ operations (settings (deletions changes t).1) !! p = None
             ∧ getAbstractFileByPath (app t) p = None))
  ∧ (∀ id, driveIdToPath (settings (deletions changes t).1) !! id
           = if bool_decide (id ∈ removedIds changes)
                && Js.truthy (driveIdToPath (settings t) !! id)
             then None else driveIdToPath (settings t) !! id).
Proof.
  split; [|split; [|split]]; [unfold deletions..|].
  - apply (map_state_preserves (λ t', app t' = app t)); [|done].
    intros a s <-. apply resolveRemoval_app.
  - rewrite map_state_length. unfold removedIds. by rewrite length_fmap.
  - intros p. generalize (removedIds changes). intros ids. revert t.
    induction ids as [|x ids IH]; intros t; simpl; [by left|].
    pose proof (resolveRemoval_entry x t p) as H1.
    pose proof (resolveRemoval_app x t) as Ha.
    destruct (resolveRemoval x t) as [t1 r]. simpl in *.
    specialize (IH t1). destruct (map_state resolveRemoval ids t1) as [t2 rs].
    simpl in *. rewrite Ha in IH.
    destruct H1 as [H1|(H1 & H2 & H3)], IH as [IH|(IH1 & IH2 & IH3)].
    + left. congruence.
    + right. rewrite <- H1. done.
    + right. split; [done|]. split; [congruence|done].
    + congruence.
  - intros id. apply deletions_index.
Qed.

(** ** Pull: removed files with local changes ([helpers/pull.ts],
    lines 105-117) *)

Section deletion_phase_files.
Context (pathToId : gmap string string).
Implicit Types (t : ObsidianGoogleDrive) (f a : TAbstractFile).

Lemma keepDeletedFile_modify_dropped l f t :
  Js.truthy_at pathToId (path f) = true →
  operations (settings t) !! path f = Some (Some OpModify) →
  f ∉ (filter_state (keepDeletedFile pathToId) l t).2.
Proof.
  intros Hidx. revert t. induction l as [|a l IH]; intros t Hm; simpl.
  { apply not_elem_of_nil. }
  pose proof (keepDeletedFile_indexed pathToId a t (path f) Hidx) as Ha.
  assert (a = f → (keepDeletedFile pathToId a t).2 = false) as Hdrop.
  { intros ->. unfold keepDeletedFile, Ops.holds, Ops.read. by rewrite Hm. }
  destruct (keepDeletedFile pathToId a t) as [t1 keep]. simpl in *.
  rewrite <- Ha in Hm. specialize (IH t1 Hm).
  destruct (filter_state (keepDeletedFile pathToId) l t1) as [t2 kept].
  simpl in *. destruct keep; [|done].
  apply not_elem_of_cons. split; [|done]. intros ->. by specialize (Hdrop eq_refl).
Qed.

Lemma keepDeletedFile_create a t p :
  operations (settings t) !! p = Some (Some OpCreate) →
  operations (settings (keepDeletedFile pathToId a t).1) !! p
  = Some (Some OpCreate).
Proof.
  intros Hp. unfold keepDeletedFile. repeat case_match; simpl; try done.
  destruct (decide (path a = p)) as [->|];
    [rewrite write_lookup; [done|right; by rewrite Hp]
    |by rewrite write_lookup_ne].
Qed.

Lemma filter_state_keepDeletedFile_create l t p :
  operations (settings t) !! p = Some (Some OpCreate) →
  operations (settings (filter_state (keepDeletedFile pathToId) l t).1) !! p
  = Some (Some OpCreate).
Proof.
  revert t. induction l as [|a l IH]; intros t Hp; simpl; [done|].
  pose proof (keepDeletedFile_create a t p Hp) as Ha.
  destruct (keepDeletedFile pathToId a t) as [t1 keep].
  specialize (IH t1 Ha). by destruct (filter_state _ l t1).
Qed.

Lemma keepDeletedFile_modify_marked l f t :
  f ∈ l →
  Js.truthy_at pathToId (path f) = false →
  operations (settings t) !! path f = Some (Some OpModify) →
  operations (settings (filter_state (keepDeletedFile pathToId) l t).1)
    !! path f
  = Some (Some OpCreate).
Proof.
  intros Hin Hidx. revert t Hin.
  induction l as [|a l IH]; intros t Hin Hm; [by apply elem_of_nil in Hin|].
  simpl.
  destruct (decide (path a = path f)) as [Hp|Hp].
  - assert (operations (settings (keepDeletedFile pathToId a t).1) !! path f
            = Some (Some OpCreate)) as Hc.
    { unfold keepDeletedFile, Ops.holds, Ops.read. rewrite Hp, Hm. simpl.
      rewrite Hidx. simpl.
      apply write_lookup. right. by rewrite Hm. }
    destruct (keepDeletedFile pathToId a t) as [t1 keep].
    pose proof (filter_state_keepDeletedFile_create l t1 (path f) Hc).
    by destruct (filter_state _ l t1).
  - assert (operations (settings (keepDeletedFile pathToId a t).1) !! path f
            = Some (Some OpModify)) as Hc.
    { unfold keepDeletedFile. repeat case_match; simpl; try done.
      by rewrite write_lookup_ne. }
    apply elem_of_cons in Hin as [->|Hin]; [done|].
    destruct (keepDeletedFile pathToId a t) as [t1 keep].
    specialize (IH t1 Hin Hc). by destruct (filter_state _ l t1).
Qed.

End deletion_phase_files.

(** X15.  A file removed remotely that has a pending local [modify] is
    never handed to the local delete when the refreshed path-to-id map
    answers for its path with a truthy value ([pathToId[file.path]], line
    110: the path still maps to a remote id), and its entry stays
    [modify]; when the map answers with a falsy value the entry becomes
    [create], so that the next push uploads the file again. *)
Theorem modified_file_survives_removal (pathToId : gmap string string)
    (deletions : list (option TAbstractFile)) (t : ObsidianGoogleDrive)
    (f : TAbstractFile) :
  Some f ∈ deletions →
  isTFile f = true →
  operations (settings t) !! path f = Some (Some OpModify) →
  if Js.truthy_at pathToId (path f)
  then (f ∉ (deleteFiles_selection pathToId deletions t).2)
       ∧ operations (settings (deleteFiles_selection pathToId deletions t).1)
           !! path f
         = Some (Some OpModify)
  else operations (settings (deleteFiles_selection pathToId deletions t).1)
         !! path f
       = Some (Some OpCreate).
Proof.
  intros Hin Hfile Hm. rewrite deleteFiles_selection_unfold. simpl.
  assert (f ∈ tfiles deletions) as Hin'.
  { unfold tfiles. apply list_elem_of_filter. split; [done|].
    apply list_elem_of_omap. by exists (Some f). }
  destruct (Js.truthy_at pathToId (path f)) eqn:Hidx.
  - split.
    + intros [H|H]%elem_of_app.
      * apply filter_state_subseteq in H.
        by apply tfolders_not_tfiles in H.
      * by apply (keepDeletedFile_modify_dropped pathToId _ f t) in H.
    + rewrite (filter_state_indexed _ _ _ _
                 (λ g s, keepDeletedFolder_indexed pathToId _ g s _ Hidx)).
      rewrite (filter_state_indexed _ _ _ _
                 (λ g s, keepDeletedFile_indexed pathToId g s _ Hidx)).
      done.
  - apply filter_state_keepDeletedFolder_create.
    by apply keepDeletedFile_modify_marked.
Qed.

Lemma modified_file_survives_removal_witness :
  if Js.truthy_at {["F/a.md" := "id1"]} (path note_a)
  then (note_a ∉ (deleteFiles_selection {["F/a.md" := "id1"]} removed_F
                    (plugin_of {["F/a.md" := Some OpModify]} ∅ ∅ ∅)).2)
       ∧ operations (settings
           (deleteFiles_selection {["F/a.md" := "id1"]} removed_F
              (plugin_of {["F/a.md" := Some OpModify]} ∅ ∅ ∅)).1)
           !! path note_a
         = Some (Some OpModify)
  else operations (settings
         (deleteFiles_selection {["F/a.md" := "id1"]} removed_F
            (plugin_of {["F/a.md" := Some OpModify]} ∅ ∅ ∅)).1)
         !! path note_a
       = Some (Some OpCreate).
Proof.
  apply (modified_file_survives_removal {["F/a.md" := "id1"]} removed_F
           (plugin_of {["F/a.md" := Some OpModify]} ∅ ∅ ∅) note_a).
  - unfold removed_F. apply elem_of_cons. right. apply elem_of_cons. by left.
  - reflexivity.
  - reflexivity.
Defined.

(** ** Pull: recent remote folders ([helpers/pull.ts], lines 144-165) *)

Section upsert_folders.
Context (getFile : string → ArrayBuffer) (fires : Firing).
Context (Hfires : fires_written_path fires).
Implicit Types (t : ObsidianGoogleDrive) (p g : string).

Lemma foldersToBatches_elem {A : Type} (key : A → string) (l : list A)
    (x : A) :
  x ∈ concat (foldersToBatches key l) ↔ x ∈ l.
Proof.
  unfold foldersToBatches.
  assert (∀ ds, x ∈ concat ((λ depth : nat,
                    filter (λ y, Js.segments (key y) = depth) l) <$> ds)
                ↔ x ∈ l ∧ Js.segments (key x) ∈ ds) as Hds.
  { induction ds as [|d ds IH]; simpl.
    - split; [by intros ?%elem_of_nil|by intros [_ ?%elem_of_nil]].
    - rewrite elem_of_app, IH, list_elem_of_filter, elem_of_cons.
      naive_solver. }
  rewrite Hds. split; [by intros [? _]|]. intros Hx. split; [done|].
  apply elem_of_seq. pose proof (segments_pos (key x)).
  assert (Js.segments (key x) ≤ max_list (Js.segments ∘ key <$> l))%nat.
  { apply max_list_elem_of_le.
    by apply (list_elem_of_fmap_2 (Js.segments ∘ key)) in Hx. }
  lia.
Qed.

Lemma createFolder_lookup_ne g p t :
  g ≠ p →
  operations (settings (createFolder fires g t)) !! p
  = operations (settings t) !! p.
Proof.
  intros Hne. unfold createFolder. rewrite restore_lookup_ne by done.
  unfold vault_createFolder. simpl.
  by apply (deliver_lookup_ne fires Hfires (CreateFolder g)).
Qed.

Lemma upsertFolder_entry g t :
  Js.inherited g = false →
  operations (settings (upsertFolder fires g t).1) !! g = None.
Proof.
  intros Hplain. unfold upsertFolder. case_match; simpl.
  - unfold Ops.remove. by rewrite lookup_delete_eq.
  - unfold createFolder. rewrite restore_lookup by (by apply inherited_proto).
    rewrite get_plain by done.
    unfold Ops.read. simpl. unfold Ops.remove.
    by rewrite lookup_delete_eq.
Qed.

Lemma upsertFolder_keeps_none g p t :
  Js.inherited p = false →
  operations (settings t) !! p = None →
  operations (settings (upsertFolder fires g t).1) !! p = None.
Proof.
  intros Hplain Hp.
  destruct (decide (g = p)) as [->|Hne]; [by apply upsertFolder_entry|].
  unfold upsertFolder. case_match; simpl.
  - unfold Ops.remove. by rewrite lookup_delete_ne.
  - rewrite createFolder_lookup_ne by done. simpl.
    unfold Ops.remove. by rewrite lookup_delete_ne.
Qed.

Lemma upsertNote_keeps_none file p t :
  Js.inherited p = false →
  operations (settings t) !! p = None →
  operations (settings (upsertNote getFile fires file t).1) !! p = None.
Proof.
  intros Hplain Hp. pose proof (inherited_proto _ Hplain) as Hproto.
  destruct (decide (properties_path file = Some p)) as [Hf|Hf].
  - assert (operation t p = None) as Ho
      by (unfold operation, Ops.read; by rewrite Hp).
    unfold upsertNote. rewrite Hf. simpl.
    destruct (negb (String.eqb p EmptyString)); simpl; [|done].
    rewrite Ho. rewrite !andb_false_r.
    destruct (getFileByPath (app t) p) as [tfile|] eqn:Hg; simpl.
    + apply getFileByPath_path in Hg. unfold modifyFile. rewrite Hg.
      rewrite restore_lookup, get_plain by done. unfold operation in Ho.
      by rewrite Ho.
    + unfold upsertFile. rewrite restore_lookup, get_plain by done.
      unfold operation in Ho. by rewrite Ho.
  - destruct (upsertNote_other getFile fires Hfires file p t Hf) as [H _].
    by rewrite H.
Qed.

Lemma upsertFolders_entry (l : list string) p t :
  Js.inherited p = false →
  p ∈ l →
  operations (settings (map_state (upsertFolder fires) l t).1) !! p = None.
Proof.
  intros Hplain.
  revert t. induction l as [|g l IH]; intros t Hin;
    [by apply elem_of_nil in Hin|].
  simpl. apply elem_of_cons in Hin as [->|Hin].
  - pose proof (upsertFolder_entry g t Hplain) as Hg.
    destruct (upsertFolder fires g t) as [t1 tr]. simpl in *.
    pose proof (map_state_preserves
                  (λ t', operations (settings t') !! g = None)
                  (upsertFolder fires) l t1) as Hl.
    destruct (map_state (upsertFolder fires) l t1) as [t2 trs]. simpl in *.
    apply Hl; [|done]. intros a s. by apply upsertFolder_keeps_none.
  - destruct (upsertFolder fires g t) as [t1 tr].
    specialize (IH t1 Hin).
    by destruct (map_state (upsertFolder fires) l t1).
Qed.

End upsert_folders.

(** X16.  On folders the remote side wins: for every recently modified
    remote folder with a path that is not named like a member of
    [Object.prototype], whatever operation was pending for that path (a
    local [delete] included) is gone from the log when the upsert phase
    ends. *)
Theorem recent_folder_clears_entry (getFile : string → ArrayBuffer)
    (fires : Firing) (allRecentFiles : list FileMetadata)
    (t : ObsidianGoogleDrive) (folder : FileMetadata) (p : string) :
  fires_written_path fires →
  folder ∈ allRecentFiles →
  mimeType folder = folderMimeType →
  properties_path folder = Some p →
  p ≠ EmptyString →
  Js.inherited p = false →
  operations (settings (upsertFiles getFile fires allRecentFiles t).1) !! p
  = None.
Proof.
  intros Hfires Hin Hmime Hpath Hp Hplain. unfold upsertFiles, upsertNotes.
  set (folders := concat _). set (notes := filter _ allRecentFiles).
  assert (p ∈ folders) as Hpin.
  { apply foldersToBatches_elem. apply list_elem_of_omap. exists folder.
    split; [by apply list_elem_of_filter|].
    unfold truthy_path. rewrite Hpath. simpl.
    apply String.eqb_neq in Hp. by rewrite Hp. }
  pose proof (upsertFolders_entry fires Hfires folders p t Hplain Hpin) as H1.
  destruct (map_state (upsertFolder fires) folders t) as [t1 created].
  pose proof (map_state_preserves
                (λ t', operations (settings t') !! p = None)
                (upsertNote getFile fires) notes t1) as H2.
  destruct (map_state _ notes t1) as [t2 done]. simpl in *.
  apply H2; [|done]. intros a s.
  by apply upsertNote_keeps_none.
Qed.

Lemma recent_folder_clears_entry_witness :
  operations (settings
    (upsertFiles one_byte obsidian_fires [remote_folder "F"]
       (plugin_of {["F" := Some OpDelete]} ∅ ∅ ∅)).1) !! "F"
  = None.
Proof.
  apply (recent_folder_clears_entry one_byte obsidian_fires
           [remote_folder "F"] _ (remote_folder "F") "F").
  - apply obsidian_fires_written_path.
  - apply elem_of_cons. by left.
  - reflexivity.
  - reflexivity.
  - discriminate.
  - reflexivity.
Defined.

(** ** Pull: what the phases cannot reach *)

Section pull_rest.
Context (drive : Drive) (fires : Firing) (session : Session).
Implicit Types (t : ObsidianGoogleDrive) (p : string).

Local Abbreviation rest_of t :=
  (λ t', driveIdToPath (settings t') = driveIdToPath (settings t)
         ∧ syncing t' = syncing t).

Lemma restore_rest_of p old t : rest_of t (restore p old t).
Proof. unfold restore. by destruct old. Qed.

Lemma createFolder_rest p t : rest_of t (createFolder fires p t).
Proof. unfold createFolder, restore. by case_match. Qed.

Lemma modifyFile_rest f content date t :
  rest_of t (modifyFile fires f content date t).
Proof. unfold modifyFile, restore. by case_match. Qed.

Lemma upsertFile_rest p content date t :
  rest_of t (upsertFile fires p content date t).
Proof. unfold upsertFile, restore. by case_match. Qed.

Lemma deleteFile_rest f t : rest_of t (deleteFile fires f t).
Proof. unfold deleteFile. by case_bool_decide. Qed.

Lemma deletions_syncing changes t :
  syncing (deletions changes t).1 = syncing t.
Proof.
  unfold deletions.
  apply (map_state_preserves (λ t', syncing t' = syncing t)); [|done].
  intros a s <-. unfold resolveRemoval. by repeat case_match.
Qed.

Lemma deleteFiles_rest pathToId l t :
  rest_of t (deleteFiles fires pathToId l t).1.
Proof.
  unfold deleteFiles. rewrite deleteFiles_selection_unfold. simpl.
  apply (foldl_preserves (rest_of t)).
  { intros s f [<- <-]. apply deleteFile_rest. }
  apply (filter_state_preserves (rest_of t)).
  { intros a s [<- <-]. unfold keepDeletedFolder. by repeat case_match. }
  apply (filter_state_preserves (rest_of t)); [|done].
  intros a s [<- <-]. unfold keepDeletedFile. by repeat case_match.
Qed.

Lemma upsertFiles_rest files t :
  rest_of t (upsertFiles (getFile drive) fires files t).1.
Proof.
  unfold upsertFiles, upsertNotes.
  set (folders := concat _). set (notes := filter _ files).
  pose proof (map_state_preserves (rest_of t)
                (upsertFolder fires) folders t) as H1.
  destruct (map_state (upsertFolder fires) folders t) as [t1 created].
  pose proof (map_state_preserves (rest_of t)
                (upsertNote (getFile drive) fires) notes t1) as H2.
  destruct (map_state _ notes t1) as [t2 done]. simpl in *.
  apply H2.
  - intros a s [<- <-]. unfold upsertNote.
    repeat case_match; simpl; try done.
    + apply modifyFile_rest.
    + apply upsertFile_rest.
  - apply H1; [|done]. intros a s [<- <-]. unfold upsertFolder.
    case_match; simpl; [done|].
    by destruct (createFolder_rest a (set_operations (Ops.remove a) s))
      as [-> ->].
Qed.

(** The internal/config removal phase works on the disk only. *)
Lemma deleteConfigs_disk_only changes t :
  settings (deleteConfigs changes t).1 = settings t
  ∧ syncing (deleteConfigs changes t).1 = syncing t
  ∧ vault (app (deleteConfigs changes t).1) = vault (app t).
Proof.
  set (P := λ t', settings t' = settings t ∧ syncing t' = syncing t
                  ∧ vault (app t') = vault (app t)).
  assert (∀ m x (s : ObsidianGoogleDrive * list Effect),
            P s.1 → P (deletionMethod m x s).1) as Hdm.
  { intros m x s (?&?&?). by repeat split. }
  unfold deleteConfigs. case_match.
  - unfold trashConfigs.
    apply (foldl_preserves (λ s, P s.1)); [intros s e; apply Hdm|].
    case_bool_decide; [done|].
    apply (foldl_preserves
             (λ st : list ConfigDeletion * (ObsidianGoogleDrive * list Effect),
                P st.2.1)); [|done].
    intros st depth Hst. unfold trashDepth. simpl.
    apply (foldl_preserves (λ s, P s.1)); [|done].
    intros s e. apply Hdm.
  - unfold removeConfigs.
    apply (foldl_preserves (λ s, P s.1)).
    { intros s batch Hs. apply (foldl_preserves (λ s, P s.1)); [|done].
      intros s' f (?&?&?). unfold rmdirIfEmpty. case_match; by repeat split. }
    apply (foldl_preserves (λ s, P s.1)); [|done].
    intros s e (?&?&?). by repeat split.
Qed.

Lemma deleteFiles_no_disposal pathToId l t :
  Forall (λ e, disposed e = None) (deleteFiles fires pathToId l t).2.
Proof.
  unfold deleteFiles. rewrite deleteFiles_selection_unfold. simpl.
  apply Forall_fmap, Forall_true. done.
Qed.

Lemma no_disposal_concat (trs : list (list Effect)) :
  Forall (Forall (λ e, disposed e = None)) trs →
  Forall (λ e, disposed e = None) (concat trs).
Proof.
  induction 1 as [|tr trs Htr _ IH]; simpl; [constructor|].
  by apply Forall_app.
Qed.

Lemma upsertFiles_no_disposal files t :
  Forall (λ e, disposed e = None)
    (upsertFiles (getFile drive) fires files t).2.
Proof.
  unfold upsertFiles, upsertNotes.
  set (folders := concat _). set (notes := filter _ files).
  pose proof (map_state_Forall (Forall (λ e, disposed e = None))
                (upsertFolder fires) folders t) as H1.
  destruct (map_state (upsertFolder fires) folders t) as [t1 created].
  pose proof (map_state_Forall (Forall (λ e, disposed e = None))
                (upsertNote (getFile drive) fires) notes t1) as H2.
  destruct (map_state _ notes t1) as [t2 done]. simpl in *.
  apply Forall_app. split; apply no_disposal_concat.
  - apply H1. intros a s. unfold upsertFolder.
    case_match; simpl; by repeat constructor.
  - apply H2. intros a s. unfold upsertNote.
    repeat case_match; simpl; by repeat constructor.
Qed.

Lemma endSync_no_disposal retain t :
  Forall (λ e, disposed e = None) (endSync drive fires session retain t).2.
Proof.
  unfold endSync, endSync_rest.
  destruct retain, (getChangesStartToken drive); simpl;
    by repeat constructor.
Qed.

Lemma omap_none {A B : Type} (f : A → option B) (l : list A) :
  Forall (λ x, f x = None) l → omap f l = [].
Proof.
  induction 1 as [|x l Hx _ IH]; [done|].
  change (omap f (x :: l)) with
    (match f x with Some z => z :: omap f l | None => omap f l end).
  by rewrite Hx.
Qed.

Lemma deleteConfigs_nothing changes t :
  configDeletions changes t = [] → deleteConfigs changes t = (t, []).
Proof.
  intros Hnil. unfold deleteConfigs. rewrite Hnil.
  unfold trashConfigs, removeConfigs. by case_match.
Qed.

End pull_rest.

(** X17.  Inside pull the internal/config removal phase looks the removed
    ids up in the index after the removal loop has dropped them from it; it
    therefore finds a path only for a removed id that a recent remote file
    carries.  When no recent file does, a pull makes no [trashLocal],
    [trashSystem], [remove] or [rmdir] call at all. *)
Theorem config_removal_needs_recent_file (drive : Drive) (fires : Firing)
    (session : Session) (silenceNotices : bool) (t : ObsidianGoogleDrive)
    (recentlyModified : list FileMetadata) (changes : list Change) :
  searchRecentlyModified drive = Some recentlyModified →
  getChanges drive = Some changes →
  (∀ file, file ∈ recentlyModified ++ searchHiddenFiles drive →
           file_id file ∉ removedIds changes) →
  Forall (λ e, disposed e = None)
    (pull drive fires session silenceNotices t).2.
Proof.
  intros Hrecent Hchanges Hfresh. unfold pull, pull_run.
  destruct (negb silenceNotices && syncing t); [constructor|].
  destruct (negb silenceNotices && negb (connected session));
    [by repeat constructor|].
  set (t0 := if silenceNotices then t else set_syncing true t).
  rewrite Hrecent, Hchanges.
  set (all := recentlyModified ++ filter _ (searchHiddenFiles drive)).
  pose proof (deletions_index changes t0) as Hidx.
  destruct (deletions changes t0) as [t1 removals]. simpl in Hidx.
  destruct (bool_decide (all = []) && bool_decide (length removals = 0%nat)).
  { destruct silenceNotices; simpl; by repeat constructor. }
  set (pathToId := updateMap all (invert (driveIdToPath (settings t1)))).
  set (t2 := set_driveIdToPath (λ index, refreshedIndex index all) t1).
  pose proof (deleteFiles_rest fires pathToId removals t2) as [H1 _].
  pose proof (deleteFiles_no_disposal fires pathToId removals t2) as Hq1.
  destruct (deleteFiles fires pathToId removals t2) as [t3 tr1].
  pose proof (upsertFiles_rest drive fires all t3) as [H2 _].
  pose proof (upsertFiles_no_disposal drive fires all t3) as Hq2.
  destruct (upsertFiles (getFile drive) fires all t3) as [t4 tr2].
  simpl in H1, H2, Hq1, Hq2.
  assert (configDeletions changes t4 = []) as Hnone.
  { unfold configDeletions. apply omap_none. apply Forall_forall.
    intros x Hx. unfold configDeletion.
    destruct (driveIdToPath (settings t4) !! x) as [p|] eqn:Hp; [|done].
    simpl. destruct (negb (String.eqb p EmptyString)) eqn:Htr; [|done].
    exfalso. rewrite H2, H1 in Hp. simpl in Hp.
    apply refreshedIndex_sound in Hp.
    apply updateMap_sound in Hp as [Hold|(file & Hin & Hid & _)].
    - apply invert_sound in Hold. rewrite Hidx in Hold.
      rewrite bool_decide_eq_true_2 in Hold by done. simpl in Hold.
      destruct (Js.truthy (driveIdToPath (settings t0) !! x)) eqn:Ht0;
        [done|].
      rewrite Hold in Ht0. simpl in Ht0. congruence.
    - apply (Hfresh file); [|by rewrite Hid].
      apply elem_of_app.
      apply elem_of_app in Hin as [Hin|Hin%list_elem_of_filter];
        [by left|right; by destruct Hin]. }
  rewrite (deleteConfigs_nothing changes t4 Hnone).
  destruct silenceNotices; simpl.
  - do 3 (constructor; [done|]).
    repeat (apply Forall_app; split); done.
  - pose proof (endSync_no_disposal drive fires session true t4) as He.
    destruct (endSync drive fires session true t4) as [t5 tr4]. simpl.
    do 3 (constructor; [done|]).
    repeat (apply Forall_app; split); try done; by repeat constructor.
Qed.

Lemma config_removal_needs_recent_file_witness :
  Forall (λ e, disposed e = None)
    (pull removing_drive obsidian_fires plain_session true config_plugin).2.
Proof.
  apply (config_removal_needs_recent_file removing_drive obsidian_fires
           plain_session true config_plugin []
           [ {| fileId := "i1"; removed := true |} ]).
  - reflexivity.
  - reflexivity.
  - intros file Hin. simpl in Hin. by apply elem_of_nil in Hin.
Defined.

(** ** Pull: what the internal/config removal phase may dispose of
    ([helpers/pull.ts], lines 218-301) *)

Lemma foldl_preserves_elem {X A : Type} (P : X → Prop) (f : X → A → X)
    (l : list A) (x : X) :
  (∀ x a, a ∈ l → P x → P (f x a)) → P x → P (foldl f x l).
Proof.
  revert x. induction l as [|a l IH]; intros x Hf Hx; simpl; [done|].
  apply IH.
  - intros x' b Hb. apply Hf. apply elem_of_cons. by right.
  - apply Hf; [|done]. apply elem_of_cons. by left.
Qed.

Section config_targets.
Context (cds : list ConfigDeletion).
Implicit Types (s : ObsidianGoogleDrive * list Effect)
  (st : list ConfigDeletion * (ObsidianGoogleDrive * list Effect)).

(** Every disposal in [tr] is of the path of an entry of [cds]. *)
Local Abbreviation targets tr :=
  (Forall (λ eff, ∀ p, disposed eff = Some p →
                       ∃ e, e ∈ cds ∧ cd_path e = p) tr).

Lemma targets_trash m (l : list ConfigDeletion) s :
  (∀ e, e ∈ l → e ∈ cds) →
  targets s.2 →
  targets (foldl (λ s e, deletionMethod m (cd_path e) s) s l).2.
Proof.
  intros Hl Hs. rewrite foldl_deletionMethod_trace.
  apply Forall_app. split; [done|].
  apply Forall_fmap, Forall_fmap, Forall_forall. intros e He p. simpl.
  unfold trashEffect. destruct (String.eqb m "local"); simpl;
    intros [= <-]; exists e; auto.
Qed.

Lemma trashConfigs_targets m t : targets (trashConfigs m cds t).2.
Proof.
  unfold trashConfigs.
  set (P := λ st, (∀ e, e ∈ st.1 → e ∈ cds) ∧ targets st.2.2).
  assert (P (cds, (t, []))) as H0 by (split; [done|constructor]).
  assert (∀ st, P st →
            targets (foldl (λ s e, deletionMethod m (cd_path e) s)
                       st.2 st.1).2) as Hfin.
  { intros st [H1 H2]. by apply targets_trash. }
  case_bool_decide; [by apply (Hfin (cds, (t, [])))|].
  apply Hfin. apply (foldl_preserves P); [|done].
  intros st depth [H1 H2]. unfold trashDepth. split; simpl.
  - intros e [He _]%foldl_filter_outside. by apply H1.
  - apply targets_trash; [|done].
    intros e [_ He]%list_elem_of_filter. by apply H1.
Qed.

Lemma removeConfigs_targets t : targets (removeConfigs cds t).2.
Proof.
  unfold removeConfigs.
  apply (foldl_preserves_elem (λ s, targets s.2)).
  - intros s batch Hbatch Hs.
    apply (foldl_preserves_elem (λ s, targets s.2)); [|done].
    intros s' f Hf Hs'. unfold rmdirIfEmpty. case_match; [done|]. simpl.
    apply Forall_app. split; [done|]. repeat constructor.
    intros p [= <-].
    assert (f ∈ cd_path <$> filter (λ e, is_folder e = true) cds) as Hin.
    { apply (foldersToBatches_elem id). apply list_elem_of_In, in_concat.
      exists batch. split; apply list_elem_of_In; [|done].
      by rewrite elem_of_reverse in Hbatch. }
    apply list_elem_of_fmap in Hin as (e & -> & [_ He]%list_elem_of_filter).
    by exists e.
  - apply (foldl_preserves_elem (λ s, targets s.2)); [|constructor].
    intros s e [_ He]%list_elem_of_filter Hs. simpl.
    apply Forall_app. split; [done|]. repeat constructor.
    intros p [= <-]. by exists e.
Qed.

End config_targets.

(** X18.  The internal/config removal phase works on the disk only and
    spares what the vault knows: it changes neither the settings nor the
    vault, and every path it trashes, removes or rmdirs is the index path
    of a removed id, unknown to the vault and present on disk when the
    phase starts. *)
Theorem config_removal_spares_vault (changes : list Change)
    (t : ObsidianGoogleDrive) :
  settings (deleteConfigs changes t).1 = settings t
  ∧ vault (app (deleteConfigs changes t).1) = vault (app t)
  ∧ Forall (λ eff, ∀ p, disposed eff = Some p →
              getAbstractFileByPath (app t) p = None
              ∧ is_Some (adapter (app t) !! p)
              ∧ ∃ id, id ∈ removedIds changes
                      ∧ driveIdToPath (settings t) !! id = Some p)
      (deleteConfigs changes t).2.
Proof.
  destruct (deleteConfigs_disk_only changes t) as (H1 & _ & H2).
  split; [done|]. split; [done|].
  assert (Forall (λ eff, ∀ p, disposed eff = Some p →
                    ∃ e, e ∈ configDeletions changes t ∧ cd_path e = p)
            (deleteConfigs changes t).2) as Ht.
  { unfold deleteConfigs. case_match.
    - apply trashConfigs_targets.
    - apply removeConfigs_targets. }
  eapply Forall_impl; [exact Ht|]. simpl.
  intros eff Heff p Hp. destruct (Heff p Hp) as (e & He & <-).
  unfold configDeletions in He.
  apply list_elem_of_omap in He as (id & Hid & Hcd).
  unfold configDeletion, adapter_stat in Hcd.
  destruct (driveIdToPath (settings t) !! id) as [q|] eqn:Hq; [|done].
  simpl in Hcd.
  destruct (negb (String.eqb q EmptyString)); [|done]. simpl in Hcd.
  destruct (getAbstractFileByPath (app t) q) eqn:Hv; [done|]. simpl in Hcd.
  destruct (adapter (app t) !! q) as [d|] eqn:Hd; [|done].
  assert (cd_path e = q) as -> by (destruct d; by simplify_eq).
  split; [done|]. split; [by rewrite Hd|]. by exists id.
Qed.

(** ** Pull: the sync flag and the checkpoint *)

Section pull_outcome.
Context (drive : Drive) (fires : Firing) (session : Session).
Implicit Types (t : ObsidianGoogleDrive).

Lemma endSync_state retain t :
  (endSync drive fires session retain t).1
  = (endSync_rest drive fires session retain t).1.
Proof. unfold endSync. by destruct (endSync_rest _ _ _ _ _). Qed.

Lemma endSync_result retain t :
  checkpoint (endSync drive fires session retain t).1
  = (now session,
     default (changesToken (settings t)) (getChangesStartToken drive))
  ∧ syncing (endSync drive fires session retain t).1
    = (if isSome (getChangesStartToken drive) then false else syncing t).
Proof.
  rewrite endSync_state. unfold endSync_rest, checkpoint.
  pose proof (rewrite_configs_rest fires session (getConfigFilesToSync drive)
                (set_checkpoint (now session) (changesToken (settings t)) t))
    as (H1 & H2 & _ & H4).
  simpl in H1, H2, H4.
  destruct retain, (getChangesStartToken drive); simpl;
    rewrite ?H1, ?H2, ?H4; done.
Qed.

Lemma pull_silent_syncing t :
  syncing (pull drive fires session true t).1 = syncing t.
Proof.
  unfold pull, pull_run. simpl.
  destruct (searchRecentlyModified drive) as [recent|]; [|done].
  destruct (getChanges drive) as [changes|]; [|done].
  pose proof (deletions_syncing changes t) as Hd.
  destruct (deletions changes t) as [t1 removals]. simpl in Hd.
  case_match; [done|].
  set (t2 := set_driveIdToPath _ t1).
  set (pathToId := updateMap _ _).
  pose proof (deleteFiles_rest fires pathToId removals t2) as [_ H1].
  destruct (deleteFiles fires pathToId removals t2) as [t3 tr1].
  pose proof (upsertFiles_rest drive fires
                (recent ++ filter (λ f, lastSyncedAt (settings t) < modifiedTime f)
                                  (searchHiddenFiles drive)) t3) as [_ H2].
  destruct (upsertFiles _ fires _ t3) as [t4 tr2].
  pose proof (deleteConfigs_disk_only changes t4) as (_ & H3 & _).
  destruct (deleteConfigs changes t4) as [t5 tr3]. simpl in *.
  rewrite H3, H2, H1. done.
Qed.

(** A silent pull never leaves a call running. *)
Lemma pull_silent_settled t :
  pull_settled drive fires session true t = pull drive fires session true t.
Proof.
  unfold pull_settled, pull, pull_run. simpl.
  repeat (case_match; simpl; try done); by simplify_eq.
Qed.

(** A manual pull whose two fetches succeed: everything it started ends in
    [endSync], entered with the flag raised; on the exit of line 83 pull
    itself returns at the entry of that call, the checkpoint still where it
    was. *)
Lemma pull_manual_ends t recent changes :
  syncing t = false →
  connected session = true →
  searchRecentlyModified drive = Some recent →
  getChanges drive = Some changes →
  ∃ t', (pull_settled drive fires session false t).1
        = (endSync drive fires session true t').1
        ∧ syncing t' = true
        ∧ if (pull_run drive fires session false t).2
          then (pull drive fires session false t).1 = t'
               ∧ checkpoint t' = checkpoint t
          else pull_settled drive fires session false t
               = pull drive fires session false t.
Proof.
  intros Hs Hc Hrecent Hchanges. unfold pull_settled, pull, pull_run.
  rewrite Hs, Hc. simpl. rewrite Hrecent, Hchanges.
  pose proof (deletions_syncing changes (set_syncing true t)) as Hd.
  pose proof (deletions_checkpoint changes (set_syncing true t)) as Hk.
  destruct (deletions changes (set_syncing true t)) as [t1 removals].
  simpl in Hd, Hk.
  destruct (bool_decide (recent ++ _ = [])
            && bool_decide (length removals = 0%nat)).
  { exists t1. simpl. rewrite endSync_state.
    by destruct (endSync_rest drive fires session true t1). }
  set (t2 := set_driveIdToPath _ t1).
  set (pathToId := updateMap _ _).
  pose proof (deleteFiles_rest fires pathToId removals t2) as [_ H1].
  destruct (deleteFiles fires pathToId removals t2) as [t3 tr1].
  pose proof (upsertFiles_rest drive fires
                (recent ++ filter (λ f, lastSyncedAt (settings (set_syncing true t))
                                        < modifiedTime f)
                                  (searchHiddenFiles drive)) t3) as [_ H2].
  destruct (upsertFiles _ fires _ t3) as [t4 tr2].
  pose proof (deleteConfigs_disk_only changes t4) as (_ & H3 & _).
  destruct (deleteConfigs changes t4) as [t5 tr3]. simpl in *.
  exists t5.
  destruct (endSync drive fires session true t5) as [t6 tr4]. simpl.
  split; [done|]. split; [|done].
  rewrite H3, H2, H1. done.
Qed.

Lemma pull_settled_quiet silenceNotices t :
  Forall (λ e, remote_write e = false)
    (pull_settled drive fires session silenceNotices t).2.
Proof.
  pose proof (pull_quiet drive fires session silenceNotices t) as Hq.
  unfold pull_settled, pull in *.
  destruct (pull_run drive fires session silenceNotices t)
    as [[t1 tr] running].
  simpl in Hq. destruct running; [|done].
  pose proof (endSync_rest_quiet drive fires session true t1) as He.
  destruct (endSync_rest drive fires session true t1) as [t2 tr'].
  simpl in *. by apply Forall_app.
Qed.

End pull_outcome.

(** X19.  A manual pull started with the flag down and a connection: when
    everything it started has finished, [syncing] is down again only if all
    three of its fetches succeeded (recent files, change feed, start
    token).  A pull that finds nothing to do returns before that: the call
    of [endSync] on line 83 is not awaited, and at the return the flag is
    still raised.  On every other exit what pull returns is final.  As long
    as the flag is raised every manual pull and every push returns at once
    without doing anything. *)
Theorem manual_pull_flag (drive : Drive) (fires : Firing) (session : Session)
    (t : ObsidianGoogleDrive) :
  syncing t = false →
  connected session = true →
  (syncing (pull_settled drive fires session false t).1 = false
   ↔ is_Some (searchRecentlyModified drive) ∧ is_Some (getChanges drive)
     ∧ is_Some (getChangesStartToken drive))
  ∧ (if (pull_run drive fires session false t).2
     then syncing (pull drive fires session false t).1 = true
     else pull_settled drive fires session false t
          = pull drive fires session false t)
  ∧ (∀ t', syncing t' = true →
     ∀ drive' fires' session',
       pull drive' fires' session' false t' = (t', [])
       ∧ push drive' fires' session' t' = (t', [])).
Proof.
  intros Hs Hc. split; [|split].
  - destruct (searchRecentlyModified drive) as [recent|] eqn:Hrecent.
    2:{ unfold pull_settled, pull_run. rewrite Hs, Hc, Hrecent. simpl.
        split; [done|]. by intros [[? [=]] _]. }
    destruct (getChanges drive) as [changes|] eqn:Hchanges.
    2:{ unfold pull_settled, pull_run. rewrite Hs, Hc, Hrecent, Hchanges.
        simpl. split; [done|]. by intros (_ & [? [=]] & _). }
    destruct (pull_manual_ends drive fires session t recent changes
                Hs Hc Hrecent Hchanges) as (t' & -> & Hflag & _).
    destruct (endSync_result drive fires session true t') as [_ ->].
    destruct (getChangesStartToken drive) as [token|]; simpl.
    + split; [|done]. intros _. repeat split; by eexists.
    + rewrite Hflag. split; [done|]. by intros (_ & _ & [? [=]]).
  - destruct (searchRecentlyModified drive) as [recent|] eqn:Hrecent.
    2:{ unfold pull_settled, pull, pull_run. rewrite Hs, Hc, Hrecent. done. }
    destruct (getChanges drive) as [changes|] eqn:Hchanges.
    2:{ unfold pull_settled, pull, pull_run.
        rewrite Hs, Hc, Hrecent, Hchanges. done. }
    destruct (pull_manual_ends drive fires session t recent changes
                Hs Hc Hrecent Hchanges) as (t' & _ & Hflag & Hrun).
    destruct ((pull_run drive fires session false t).2); [|done].
    destruct Hrun as [-> _]. done.
  - intros t' Hflag drive' fires' session'. unfold pull, pull_run, push.
    by rewrite Hflag.
Qed.

(** Nothing recent on Drive: the pull returns with the flag raised, and the
    call it left running lowers it.  No answer from Drive: the flag stays
    raised for good and blocks the next pull and push. *)
Lemma manual_pull_flag_witness :
  (syncing (pull empty_drive obsidian_fires plain_session false
              hidden_plugin).1 = true
   ∧ syncing (pull_settled empty_drive obsidian_fires plain_session false
                hidden_plugin).1 = false)
  ∧ (pull_settled failing_drive obsidian_fires plain_session false
       hidden_plugin
     = pull failing_drive obsidian_fires plain_session false hidden_plugin
     ∧ ∀ drive' fires' session',
         pull drive' fires' session' false
           (pull failing_drive obsidian_fires plain_session false
              hidden_plugin).1
         = ((pull failing_drive obsidian_fires plain_session false
               hidden_plugin).1, [])
         ∧ push drive' fires' session'
             (pull failing_drive obsidian_fires plain_session false
                hidden_plugin).1
           = ((pull failing_drive obsidian_fires plain_session false
                 hidden_plugin).1, [])).
Proof.
  split.
  - destruct (manual_pull_flag empty_drive obsidian_fires plain_session
                hidden_plugin eq_refl eq_refl) as (H1 & H2 & _).
    split; [exact H2|]. apply H1. repeat split; by eexists.
  - destruct (manual_pull_flag failing_drive obsidian_fires plain_session
                hidden_plugin eq_refl eq_refl) as (_ & H2 & H3).
    split; [exact H2|]. apply H3. reflexivity.
Defined.

(** X20.  The Sync Checkpoint under pull: a silent pull leaves checkpoint
    and sync flag exactly as they were, whatever it fetched and applied; a
    manual pull whose fetches succeed has, when everything it started has
    finished, the last-synced time at now and the change token at the fresh
    start token; a manual pull that finds nothing to do returns with the
    checkpoint still where it was, because the [endSync] of line 83 is not
    awaited; and no pull, silent or not, calls anything that changes the
    remote store. *)
Theorem pull_checkpoint (drive : Drive) (fires : Firing) (session : Session)
    (t : ObsidianGoogleDrive) (recentlyModified : list FileMetadata)
    (changes : list Change) (token : string) :
  (checkpoint (pull drive fires session true t).1 = checkpoint t
   ∧ syncing (pull drive fires session true t).1 = syncing t
   ∧ pull_settled drive fires session true t = pull drive fires session true t)
  ∧ (syncing t = false →
     connected session = true →
     searchRecentlyModified drive = Some recentlyModified →
     getChanges drive = Some changes →
     getChangesStartToken drive = Some token →
     checkpoint (pull_settled drive fires session false t).1
     = (now session, token)
     ∧ if (pull_run drive fires session false t).2
       then checkpoint (pull drive fires session false t).1 = checkpoint t
       else checkpoint (pull drive fires session false t).1
            = (now session, token))
  ∧ (∀ silenceNotices,
       Forall (λ e, remote_write e = false)
         (pull drive fires session silenceNotices t).2
       ∧ Forall (λ e, remote_write e = false)
           (pull_settled drive fires session silenceNotices t).2).
Proof.
  split; [|split].
  - split; [apply pull_silent_checkpoint|].
    split; [apply pull_silent_syncing|apply pull_silent_settled].
  - intros Hs Hc Hrecent Hchanges Htoken.
    destruct (pull_manual_ends drive fires session t recentlyModified changes
                Hs Hc Hrecent Hchanges) as (t' & Hsettled & _ & Hrun).
    assert (checkpoint (pull_settled drive fires session false t).1
            = (now session, token)) as Hfinal.
    { rewrite Hsettled.
      destruct (endSync_result drive fires session true t') as [-> _].
      by rewrite Htoken. }
    split; [done|].
    destruct ((pull_run drive fires session false t).2).
    + destruct Hrun as [-> Hk]. done.
    + by rewrite <- Hrun.
  - intros silenceNotices.
    split; [apply pull_quiet|apply pull_settled_quiet].
Qed.

(** On a Drive with nothing recent the manual pull returns at checkpoint
    (0, page-1); the call it left running moves it to (100, page-2). *)
Lemma pull_checkpoint_witness :
  checkpoint (pull_settled empty_drive obsidian_fires plain_session false
                hidden_plugin).1 = (100, "page-2")
  ∧ checkpoint (pull empty_drive obsidian_fires plain_session false
                  hidden_plugin).1 = (0, "page-1").
Proof.
  destruct (pull_checkpoint empty_drive obsidian_fires plain_session
              hidden_plugin [] [] "page-2") as (_ & H2 & _).
  destruct H2 as [H2 H3]; try reflexivity.
  split; [exact H2|exact H3].
Defined.

(** ** Push: what the upload phases cannot reach, and how push ends *)

Section push_more.
Context (drive : Drive) (fires : Firing) (session : Session).
Implicit Types (t : ObsidianGoogleDrive) (s : PushState).

(** The upload phases write to the index only. *)
Local Abbreviation index_only t :=
  (λ t', operations (settings t') = operations (settings t)
         ∧ checkpoint t' = checkpoint t
         ∧ syncing t' = syncing t
         ∧ app t' = app t).

Lemma createRemoteFolder_index_only config parent p s :
  index_only s.1 (createRemoteFolder drive config parent p s).1.1.
Proof. unfold createRemoteFolder. by case_match. Qed.

Lemma uploadNote_index_only p s :
  index_only s.1 (uploadNote drive p s).1.1.
Proof. unfold uploadNote. by case_match. Qed.

Lemma syncConfigFile_index_only p s :
  index_only s.1 (syncConfigFile drive p s).1.1.
Proof. unfold syncConfigFile. by repeat case_match. Qed.

Lemma createPhase_index_only creates s :
  index_only s.1 (createPhase drive creates s).1.1.
Proof.
  unfold createPhase.
  set (folders := concat _). set (notes := filter _ _).
  pose proof (map_state_preserves (λ s' : PushState, index_only s.1 s'.1)
                (λ f, createRemoteFolder drive false (parent_path (path f))
                        (path f)) folders s) as H1.
  destruct (map_state _ folders s) as [s1 tr1].
  pose proof (map_state_preserves (λ s' : PushState, index_only s.1 s'.1)
                (λ f, uploadNote drive (path f)) notes s1) as H2.
  destruct (map_state _ notes s1) as [s2 tr2]. simpl in *.
  apply H2.
  - intros a s' (<- & <- & <- & <-). apply uploadNote_index_only.
  - apply H1; [|done].
    intros a s' (<- & <- & <- & <-). apply createRemoteFolder_index_only.
Qed.

Lemma configPhase_index_only s :
  index_only s.1 (configPhase drive s).1.1.
Proof.
  unfold configPhase.
  set (folders := concat _).
  pose proof (map_state_preserves (λ s' : PushState, index_only s.1 s'.1)
                (λ folder, createRemoteFolder drive true (dirname folder)
                             folder) folders s) as H1.
  destruct (map_state _ folders s) as [s1 tr1].
  pose proof (map_state_preserves (λ s' : PushState, index_only s.1 s'.1)
                (syncConfigFile drive) (getConfigFilesToSync drive) s1) as H2.
  destruct (map_state _ (getConfigFilesToSync drive) s1) as [s2 tr2].
  simpl in *. apply H2.
  - intros a s' (<- & <- & <- & <-). apply syncConfigFile_index_only.
  - apply H1; [|done].
    intros a s' (<- & <- & <- & <-). apply createRemoteFolder_index_only.
Qed.

(** Push from the end of its silent pull, when neither the config search
    nor the delete phase stops it: it ends in [endSync], entered with an
    empty log, after the upload of a snapshot of the settings taken before
    the log was emptied. *)
Lemma push_from_pull_completes configOnDrive t :
  searchConfigPaths drive = Some configOnDrive →
  delete_phase_passes drive configOnDrive t →
  ∃ t' id,
    index_only t t'
    ∧ (push_from_pull drive fires session t).1
      = (endSync drive fires session false (set_operations (λ _, ∅) t')).1
    ∧ UpdateSettingsFile id (settings t')
      ∈ (push_from_pull drive fires session t).2.
Proof.
  intros Hcfg Hpass. unfold push_from_pull. rewrite Hcfg.
  assert (∃ t0 tr1,
            deletePhase drive (invert (driveIdToPath (settings t)))
              (deleteSet configOnDrive t) t = (Some t0, tr1)
            ∧ index_only t t0) as (t0 & tr1 & -> & H0).
  { unfold deletePhase. destruct Hpass as [Hnil|Hok].
    - rewrite Hnil. simpl. by exists t, [].
    - case_bool_decide; [by exists t, []|].
      fold (deleteIds (deleteSet configOnDrive t) t). rewrite Hok. simpl.
      by eexists _, _. }
  set (creates := paths_with OpCreate _).
  set (s0 := (t0, invert (driveIdToPath (settings t)))).
  pose proof (createPhase_index_only creates s0) as H1.
  destruct (createPhase drive creates s0) as [[t1 ids1] tr2].
  pose proof (configPhase_index_only (t1, ids1)) as H2.
  destruct (configPhase drive (t1, ids1)) as [[t2 ids2] tr4].
  simpl in H1, H2.
  exists t2, (ids2 !! settingsFile). split.
  { destruct H0 as (<- & <- & <- & <-), H1 as (<- & <- & <- & <-). done. }
  destruct (endSync drive fires session false (set_operations (λ _, ∅) t2))
    as [t3 tr6] eqn:He.
  split; [done|]. simpl.
  apply elem_of_cons. right.
  rewrite !elem_of_app, elem_of_cons. do 4 right. by left.
Qed.

End push_more.

(** X21.  When neither the config search nor the batch delete stops a
    confirmed push, the push ends with an empty Operation Log and the
    last-synced time at now, whatever the uploads answered: entries whose
    upload failed are dropped with the others.  The settings snapshot it
    uploads was taken before that: it still holds the whole log and the old
    checkpoint. *)
Theorem push_clears_log (drive : Drive) (fires : Firing) (session : Session)
    (t : ObsidianGoogleDrive) (configOnDrive : list string) :
  syncing t = false →
  proceed session = true →
  connected session = true →
  searchConfigPaths drive = Some configOnDrive →
  delete_phase_passes drive configOnDrive (pulled drive fires session t).1 →
  operations (settings (push drive fires session t).1) = ∅
  ∧ lastSyncedAt (settings (push drive fires session t).1) = now session
  ∧ ∃ id snapshot,
      UpdateSettingsFile id snapshot ∈ (push drive fires session t).2
      ∧ operations snapshot
        = operations (settings (pulled drive fires session t).1)
      ∧ (lastSyncedAt snapshot, changesToken snapshot)
        = checkpoint (offered drive session t).
Proof.
  intros Hs Hp Hc Hcfg Hpass.
  rewrite (push_confirmed drive fires session t Hs Hp Hc). cbv zeta.
  change (?a, ?b).1 with a. change (?a, ?b).2 with b.
  destruct (push_from_pull_completes drive fires session configOnDrive
              _ Hcfg Hpass) as (t' & id & (Ho & Hcp & _ & _) & -> & Hin).
  split; [|split].
  - rewrite endSync_state. unfold endSync_rest. simpl. by case_match.
  - rewrite endSync_state. unfold endSync_rest. simpl. by case_match.
  - exists id, (settings t'). split.
    + rewrite !elem_of_app. auto.
    + split; [done|]. fold (checkpoint t'). rewrite Hcp.
      unfold pulled. by rewrite pull_silent_checkpoint.
Qed.

Lemma push_clears_log_witness :
  operations (settings (push refusing_drive obsidian_fires
                          (hidden_session true) hidden_plugin).1) = ∅
  ∧ lastSyncedAt (settings (push refusing_drive obsidian_fires
                              (hidden_session true) hidden_plugin).1)
    = now (hidden_session true)
  ∧ ∃ id snapshot,
      UpdateSettingsFile id snapshot
      ∈ (push refusing_drive obsidian_fires (hidden_session true)
           hidden_plugin).2
      ∧ operations snapshot
        = operations (settings (pulled refusing_drive obsidian_fires
                                  (hidden_session true) hidden_plugin).1)
      ∧ (lastSyncedAt snapshot, changesToken snapshot)
        = checkpoint (offered refusing_drive (hidden_session true)
                        hidden_plugin).
Proof.
  apply (push_clears_log refusing_drive obsidian_fires (hidden_session true)
           hidden_plugin []); try reflexivity.
  right. reflexivity.
Defined.

(** X22.  A confirmed push lowers [syncing] again only when the config
    search succeeds, the delete phase passes and Drive hands out a start
    token.  On its other exits (failed config search, failed batch delete,
    no start token) the flag stays raised, and from then on every push and
    every manual pull returns at once without doing anything. *)
Theorem push_flag (drive : Drive) (fires : Firing) (session : Session)
    (t : ObsidianGoogleDrive) :
  syncing t = false →
  proceed session = true →
  connected session = true →
  (syncing (push drive fires session t).1 = false
   ↔ ∃ configOnDrive,
       searchConfigPaths drive = Some configOnDrive
       ∧ delete_phase_passes drive configOnDrive
           (pulled drive fires session t).1
       ∧ is_Some (getChangesStartToken drive))
  ∧ (syncing (push drive fires session t).1 = true →
     ∀ drive' fires' session',
       push drive' fires' session' (push drive fires session t).1
       = ((push drive fires session t).1, [])
       ∧ pull drive' fires' session' false (push drive fires session t).1
         = ((push drive fires session t).1, [])).
Proof.
  intros Hs Hp Hc. split.
  - rewrite (push_confirmed drive fires session t Hs Hp Hc). simpl.
    assert (syncing (pulled drive fires session t).1 = true) as Hflag.
    { unfold pulled. by rewrite pull_silent_syncing. }
    set (t1 := (pulled drive fires session t).1) in *.
    destruct (searchConfigPaths drive) as [configOnDrive|] eqn:Hcfg.
    2:{ unfold push_from_pull. rewrite Hcfg. simpl. rewrite Hflag.
        split; [done|]. by intros (? & [=] & _). }
    destruct (decide (deleteSet configOnDrive t1 = [])) as [Hnil|Hne].
    2:destruct (batchDelete drive (deleteIds (deleteSet configOnDrive t1) t1))
        eqn:Hok.
    3:{ assert ((push_from_pull drive fires session t1).1 = t1) as ->.
        { unfold push_from_pull, deletePhase. rewrite Hcfg.
          rewrite bool_decide_eq_false_2 by done.
          fold (deleteIds (deleteSet configOnDrive t1) t1).
          by rewrite Hok. }
        rewrite Hflag. split; [done|].
        intros (c & [= <-] & [Hnil|Hok'] & _); [done|congruence]. }
    all: assert (delete_phase_passes drive configOnDrive t1) as Hpass
           by (unfold delete_phase_passes; auto).
    all: destruct (push_from_pull_completes drive fires session configOnDrive
                     t1 Hcfg Hpass) as (t' & id & (_ & _ & Hsy & _) & -> & _).
    all: destruct (endSync_result drive fires session false
                     (set_operations (λ _, ∅) t')) as [_ ->].
    all: simpl; rewrite Hsy, Hflag.
    all: destruct (getChangesStartToken drive) as [token|]; simpl.
    all: split; try done.
    all: try (intros _; exists configOnDrive; by repeat split).
    all: by intros (_ & _ & _ & [? [=]]).
  - intros Hflag drive' fires' session'. unfold push at 1, pull, pull_run.
    by rewrite Hflag.
Qed.

Lemma push_flag_witness :
  syncing (push failing_drive obsidian_fires plain_session
             hidden_plugin).1 = true
  ∧ ∀ drive' fires' session',
      push drive' fires' session'
        (push failing_drive obsidian_fires plain_session hidden_plugin).1
      = ((push failing_drive obsidian_fires plain_session hidden_plugin).1,
         [])
      ∧ pull drive' fires' session' false
          (push failing_drive obsidian_fires plain_session hidden_plugin).1
        = ((push failing_drive obsidian_fires plain_session hidden_plugin).1,
           []).
Proof.
  destruct (push_flag failing_drive obsidian_fires plain_session
              hidden_plugin) as [_ H]; [reflexivity..|].
  split; [reflexivity|]. apply H. reflexivity.
Defined.

(** ** Push: which entries reach the remote store ([helpers/push.ts],
    lines 415-519) *)

Section push_sends.
Context (drive : Drive).
Implicit Types (s : PushState) (p : string).

Lemma omap_cons_unfold {A B : Type} (f : A → option B) (x : A) (l : list A) :
  omap f (x :: l)
  = match f x with Some y => y :: omap f l | None => omap f l end.
Proof. done. Qed.

Lemma map_state_sent {A : Type} (pick : Effect → option string)
    (key : A → string) (f : A → PushState → PushState * list Effect)
    (l : list A) s :
  (∀ a s, omap pick (f a s).2 = [key a]) →
  omap pick (concat (map_state f l s).2) = key <$> l.
Proof.
  intros Hf. revert s. induction l as [|a l IH]; intros s; simpl; [done|].
  specialize (Hf a s). destruct (f a s) as [s1 tr].
  specialize (IH s1). destruct (map_state f l s1) as [s2 trs]. simpl in *.
  by rewrite omap_app, Hf, IH.
Qed.

Lemma createRemoteFolder_sent parent p s :
  omap remote_created (createRemoteFolder drive false parent p s).2 = [p].
Proof. unfold createRemoteFolder. by case_match. Qed.

Lemma uploadNote_sent p s :
  omap remote_created (uploadNote drive p s).2 = [p].
Proof. unfold uploadNote. by case_match. Qed.

Lemma vault_files_elem (a : App) (l : list string) (f : TAbstractFile) :
  f ∈ omap (getAbstractFileByPath a) l
  ↔ path f ∈ l ∧ getAbstractFileByPath a (path f) = Some f.
Proof.
  rewrite list_elem_of_omap. split.
  - intros (q & Hq & Hf).
    assert (path f = q) as <-; [|done].
    unfold getAbstractFileByPath in Hf.
    destruct (vault a !! q) as [[]|]; simpl in Hf; by simplify_eq.
  - intros [Hq Hf]. by exists (path f).
Qed.

End push_sends.

(** What the create phase creates and what the modify phase updates. *)
Lemma phases_send_vault_entries (drive : Drive) (creates modifies : list string)
    (s : PushState) (p : string) :
  (p ∈ omap remote_created (createPhase drive creates s).2
   ↔ p ∈ creates ∧ is_Some (getAbstractFileByPath (app s.1) p))
  ∧ (p ∈ omap remote_updated (modifyPhase drive modifies s.1)
     ↔ p ∈ modifies ∧ is_Some (getFileByPath (app s.1) p)).
Proof.
  split.
  - unfold createPhase.
    set (files := omap (getAbstractFileByPath (app s.1)) creates).
    set (folders := concat _). set (notes := filter _ files).
    pose proof (map_state_sent remote_created path
                  (λ f, createRemoteFolder drive false (parent_path (path f))
                          (path f)) folders s
                  (λ a s', createRemoteFolder_sent drive _ _ s')) as H1.
    destruct (map_state _ folders s) as [s1 tr1].
    pose proof (map_state_sent remote_created path
                  (λ f, uploadNote drive (path f)) notes s1
                  (λ a s', uploadNote_sent drive _ s')) as H2.
    destruct (map_state _ notes s1) as [s2 tr2]. simpl in *.
    rewrite omap_app, H1, H2, elem_of_app, !list_elem_of_fmap.
    unfold folders, notes.
    setoid_rewrite foldersToBatches_elem.
    setoid_rewrite list_elem_of_filter.
    unfold files. setoid_rewrite vault_files_elem.
    split.
    + intros [(f & -> & _ & Hin & Hf)|(f & -> & _ & Hin & Hf)];
        (split; [done|by rewrite Hf]).
    + intros [Hin [f Hf]].
      assert (path f = p) as Hp.
      { unfold getAbstractFileByPath in Hf.
        destruct (vault (app s.1) !! p) as [[]|]; simpl in Hf;
          by simplify_eq. }
      destruct f as [q m|q c]; simpl in Hp; subst q.
      * right. exists (TFile p m). by repeat split.
      * left. exists (TFolder p c). by repeat split.
  - unfold modifyPhase.
    set (pathToId := invert _).
    assert (∀ l : list TAbstractFile,
              omap remote_updated
                (concat ((λ f, if updateFile drive (pathToId !! path f) (path f)
                               then [UpdateFile (pathToId !! path f) (path f)]
                               else [UpdateFile (pathToId !! path f) (path f);
                                     NewNotice "An error occurred modifying Google Drive files."])
                           <$> l))
              = path <$> l) as ->.
    { induction l as [|f l IH]; [done|]. rewrite fmap_cons. simpl.
      rewrite omap_app, IH. by case_match. }
    rewrite list_elem_of_fmap. setoid_rewrite list_elem_of_omap.
    split.
    + intros (f & -> & q & Hq & Hf).
      pose proof (getFileByPath_path _ _ _ Hf) as ->.
      split; [done|]. by rewrite Hf.
    + intros [Hin [f Hf]]. exists f.
      split; [by rewrite (getFileByPath_path _ _ _ Hf)|]. by exists p.
Qed.


(** X23.  Push reaches the remote store only for entries the vault knows.
    The create phase issues a create call (folder or file upload) exactly
    for the [create] paths that the vault has an entry for, and the modify
    phase an update exactly for the [modify] paths that are files of the
    vault; an entry for any other path, for instance a hidden file the
    vault does not index, is passed over without a call or a notice. *)
Theorem push_sends_vault_entries (drive : Drive) (creates modifies : list string)
    (s : PushState) (p : string) :
  (p ∈ omap remote_created (createPhase drive creates s).2
   ↔ p ∈ creates ∧ is_Some (getAbstractFileByPath (app s.1) p))
  ∧ (p ∈ omap remote_updated (modifyPhase drive modifies s.1)
     ↔ p ∈ modifies ∧ is_Some (getFileByPath (app s.1) p)).
Proof. apply phases_send_vault_entries. Qed.

(** ** Create/create convergence and the push that follows
    ([helpers/pull.ts], lines 184-196; [helpers/push.ts], lines 377-519) *)




(** The whole push on the log the phase leaves for [n.md], a note of the
    vault that Drive holds under [id1]: one update, for that id and path,
    and no create call; the log is cleared. *)
Lemma flipped_note_is_updated_by_push :
  let t :=
    (upsertNotes one_byte obsidian_fires [remote_note]
       (set_syncing false
          (plugin_of {["n.md" := Some OpCreate]} {["id1" := "n.md"]}
             {["n.md" := VaultFile 1]}
             {["n.md" := DiskFile [Byte.x42] (Some 1)]}))).1 in
  operation t "n.md" = Some OpModify
  ∧ filter (λ e, remote_write e = true)
      (push empty_drive obsidian_fires draft_session t).2
    = [UpdateFile (Some "id1") "n.md";
       UpdateSettingsFile None
         (settings
            (set_operations (λ _, {["n.md" := Some OpModify]})
               (plugin_of ∅ {["id1" := "n.md"]} ∅ ∅)))]
  ∧ operations (settings
      (push empty_drive obsidian_fires draft_session t).1) = ∅.
Proof. repeat split; vm_compute; reflexivity. Qed.

(** ** Push: the scan for hidden local files ([helpers/push.ts],
    lines 316-361) *)

Section hidden_scan_more.
Context (hiddenFiles : list FileMetadata).
Implicit Types (t : ObsidianGoogleDrive) (p q : string) (ps : list string).

Lemma get_isSome (ops : Operations) p :
  isSome (Ops.get ops p) = isSome (Ops.read ops p) || Js.inherited p.
Proof. unfold Ops.get. by destruct (Ops.read ops p), (Js.inherited p). Qed.

Lemma trackHidden_cases t p :
  trackHidden hiddenFiles t p = t
  ∨ isSome (operation (trackHidden hiddenFiles t p) p) = true.
Proof.
  unfold trackHidden. rewrite get_isSome.
  destruct (isSome (Ops.read (operations (settings t)) p)); [by left|].
  destruct (Js.inherited p) eqn:Hi; [by left|]. simpl.
  apply inherited_proto in Hi.
  repeat case_match; auto; right; unfold operation; simpl;
    by rewrite read_write by auto.
Qed.

(** Whether the scan leaves an untracked path alone depends on the local
    store and on Drive only. *)
Lemma trackHidden_noop_transfer t1 t2 p :
  operation t1 p = None →
  trackHidden hiddenFiles t1 p = t1 →
  app t2 = app t1 →
  trackHidden hiddenFiles t2 p = t2.
Proof.
  intros Hnone Hnoop Happ. unfold trackHidden in *.
  rewrite !get_isSome in *.
  destruct (Js.inherited p) eqn:Hi; [by rewrite orb_true_r|].
  apply inherited_proto in Hi.
  rewrite !orb_false_r in *. unfold operation in Hnone.
  rewrite Hnone in Hnoop.
  rewrite Happ. simpl in Hnoop.
  destruct (isSome (Ops.read (operations (settings t2)) p)); [done|].
  repeat case_match; try done; exfalso;
    apply (f_equal (λ t, operation t p)) in Hnoop;
    unfold operation in Hnoop; simpl in Hnoop;
    rewrite read_write in Hnoop by auto; congruence.
Qed.

Lemma trackHidden_monotone t p q :
  isSome (operation t q) = true →
  isSome (operation (trackHidden hiddenFiles t p) q) = true.
Proof.
  intros Hq. destruct (trackHidden_entry hiddenFiles t p q) as [H|(H & _)].
  - unfold operation, Ops.read in *. by rewrite H.
  - by rewrite H in Hq.
Qed.

Lemma scan_monotone ps t q :
  isSome (operation t q) = true →
  isSome (operation (foldl (trackHidden hiddenFiles) t ps) q) = true.
Proof.
  apply (foldl_preserves (λ t', isSome (operation t' q) = true)).
  intros s a. apply trackHidden_monotone.
Qed.

Lemma scan_app ps t :
  app (foldl (trackHidden hiddenFiles) t ps) = app t.
Proof.
  apply (foldl_preserves (λ t', app t' = app t)); [|done].
  intros s a <-. apply trackHidden_rest.
Qed.

Lemma scan_settled ps t p :
  p ∈ ps →
  trackHidden hiddenFiles (foldl (trackHidden hiddenFiles) t ps) p
  = foldl (trackHidden hiddenFiles) t ps.
Proof.
  revert t. induction ps as [|q ps IH]; intros t Hin;
    [by apply elem_of_nil in Hin|].
  simpl. apply elem_of_cons in Hin as [->|Hin]; [|by apply IH].
  assert (∀ t', isSome (operation t' q) = true →
                trackHidden hiddenFiles t' q = t') as Hsome.
  { intros t' H. unfold trackHidden. rewrite get_isSome.
    unfold operation in H. by rewrite H. }
  destruct (isSome (operation t q)) eqn:Hq.
  { apply Hsome, scan_monotone, trackHidden_monotone, Hq. }
  destruct (trackHidden_cases t q) as [Hnoop|Hset].
  - rewrite Hnoop. apply (trackHidden_noop_transfer t); [|done|apply scan_app].
    by destruct (operation t q).
  - by apply Hsome, scan_monotone.
Qed.

Lemma foldl_noop {A B : Type} (f : A → B → A) (l : list B) (a : A) :
  (∀ b, b ∈ l → f a b = a) → foldl f a l = a.
Proof.
  induction l as [|b l IH]; intros H; simpl; [done|].
  rewrite H by (apply elem_of_cons; by left).
  apply IH. intros b' Hb'. apply H. apply elem_of_cons. by right.
Qed.

End hidden_scan_more.

(** No member of [Object.prototype] has a name that starts with a dot. *)
Lemma hidden_not_inherited (p : string) :
  Js.startsWith (Js.lastSegment p) "." = true → Js.inherited p = false.
Proof.
  intros Hdot. destruct (Js.inherited p) eqn:Hi; [|done].
  unfold Js.inherited in Hi. apply bool_decide_eq_true in Hi.
  unfold Js.prototype_members in Hi.
  repeat (apply elem_of_cons in Hi as [->|Hi]; [by vm_compute in Hdot|]).
  by apply elem_of_nil in Hi.
Qed.

(** X24.  The scan for hidden local files settles in one pass: running it
    again on its own result changes nothing.  After it every scanned path
    that the vault knows and Drive does not hold among its hidden files has
    an entry in the log, so that the confirmation dialog lists it. *)
Theorem hidden_scan_settles (hiddenFiles : list FileMetadata)
    (allLocalFiles : list string) (t : ObsidianGoogleDrive) :
  hiddenScan hiddenFiles allLocalFiles (hiddenScan hiddenFiles allLocalFiles t)
  = hiddenScan hiddenFiles allLocalFiles t
  ∧ ∀ p, p ∈ hiddenLocalFiles allLocalFiles →
         is_Some (getAbstractFileByPath (app t) p) →
         existsb (drivePath p) hiddenFiles = false →
         isSome (operation (hiddenScan hiddenFiles allLocalFiles t) p) = true.
Proof.
  unfold hiddenScan. split.
  - apply foldl_noop. intros p Hp. by apply scan_settled.
  - intros p Hin [f Hf] Hdrive.
    assert (Js.inherited p = false) as Hplain.
    { apply list_elem_of_filter in Hin as [[Hdot _] _].
      by apply hidden_not_inherited. }
    revert Hin. generalize (hiddenLocalFiles allLocalFiles). intros ps Hin.
    revert t Hf.
    induction ps as [|q ps IH]; intros t Hf; [by apply elem_of_nil in Hin|].
    simpl. apply elem_of_cons in Hin as [->|Hin].
    + apply scan_monotone. unfold trackHidden. rewrite get_isSome, Hplain.
      rewrite orb_false_r.
      destruct (isSome (Ops.read (operations (settings t)) q)) eqn:Hq;
        [done|].
      rewrite Hf, Hdrive. simpl. unfold operation. simpl.
      rewrite read_write; [done|]. left. by apply inherited_proto.
    + apply IH; [done|].
      by destruct (trackHidden_rest hiddenFiles t q) as (_ & _ & -> & _).
Qed.

Lemma hidden_scan_settles_witness :
  isSome (operation (hiddenScan [] [".hidden.md"] hidden_plugin)
            ".hidden.md") = true.
Proof.
  destruct (hidden_scan_settles [] [".hidden.md"] hidden_plugin) as [_ H].
  apply H.
  - vm_compute. apply elem_of_cons. by left.
  - by eexists.
  - reflexivity.
Defined.

(** ** Push: the folders of the config objects ([helpers/push.ts],
    lines 521-533) *)

Section config_folders.
Implicit Types (s p a : string) (l : list string).

Lemma join_cons_cons sep w w' l :
  Js.join sep (w :: w' :: l) = w +:+ sep +:+ Js.join sep (w' :: l).
Proof. done. Qed.

Lemma join_split s : Js.join "/" (Js.split "/" s) = s.
Proof.
  induction s as [|x s IH]; [done|]. simpl.
  pose proof (split_nonempty "/" s) as Hne.
  destruct (Js.split "/" s) as [|w [|w' ws]] eqn:Hs; [done| |].
  - simpl in IH. subst w.
    destruct (Ascii.eqb x "/") eqn:Hx; [|done].
    apply Ascii.eqb_eq in Hx as ->. done.
  - rewrite join_cons_cons in IH.
    destruct (Ascii.eqb x "/") eqn:Hx.
    + apply Ascii.eqb_eq in Hx as ->.
      rewrite join_cons_cons, join_cons_cons, IH. done.
    + rewrite join_cons_cons, append_cons, IH. done.
Qed.

Lemma join_app sep l1 l2 :
  l1 ≠ [] → l2 ≠ [] →
  Js.join sep (l1 ++ l2) = Js.join sep l1 +:+ sep +:+ Js.join sep l2.
Proof.
  intros H1 H2. induction l1 as [|w [|w' l1] IH]; [done| |].
  - destruct l2 as [|w2 l2]; [done|]. done.
  - change ((w :: w' :: l1) ++ l2) with (w :: w' :: (l1 ++ l2)).
    rewrite !join_cons_cons.
    change (w' :: l1 ++ l2) with ((w' :: l1) ++ l2).
    rewrite IH by done. by rewrite !append_assoc.
Qed.

Lemma ancestors_under p a : a ∈ ancestors p → under a p = true.
Proof.
  unfold ancestors. intros (i & -> & Hi)%list_elem_of_fmap.
  apply elem_of_seq in Hi.
  set (parts := Js.split "/" p) in *.
  assert (take i parts ≠ []) as H1.
  { intros H%(f_equal length). rewrite length_take in H. simpl in H. lia. }
  assert (drop i parts ≠ []) as H2.
  { intros H%(f_equal length). rewrite length_drop in H. simpl in H. lia. }
  unfold under. rewrite <- (join_split p) at 1. fold parts.
  rewrite <- (take_drop i parts) at 1.
  rewrite join_app by done. rewrite <- append_assoc.
  apply startsWith_app.
Qed.

Lemma dirname_ancestor p :
  (2 ≤ Js.segments p)%nat → dirname p ∈ ancestors p.
Proof.
  unfold Js.segments, dirname, ancestors. intros Hlen.
  apply list_elem_of_fmap. exists (length (Js.split "/" p) - 1)%nat. split.
  - f_equal. rewrite removelast_firstn_len. f_equal. lia.
  - apply elem_of_seq. lia.
Qed.

End config_folders.

(** X25.  The folders the config phase sets out to create are folders
    above a config file to sync for which the path-to-id map answers with a
    falsy value ([pathsToIds[folder]], line 532: no remote id yet), and the
    folder a config file sits in is always among them when the map answers
    so for it: no config file is uploaded into a folder that push did not
    try to create. *)
Theorem config_folders_above (configFilesToSync : list string)
    (pathsToIds : gmap string string) :
  (∀ folder, folder ∈ foldersToCreate configFilesToSync pathsToIds →
             Js.truthy_at pathsToIds folder = false
             ∧ ∃ file, file ∈ configFilesToSync ∧ under folder file = true)
  ∧ (∀ file, file ∈ configFilesToSync →
             (2 ≤ Js.segments file)%nat →
             Js.truthy_at pathsToIds (dirname file) = false →
             dirname file ∈ foldersToCreate configFilesToSync pathsToIds).
Proof.
  assert (∀ folder, folder ∈ concat (ancestors <$> configFilesToSync)
                    ↔ ∃ file, file ∈ configFilesToSync
                              ∧ folder ∈ ancestors file) as Hc.
  { intros folder. rewrite list_elem_of_In, in_concat. split.
    - intros (l & Hl & Hf). apply list_elem_of_In in Hl, Hf.
      apply list_elem_of_fmap in Hl as (file & -> & Hfile). by exists file.
    - intros (file & Hfile & Hf). exists (ancestors file).
      split; apply list_elem_of_In; [|done]. by apply list_elem_of_fmap_2. }
  unfold foldersToCreate. split.
  - intros folder [Hid Hin]%list_elem_of_filter. split; [done|].
    apply elem_of_remove_dups, Hc in Hin as (file & Hfile & Hf).
    exists file. split; [done|]. by apply ancestors_under.
  - intros file Hfile Hlen Hid. apply list_elem_of_filter. split; [done|].
    apply elem_of_remove_dups, Hc. exists file. split; [done|].
    by apply dirname_ancestor.
Qed.

Lemma config_folders_above_witness :
  dirname ".obsidian/app.json"
  ∈ foldersToCreate [".obsidian/app.json"] ∅.
Proof.
  destruct (config_folders_above [".obsidian/app.json"] ∅) as [_ H].
  apply H.
  - apply elem_of_cons. by left.
  - vm_compute. lia.
  - reflexivity.
Defined.

(** ** Start-up ([main.ts], lines 354-412) *)

(** X26.  The start-up sync of a plugin with a refresh token and a
    connection always ends in [endSync]: when Drive hands out a start token
    the Sync Checkpoint moves to now and to that token and the flag goes
    down, whatever the silent pull did before.  This includes the case in
    which the pull could not fetch the recent files: then nothing has been
    pulled (the only effects are the failed search, the error notice and
    [endSync] with its two requests, the index is as it was) and the
    checkpoint has moved all the same. *)
Theorem startup_advances_checkpoint (drive : Drive) (fires : Firing)
    (session : Session) (t : ObsidianGoogleDrive) (token : string) :
  refreshToken (settings t) ≠ EmptyString →
  connected session = true →
  getChangesStartToken drive = Some token →
  checkpoint (onload drive fires session t).1 = (now session, token)
  ∧ syncing (onload drive fires session t).1 = false
  ∧ (searchRecentlyModified drive = None →
     (onload drive fires session t).2
     = [SearchFiles (ModifiedAfter (lastSyncedAt (settings t)));
        NewNotice "An error occurred fetching Google Drive files. Check console for details.";
        GetConfigFilesToSync; GetChangesStartToken; EndSync]
     ∧ driveIdToPath (settings (onload drive fires session t).1)
       = driveIdToPath (settings t)).
Proof.
  intros Hrt Hc Htoken. unfold onload. simpl.
  apply String.eqb_neq in Hrt. rewrite Hrt, Hc. simpl.
  destruct (pull drive fires session true (set_syncing true t))
    as [t1 tr1] eqn:Hpull.
  pose proof (endSync_result drive fires session true t1) as [H1 H2].
  destruct (endSync drive fires session true t1) as [t2 tr2] eqn:Hend.
  simpl in *. rewrite Htoken in H1, H2. simpl in H1, H2.
  split; [done|]. split; [done|].
  intros Hfail.
  assert (pull drive fires session true (set_syncing true t)
          = (set_syncing true t,
             [SearchFiles (ModifiedAfter (lastSyncedAt (settings t)));
              NewNotice "An error occurred fetching Google Drive files. Check console for details."]))
    as Hp by (unfold pull, pull_run; simpl; by rewrite Hfail).
  rewrite Hp in Hpull. simplify_eq.
  unfold endSync, endSync_rest in Hend. rewrite Htoken in Hend.
  simplify_eq. simpl.
  split; [done|].
  by destruct (rewrite_configs_rest fires session (getConfigFilesToSync drive)
                 (set_checkpoint (now session) (changesToken (settings t))
                    (set_syncing true t))) as (_ & _ & -> & _).
Qed.

Lemma startup_advances_checkpoint_witness :
  checkpoint (onload flaky_drive obsidian_fires plain_session
                deleting_plugin).1 = (now plain_session, "page-2")
  ∧ syncing (onload flaky_drive obsidian_fires plain_session
               deleting_plugin).1 = false
  ∧ (onload flaky_drive obsidian_fires plain_session deleting_plugin).2
    = [SearchFiles (ModifiedAfter 0);
       NewNotice "An error occurred fetching Google Drive files. Check console for details.";
       GetConfigFilesToSync; GetChangesStartToken; EndSync]
  ∧ driveIdToPath (settings (onload flaky_drive obsidian_fires plain_session
                               deleting_plugin).1)
    = driveIdToPath (settings deleting_plugin).
Proof.
  destruct (startup_advances_checkpoint flaky_drive obsidian_fires
              plain_session deleting_plugin "page-2") as (H1 & H2 & H3);
    [discriminate|reflexivity|reflexivity|].
  split; [exact H1|]. split; [exact H2|]. apply H3. reflexivity.
Defined.

(** ** The confirmation dialog ([helpers/push.ts], lines 39-294) *)

Section listing_order.
Implicit Types (s p q r : string) (a b c : ascii).

Lemma ascii_compare_refl a : (a ?= a)%char = Eq.
Proof. unfold Ascii.compare. apply N.compare_refl. Qed.

Lemma ascii_compare_trans a b c :
  (a ?= b)%char = Lt → (b ?= c)%char = Lt → (a ?= c)%char = Lt.
Proof.
  unfold Ascii.compare. rewrite !N.compare_lt_iff. apply N.lt_trans.
Qed.

Lemma string_compare_trans p q r :
  (p ?= q)%string = Lt → (q ?= r)%string = Lt → (p ?= r)%string = Lt.
Proof.
  revert q r. induction p as [|a p IH]; intros [|b q] [|c r]; simpl;
    try done.
  destruct (a ?= b)%char eqn:Hab; try done;
    destruct (b ?= c)%char eqn:Hbc; try done.
  - apply Ascii.compare_eq_iff in Hab as ->.
    apply Ascii.compare_eq_iff in Hbc as ->.
    rewrite ascii_compare_refl. apply IH.
  - apply Ascii.compare_eq_iff in Hab as ->. by rewrite Hbc.
  - apply Ascii.compare_eq_iff in Hbc as <-. by rewrite Hab.
  - by rewrite (ascii_compare_trans a b c).
Qed.

Lemma leb_trans p q r :
  String.leb p q = true → String.leb q r = true → String.leb p r = true.
Proof.
  unfold String.leb.
  destruct (p ?= q)%string eqn:Hpq; try done;
    destruct (q ?= r)%string eqn:Hqr; try done; intros _ _.
  - apply String.compare_eq_iff in Hpq as ->. by rewrite Hqr.
  - apply String.compare_eq_iff in Hpq as ->. by rewrite Hqr.
  - apply String.compare_eq_iff in Hqr as <-. by rewrite Hpq.
  - by rewrite (string_compare_trans p q r).
Qed.

(** A path sorts strictly before everything below it. *)
Lemma under_after p q : under p q = true → String.leb q p = false.
Proof.
  intros [r ->]%under_inv. unfold String.leb.
  rewrite String.compare_antisym.
  assert ((p ?= p +:+ "/" +:+ r)%string = Lt) as ->; [|done].
  induction p as [|a p IH]; [done|].
  rewrite append_cons. simpl. by rewrite ascii_compare_refl.
Qed.

Global Instance alphabetical_trans : Transitive alphabetical.
Proof. intros a b c. unfold alphabetical. apply leb_trans. Qed.

Global Instance alphabetical_total : Total alphabetical.
Proof. intros a b. unfold alphabetical. apply String.leb_total. Qed.

Lemma StronglySorted_filter {A : Type} (R : relation A) (P : A → Prop)
    `{∀ x, Decision (P x)} (l : list A) :
  StronglySorted R l → StronglySorted R (filter P l).
Proof.
  induction 1 as [|x l Hl IH Hx]; [constructor|].
  rewrite filter_cons. case_decide; [|done]. constructor; [done|].
  apply Forall_forall. intros y [_ Hy]%list_elem_of_filter.
  rewrite Forall_forall in Hx. by apply Hx.
Qed.

Lemma nested_first (operations : list Row) p :
  StronglySorted alphabetical operations →
  p ∈ fst <$> operations →
  head (nestedFiles operations p) = Some p.
Proof.
  unfold nestedFiles.
  induction 1 as [|row l Hl IH Hrow]; intros Hin;
    [by apply elem_of_nil in Hin|].
  rewrite fmap_cons, filter_cons. rewrite fmap_cons in Hin.
  apply elem_of_cons in Hin as [->|Hin].
  { rewrite decide_True by (by right). done. }
  case_decide as Hnested; [|by apply IH]. simpl.
  destruct Hnested as [Hunder | ->]; [|done]. exfalso.
  apply list_elem_of_fmap in Hin as (row' & -> & Hin).
  rewrite Forall_forall in Hrow. specialize (Hrow row' Hin).
  unfold alphabetical in Hrow.
  apply (under_after row'.1 row.1) in Hunder. congruence.
Qed.

End listing_order.

Section forget.
Implicit Types (t : ObsidianGoogleDrive) (p q : string) (l : list string)
  (operations : list Row).

Lemma remove_all_lookup l (ops : Operations) q :
  foldl (λ o file, Ops.remove file o) ops l !! q
  = if bool_decide (q ∈ l) then None else ops !! q.
Proof.
  revert ops. induction l as [|p l IH]; intros ops; simpl; [done|].
  rewrite IH. unfold Ops.remove.
  destruct (decide (q ∈ l)) as [Hin|Hin].
  - rewrite (bool_decide_eq_true_2 (q ∈ l)) by done.
    rewrite bool_decide_eq_true_2; [done|]. apply elem_of_cons. by right.
  - rewrite (bool_decide_eq_false_2 (q ∈ l)) by done.
    destruct (decide (q = p)) as [->|Hne].
    + rewrite lookup_delete_eq.
      rewrite bool_decide_eq_true_2; [done|]. apply elem_of_cons. by left.
    + rewrite lookup_delete_ne by done.
      rewrite bool_decide_eq_false_2; [done|].
      intros [?|?]%elem_of_cons; done.
Qed.

Lemma filter_iff_elem {A : Type} (P1 P2 : A → Prop)
    `{∀ x, Decision (P1 x)} `{∀ x, Decision (P2 x)} (xs : list A) :
  (∀ x, x ∈ xs → (P1 x ↔ P2 x)) → filter P1 xs = filter P2 xs.
Proof.
  induction xs as [|x xs IH]; intros Hiff; [done|].
  rewrite !filter_cons.
  rewrite IH by (intros y Hy; apply Hiff, elem_of_cons; by right).
  specialize (Hiff x (proj2 (elem_of_cons _ _ _) (or_introl eq_refl))).
  repeat case_decide; naive_solver.
Qed.

Lemma nestedFiles_elem operations p q :
  q ∈ nestedFiles operations p
  ↔ q ∈ fst <$> operations ∧ (q = p ∨ under p q = true).
Proof.
  unfold nestedFiles, under. rewrite list_elem_of_filter. naive_solver.
Qed.

End forget.

(** X27.  After a confirmed undo the dialog drops from the log the clicked
    path and every listed path below it, and no other key; index and local
    store are not touched by this step.  The dialog goes on with the rows
    that are left, in their order, and closes, which cancels the push,
    exactly when every row was the clicked one or below it. *)
Theorem revert_forgets_nested (listed : list Row) (path : string)
    (t : ObsidianGoogleDrive) :
  (∀ q, operations (settings (forgetNested listed path t).1) !! q
        = if bool_decide (q ∈ fst <$> listed
                          ∧ (q = path ∨ under path q = true))
          then None else operations (settings t) !! q)
  ∧ driveIdToPath (settings (forgetNested listed path t).1)
    = driveIdToPath (settings t)
  ∧ app (forgetNested listed path t).1 = app t
  ∧ match (forgetNested listed path t).2 with
    | None =>
        ∀ row, row ∈ listed → row.1 = path ∨ under path row.1 = true
    | Some rows =>
        rows ≠ []
        ∧ rows = filter (λ row : Row,
                           ¬ (row.1 = path ∨ under path row.1 = true))
                   listed
    end.
Proof.
  unfold forgetNested. simpl. split; [|split; [done|split; [done|]]].
  - intros q. rewrite remove_all_lookup.
    destruct (decide (q ∈ nestedFiles listed path)) as [Hin|Hin].
    + rewrite bool_decide_eq_true_2 by done.
      rewrite bool_decide_eq_true_2; [done|]. by apply nestedFiles_elem.
    + rewrite bool_decide_eq_false_2 by done.
      rewrite bool_decide_eq_false_2; [done|]. by rewrite <- nestedFiles_elem.
  - assert (∀ row : Row, row ∈ listed →
              (row.1 ∉ nestedFiles listed path
               ↔ ¬ (row.1 = path ∨ under path row.1 = true))) as Hrow.
    { intros row Hin. rewrite nestedFiles_elem.
      assert (row.1 ∈ fst <$> listed) by (by apply list_elem_of_fmap_2).
      naive_solver. }
    assert (filter (λ r : Row, r.1 ∉ nestedFiles listed path) listed
            = filter (λ row : Row,
                        ¬ (row.1 = path ∨ under path row.1 = true))
                listed) as Heq.
    { apply filter_iff_elem. intros row Hin. by apply Hrow. }
    case_bool_decide as Hnil.
    + intros row Hin. rewrite Heq in Hnil.
      destruct (decide (row.1 = path ∨ under path row.1 = true)) as [|Hno];
        [done|].
      assert (row ∈ filter (λ row : Row,
                              ¬ (row.1 = path ∨ under path row.1 = true))
                      listed) as Hin'
        by (by apply list_elem_of_filter).
      rewrite Hnil in Hin'. by apply elem_of_nil in Hin'.
    + split; [done|]. exact Heq.
Qed.

Lemma initialOperations_sorted (t : ObsidianGoogleDrive) :
  StronglySorted alphabetical (initialOperations t).
Proof. unfold initialOperations. apply StronglySorted_merge_sort; apply _. Qed.

(** X28.  The dialog lists the log sorted by path and keeps it sorted
    through every revert; in a sorted list the clicked path comes before
    everything below it, so the path handed to the undo of a creation or
    modification ([files[0]]) is the path of the clicked row. *)
Theorem undo_acts_on_clicked_row (t0 : ObsidianGoogleDrive)
    (listed : list Row) (path : string) :
  StronglySorted alphabetical listed →
  path ∈ fst <$> listed →
  head (nestedFiles listed path) = Some path
  ∧ (∀ t rows, (forgetNested listed path t).2 = Some rows →
               StronglySorted alphabetical rows)
  ∧ StronglySorted alphabetical (initialOperations t0)
  ∧ initialOperations t0 ≡ₚ entries (operations (settings t0)).
Proof.
  intros Hsorted Hin. split; [by apply nested_first|]. split; [|split].
  - intros t rows. unfold forgetNested. simpl.
    case_bool_decide; [done|]. intros [= <-].
    by apply StronglySorted_filter.
  - apply initialOperations_sorted.
  - apply merge_sort_Permutation.
Qed.

Lemma undo_acts_on_clicked_row_witness :
  head (nestedFiles (initialOperations created_plugin) "F") = Some "F"
  ∧ (∀ t rows,
       (forgetNested (initialOperations created_plugin) "F" t).2 = Some rows →
       StronglySorted alphabetical rows)
  ∧ StronglySorted alphabetical (initialOperations created_plugin)
  ∧ initialOperations created_plugin
    ≡ₚ entries (operations (settings created_plugin)).
Proof.
  apply (undo_acts_on_clicked_row created_plugin).
  - apply initialOperations_sorted.
  - vm_compute. apply elem_of_cons. by left.
Defined.

(** What the undo of a creation and of a modification do outside the
    plugin is among the calls of [UndoCall]. *)
Lemma undo_calls_typed (answers : UndoAnswers) (fires : Firing)
    (first : option string) (t : ObsidianGoogleDrive) :
  Forall (λ e, ∃ c, e = undo_effect c) (undoCreate fires first t).2
  ∧ Forall (λ e, ∃ c, e = undo_effect c)
      (undoModify answers fires first t).2.
Proof.
  unfold undoCreate, undoModify. split; repeat case_match; simpl;
    repeat constructor;
    first [by eexists (UndoDeleteFile _) | by eexists (UndoGetFile _)
          |by eexists (UndoGetFileMetadata _) | by eexists (UndoModifyFile _)
          |by eexists (UndoNotice _)].
Qed.

(** X29.  A confirmed undo forgets the entry of the clicked path in every
    case, also when nothing was restored.  The undo of a creation trashes
    the local entry when the vault has one and does nothing otherwise.
    The undo of a modification does nothing for a path that is no file of
    the vault; for a file it asks Drive for the content and for the
    metadata; when Drive does not deliver one of them it only raises a
    notice and the local store stays as it is, the local change included;
    only with both answers is the file rewritten with the remote content
    and modification time. *)
Theorem undo_forgets_entry (answers : UndoAnswers) (fires : Firing)
    (listed : list Row) (path : string) (t : ObsidianGoogleDrive) :
  StronglySorted alphabetical listed →
  path ∈ fst <$> listed →
  (operations (settings (revertCreate fires listed path t).1.1) !! path
   = None
   ∧ match getAbstractFileByPath (app t) path with
     | Some file =>
         (revertCreate fires listed path t).2 = [CallDeleteFile path]
     | None =>
         (revertCreate fires listed path t).2 = []
         ∧ app (revertCreate fires listed path t).1.1 = app t
     end)
  ∧ operations (settings (revertModify answers fires listed path t).1.1)
      !! path = None
  ∧ match getFileByPath (app t) path,
          onlineFile answers (invert (driveIdToPath (settings t)) !! path),
          metadata answers (invert (driveIdToPath (settings t)) !! path)
    with
    | Some file, Some content, Some m =>
        (revertModify answers fires listed path t).2
        = [GetFile (invert (driveIdToPath (settings t)) !! path);
           GetFileMetadata (invert (driveIdToPath (settings t)) !! path);
           CallModifyFile path]
        ∧ adapter (app (revertModify answers fires listed path t).1.1) !! path
          = Some (DiskFile content (Some (modifiedTime m)))
    | Some file, _, _ =>
        (revertModify answers fires listed path t).2
        = [GetFile (invert (driveIdToPath (settings t)) !! path);
           GetFileMetadata (invert (driveIdToPath (settings t)) !! path);
           NewNotice "An error occurred fetching Google Drive files."]
        ∧ app (revertModify answers fires listed path t).1.1 = app t
    | None, _, _ =>
        (revertModify answers fires listed path t).2 = []
        ∧ app (revertModify answers fires listed path t).1.1 = app t
    end.
Proof.
  intros Hsorted Hin. unfold revertCreate, revertModify.
  rewrite (nested_first listed path Hsorted Hin).
  assert (∀ t', operations (settings (forgetNested listed path t').1) !! path
                = None) as Hforget.
  { intros t'. unfold forgetNested. simpl. rewrite remove_all_lookup.
    rewrite bool_decide_eq_true_2; [done|]. apply nestedFiles_elem. auto. }
  split.
  { unfold undoCreate. simpl.
    destruct (getAbstractFileByPath (app t) path) as [file|] eqn:Hfile;
      simpl; [|split; [apply (Hforget t)|done]].
    split; [apply Hforget|].
    unfold getAbstractFileByPath in Hfile.
    destruct (vault (app t) !! path) as [[]|]; simpl in Hfile;
      by simplify_eq. }
  unfold undoModify. simpl.
  destruct (getFileByPath (app t) path) as [file|] eqn:Hfile; simpl;
    [|split; [apply (Hforget t)|done]].
  pose proof (getFileByPath_path _ _ _ Hfile) as Hpath.
  destruct (onlineFile answers _) as [content|];
    [|split; [apply (Hforget t)|done]].
  destruct (metadata answers _) as [m|];
    [|split; [apply (Hforget t)|done]].
  split; [apply Hforget|]. split; [by rewrite Hpath|].
  unfold forgetNested, modifyFile. simpl. rewrite restore_app. simpl.
  by rewrite Hpath, lookup_insert_eq.
Qed.

Lemma undo_forgets_entry_witness :
  (operations (settings
     (revertCreate obsidian_fires (initialOperations created_plugin)
        "F/a.md" created_plugin).1.1) !! "F/a.md" = None
   ∧ (revertCreate obsidian_fires (initialOperations created_plugin)
        "F/a.md" created_plugin).2 = [CallDeleteFile "F/a.md"])
  ∧ operations (settings
      (revertModify no_answers obsidian_fires
         (initialOperations created_plugin) "F/a.md" created_plugin).1.1)
      !! "F/a.md" = None
  ∧ (revertModify no_answers obsidian_fires
       (initialOperations created_plugin) "F/a.md" created_plugin).2
    = [GetFile None; GetFileMetadata None;
       NewNotice "An error occurred fetching Google Drive files."]
  ∧ app (revertModify no_answers obsidian_fires
           (initialOperations created_plugin) "F/a.md" created_plugin).1.1
    = app created_plugin.
Proof.
  destruct (undo_forgets_entry no_answers obsidian_fires
              (initialOperations created_plugin) "F/a.md" created_plugin)
    as [H1 H2].
  - apply initialOperations_sorted.
  - vm_compute. apply elem_of_cons. right. apply elem_of_cons. by left.
  - split; [exact H1|exact H2].
Defined.

(** X30.  No row of the dialog is stuck: a row that [render] leaves without
    a revert button (a [delete] below another listed path) lies below a
    listed row that has one, and the revert of that row takes it along. *)
Theorem every_row_can_be_reverted (listed : list Row) (row : Row) :
  row ∈ listed →
  ∃ r, r ∈ listed
       ∧ revertButton listed r = true
       ∧ row.1 ∈ nestedFiles listed r.1.
Proof.
  intros Hin.
  enough (∃ r, r ∈ listed ∧ revertButton listed r = true
               ∧ (row.1 = r.1 ∨ under r.1 row.1 = true))
    as (r & Hr & Hb & Hn).
  { exists r. split; [done|]. split; [done|].
    apply nestedFiles_elem. split; [by apply list_elem_of_fmap_2|done]. }
  remember (Js.segments row.1) as n eqn:Hn.
  assert (Js.segments row.1 ≤ n)%nat as Hle by lia. clear Hn.
  revert row Hin Hle. induction n as [|n IH]; intros row Hin Hle.
  { pose proof (segments_pos row.1). lia. }
  destruct (revertButton listed row) eqn:Hb.
  { exists row. auto. }
  unfold revertButton in Hb.
  apply negb_false_iff, andb_true_iff in Hb as [_ Hex].
  apply existsb_exists in Hex as (r & Hr%list_elem_of_In & Hunder).
  fold (under r.1 row.1) in Hunder.
  pose proof (under_segments _ _ Hunder) as Hlt.
  destruct (IH r Hr) as (r' & Hr' & Hb' & Hn'); [lia|].
  exists r'. split; [done|]. split; [done|]. right.
  destruct Hn' as [<-|Hn']; [done|]. by eapply under_trans.
Qed.

Lemma every_row_can_be_reverted_witness :
  ∃ r, r ∈ [("F", Some OpDelete); ("F/a.md", Some OpDelete)]
       ∧ revertButton [("F", Some OpDelete); ("F/a.md", Some OpDelete)] r
         = true
       ∧ ("F/a.md", Some OpDelete).1
         ∈ nestedFiles [("F", Some OpDelete); ("F/a.md", Some OpDelete)] r.1.
Proof.
  apply (every_row_can_be_reverted
           [("F", Some OpDelete); ("F/a.md", Some OpDelete)]
           ("F/a.md", Some OpDelete)).
  apply elem_of_cons. right. apply elem_of_cons. by left.
Defined.
